(** * Synapse: the semantic chunking pipeline

    A shallow embedding of the chunking core of the repository
    (preprocessor, detectors, chunker) and the properties the specification
    states about it.

    - JavaScript strings are sequences of UTF-16 code units: [list N].
      [length] is [String.prototype.length].
    - Regular expressions are values of [Regex.regex], run by a backtracking
      matcher that follows the priorities of the ECMAScript matcher (greedy
      quantifiers, leftmost alternative first, empty iterations rejected).
    - JavaScript numbers that hold sizes and indices are [nat]; the detector
      scores and confidences are IEEE binary64 values, [PrimFloat.float].
    - A [TypeError] or [RangeError] raised by the code is the [Throw]
      result.
    - What the engine brings (the case mapping of [toUpperCase], the number
      of arguments it accepts in one call) is a parameter, [Engine]. *)

From stdpp Require Import gmap.
From Stdlib Require String.
From Stdlib Require Import List NArith ZArith Bool Ascii Floats Lia.
Import ListNotations.
Import String.StringSyntax.
Delimit Scope string_scope with string.

#[local] Set Warnings "-inexact-float".

Local Open Scope nat_scope.
Local Open Scope list_scope.

(** ** JavaScript strings *)

Abbreviation char := N (only parsing).
Abbreviation jsstring := (list N) (only parsing).

Module JS.

(** An ASCII literal as a JavaScript string. *)
Definition str (s : String.string) : jsstring :=
  List.map N_of_ascii (String.list_ascii_of_string s).
Arguments str s%_string_scope.

Definition LF : char := 10%N.
Definition CR : char := 13%N.
Definition TAB : char := 9%N.
Definition FF : char := 12%N.
Definition SP : char := 32%N.

Definition in_range (lo hi c : char) : bool := (lo <=? c)%N && (c <=? hi)%N.

Definition one_of (l : list char) (c : char) : bool := existsb (N.eqb c) l.

(** LineTerminator: LF, CR, LS, PS. *)
Definition isLineTerminator (c : char) : bool :=
  one_of [10; 13; 8232; 8233]%N c.

(** WhiteSpace and LineTerminator code units: what [trim] strips and what
    [\s] matches. *)
Definition isWhiteSpace (c : char) : bool :=
  one_of [9; 10; 11; 12; 13; 32; 160; 5760; 8232; 8233; 8239; 8287; 12288; 65279]%N c
  || in_range 8192 8202 c.

Definition isDigit (c : char) : bool := in_range 48 57 c.
Definition isUpper (c : char) : bool := in_range 65 90 c.
Definition isLower (c : char) : bool := in_range 97 122 c.

(** [\w] *)
Definition isWord (c : char) : bool :=
  isLower c || isUpper c || isDigit c || (c =? 95)%N.

Fixpoint dropWhile (p : char -> bool) (s : jsstring) : jsstring :=
  match s with
  | [] => []
  | c :: s' => if p c then dropWhile p s' else s
  end.

Definition trimStart (s : jsstring) : jsstring := dropWhile isWhiteSpace s.
Definition trimEnd (s : jsstring) : jsstring := rev (dropWhile isWhiteSpace (rev s)).

(** [String.prototype.trim] *)
Definition trim (s : jsstring) : jsstring := trimEnd (trimStart s).

Fixpoint eqb (a b : jsstring) : bool :=
  match a, b with
  | [], [] => true
  | x :: a', y :: b' => (x =? y)%N && eqb a' b'
  | _, _ => false
  end.

(** [s.split(sep)] for a one-character separator: never empty. *)
Fixpoint split (sep : char) (s : jsstring) : list jsstring :=
  match s with
  | [] => [[]]
  | c :: s' =>
      if (c =? sep)%N then [] :: split sep s'
      else match split sep s' with
           | [] => [[c]]
           | piece :: rest => (c :: piece) :: rest
           end
  end.

(** [a.join(sep)] *)
Fixpoint join (sep : jsstring) (l : list jsstring) : jsstring :=
  match l with
  | [] => []
  | [x] => x
  | x :: rest => x ++ sep ++ join sep rest
  end.

(** [s.includes(c)] for a one-character needle. *)
Definition includes (c : char) (s : jsstring) : bool := existsb (N.eqb c) s.

(** [s.startsWith(p)] *)
Fixpoint startsWith (s p : jsstring) {struct p} : bool :=
  match p, s with
  | [], _ => true
  | x :: p', y :: s' => (x =? y)%N && startsWith s' p'
  | _ :: _, [] => false
  end.

(** [s.slice(-n)] for an integer [n >= 0]: [-0] is [0], so [slice(-0)] is
    the whole string; otherwise the last [n] code units (all of [s] when it
    is shorter). *)
Definition sliceLast (n : nat) (s : jsstring) : jsstring :=
  if n =? 0 then s else skipn (length s - n) s.

(** [s.slice(0, n)] *)
Definition slicePrefix (n : nat) (s : jsstring) : jsstring := firstn n s.

(** A truthy string is a non-empty one. *)
Definition truthy (s : jsstring) : bool :=
  match s with [] => false | _ => true end.

(** A size or a count as a JavaScript number. *)
Definition num (n : nat) : float :=
  PrimFloat.of_uint63 (Uint63Axioms.of_Z (Z.of_nat n)).

(** [String.prototype.toUpperCase] restricted to Basic Latin letters: it
    agrees with the built-in on strings of ASCII code units. *)
Definition toUpperCaseLatin (s : jsstring) : jsstring :=
  List.map (fun c => if isLower c then (c - 32)%N else c) s.

End JS.

(** ** Regular expressions *)

Module Regex.
Import JS.

Inductive regex : Type :=
| Eps
| Cls (p : char -> bool)        (* one code unit of a class *)
| Seq (r1 r2 : regex)
| Alt (r1 r2 : regex)           (* r1|r2, r1 tried first *)
| Star (r : regex)              (* r*, greedy *)
| Group (i : nat) (r : regex)   (* capturing group number i *)
| Bol (multiline : bool)        (* ^ *)
| Eol (multiline : bool)        (* $ *)
| WordBoundary.                 (* \b *)

(** The matcher state: the number of code units matched so far, the code
    unit before the current position (if any), the input from the current
    position on, and the captures so far. *)
Record mstate := MState {
  pos : N;
  before : option char;
  input : jsstring;
  captures : list (nat * jsstring)
}.

Definition atBol (multiline : bool) (st : mstate) : bool :=
  match before st with
  | None => true
  | Some c => multiline && isLineTerminator c
  end.

Definition atEol (multiline : bool) (st : mstate) : bool :=
  match input st with
  | [] => true
  | c :: _ => multiline && isLineTerminator c
  end.

Definition isWordOpt (o : option char) : bool :=
  match o with Some c => isWord c | None => false end.

Definition atWordBoundary (st : mstate) : bool :=
  xorb (isWordOpt (before st)) (isWordOpt (hd_error (input st))).

Definition consumed (st st' : mstate) : jsstring :=
  firstn (N.to_nat (pos st' - pos st)) (input st).

Definition capture (i : nat) (st st' : mstate) : mstate :=
  MState (pos st') (before st') (input st') ((i, consumed st st') :: captures st').

(** The loop of a greedy [r*]: [m] matches one iteration. An iteration that
    consumes nothing is rejected, so the number of iterations is at most the
    length of the input left, and the input itself serves as fuel. *)
Fixpoint starLoop (m : mstate -> (mstate -> option mstate) -> option mstate)
    (fuel : jsstring) (st : mstate) (k : mstate -> option mstate)
  : option mstate :=
  match fuel with
  | [] => k st
  | _ :: fuel' =>
      match m st (fun st' =>
              if (pos st <? pos st')%N then starLoop m fuel' st' k else None) with
      | Some res => Some res
      | None => k st
      end
  end.

(** The backtracking matcher in continuation-passing style: [k] is what must
    match after [r]; the first success in priority order is returned. *)
Fixpoint rmatch (r : regex) (st : mstate) (k : mstate -> option mstate)
  : option mstate :=
  match r with
  | Eps => k st
  | Cls p =>
      match input st with
      | c :: s' =>
          if p c then k (MState (pos st + 1) (Some c) s' (captures st)) else None
      | [] => None
      end
  | Seq r1 r2 => rmatch r1 st (fun st' => rmatch r2 st' k)
  | Alt r1 r2 =>
      match rmatch r1 st k with
      | Some res => Some res
      | None => rmatch r2 st k
      end
  | Star r1 => starLoop (rmatch r1) (input st) st k
  | Group i r1 => rmatch r1 st (fun st' => k (capture i st st'))
  | Bol m => if atBol m st then k st else None
  | Eol m => if atEol m st then k st else None
  | WordBoundary => if atWordBoundary st then k st else None
  end.

(** One match attempt at the current position. *)
Definition exec (r : regex) (prev : option char) (s : jsstring) : option mstate :=
  rmatch r (MState 0 prev s []) Some.

(** Derived forms. *)
Definition chr (c : char) : regex := Cls (N.eqb c).
Definition plus (r : regex) : regex := Seq r (Star r).
Definition opt (r : regex) : regex := Alt r Eps.

Fixpoint seqs (l : list regex) : regex :=
  match l with
  | [] => Eps
  | [r] => r
  | r :: l' => Seq r (seqs l')
  end.

Fixpoint alts (l : list regex) : regex :=
  match l with
  | [] => Cls (fun _ => false)
  | [r] => r
  | r :: l' => Alt r (alts l')
  end.

(** r{n,} *)
Fixpoint atLeast (n : nat) (r : regex) : regex :=
  match n with
  | 0 => Star r
  | S n' => Seq r (atLeast n' r)
  end.

(** r{0,n} *)
Fixpoint atMost (n : nat) (r : regex) : regex :=
  match n with
  | 0 => Eps
  | S n' => opt (Seq r (atMost n' r))
  end.

(** r{n,m} with n <= m *)
Fixpoint between (n m : nat) (r : regex) : regex :=
  match n with
  | 0 => atMost m r
  | S n' => Seq r (between n' (m - 1) r)
  end.

(** A literal, and a literal under the [i] flag (ASCII letters only). *)
Definition lit (s : String.string) : regex := seqs (List.map chr (str s)).
Arguments lit s%_string_scope.

Definition sameLetter (c d : char) : bool :=
  (c =? d)%N
  || (isLower c && (d =? c - 32)%N)
  || (isUpper c && (d =? c + 32)%N).

Definition lit_i (s : String.string) : regex :=
  seqs (List.map (fun c => Cls (sameLetter c)) (str s)).
Arguments lit_i s%_string_scope.

Definition cls_s : regex := Cls isWhiteSpace.
Definition cls_d : regex := Cls isDigit.
Definition cls_w : regex := Cls isWord.
Definition cls_in (l : list char) : regex := Cls (one_of l).
Definition cls_not (p : char -> bool) : regex := Cls (fun c => negb (p c)).

(** [re.test(s)] for a regex without the [g] flag: the first position,
    from the left, at which [r] matches. *)
Fixpoint search (r : regex) (prev : option char) (s : jsstring) : option mstate :=
  match exec r prev s with
  | Some st => Some st
  | None =>
      match s with
      | [] => None
      | c :: s' => search r (Some c) s'
      end
  end.

Definition test (r : regex) (s : jsstring) : bool :=
  match search r None s with Some _ => true | None => false end.

(** Replacement templates: ["$1 $2"] is [[Ref 1; Lit " "; Ref 2]]. *)
Inductive rtoken := Lit (s : jsstring) | Ref (i : nat).

Fixpoint lookupCapture (i : nat) (caps : list (nat * jsstring)) : jsstring :=
  match caps with
  | [] => []
  | (j, s) :: caps' => if i =? j then s else lookupCapture i caps'
  end.

Definition expand (tpl : list rtoken) (caps : list (nat * jsstring)) : jsstring :=
  List.concat (List.map (fun t => match t with
                                  | Lit s => s
                                  | Ref i => lookupCapture i caps
                                  end) tpl).

(** [s.replace(/r/g, tpl)]: matches are found left to right, each search
    resuming where the previous match ended (one code unit further after an
    empty match). *)
Fixpoint replaceFrom (fuel : nat) (r : regex) (tpl : list rtoken)
    (prev : option char) (s : jsstring) : jsstring :=
  match fuel with
  | 0 => s
  | S fuel' =>
      match exec r prev s with
      | Some st =>
          if (0 <? pos st)%N
          then expand tpl (captures st)
                 ++ replaceFrom fuel' r tpl (before st) (input st)
          else match s with
               | [] => expand tpl (captures st)
               | c :: s' =>
                   expand tpl (captures st)
                     ++ c :: replaceFrom fuel' r tpl (Some c) s'
               end
      | None =>
          match s with
          | [] => []
          | c :: s' => c :: replaceFrom fuel' r tpl (Some c) s'
          end
      end
  end.

Definition replaceAll (r : regex) (tpl : list rtoken) (s : jsstring) : jsstring :=
  replaceFrom (S (length s)) r tpl None s.

(** [s.match(/r/g)] as the list of matched substrings ([null] is the empty
    list). *)
Fixpoint matchFrom (fuel : nat) (r : regex) (prev : option char) (s : jsstring)
  : list jsstring :=
  match fuel with
  | 0 => []
  | S fuel' =>
      match exec r prev s with
      | Some st =>
          let m := firstn (N.to_nat (pos st)) s in
          if (0 <? pos st)%N
          then m :: matchFrom fuel' r (before st) (input st)
          else match s with
               | [] => [m]
               | c :: s' => m :: matchFrom fuel' r (Some c) s'
               end
      | None =>
          match s with
          | [] => []
          | c :: s' => matchFrom fuel' r (Some c) s'
          end
      end
  end.

Definition matchAll (r : regex) (s : jsstring) : list jsstring :=
  matchFrom (S (length s)) r None s.

(** [s.split(/r/)] for a regex without capturing groups: [piece] holds, in
    reverse, the code units since the last separator. *)
Fixpoint splitFrom (fuel : nat) (r : regex) (piece : jsstring)
    (prev : option char) (s : jsstring) : list jsstring :=
  match fuel with
  | 0 => [rev piece ++ s]
  | S fuel' =>
      match s with
      | [] => [rev piece]
      | c :: s' =>
          match exec r prev s with
          | Some st =>
              if (0 <? pos st)%N
              then rev piece :: splitFrom fuel' r [] (before st) (input st)
              else match piece with
                   | [] => splitFrom fuel' r [c] (Some c) s'
                   | _ :: _ => rev piece :: splitFrom fuel' r [] prev s
                   end
          | None => splitFrom fuel' r (c :: piece) (Some c) s'
          end
      end
  end.

Definition splitRe (r : regex) (s : jsstring) : list jsstring :=
  match s with
  | [] => match exec r None [] with Some _ => [] | None => [[]] end
  | _ :: _ => splitFrom (2 * length s + 2) r [] None s
  end.

End Regex.

(** ** The preprocessor *)

Module Preprocessor.
Import JS Regex.

Definition code (a : ascii) : char := N_of_ascii a.

(** Boilerplate and glyph code points of the source's character classes. *)
Definition BULLET : char := 0x2022%N.

Definition bulletGlyphs : list char :=
  [0x2022; 0x25CF; 0x25CB; 0x25E6; 0x25AA; 0x25AB;
   0x25A0; 0x25A1; 0x2605; 0x2606; 0x25BA; 0x25B8]%N.

Definition dashGlyphs : list char := [45; 0x2013; 0x2014]%N.

Definition normalizeWhitespace (text : jsstring) : jsstring :=
  let t1 := replaceAll (lit (String.String "013" (String.String "010" String.EmptyString)))
                       [Lit [LF]] text in                     (* /\r\n/g *)
  let t2 := replaceAll (chr CR) [Lit [LF]] t1 in              (* /\r/g *)
  let t3 := replaceAll (plus (chr SP)) [Lit [SP]] t2 in       (* / +/g *)
  let t4 := replaceAll (plus (chr TAB)) [Lit [TAB]] t3 in     (* /\t+/g *)
  replaceAll (atLeast 4 (chr LF)) [Lit [LF; LF; LF]] t4.      (* /\n{4,}/g *)

Definition zeroWidth (c : char) : bool :=
  in_range 0x200B 0x200D c || (c =? 0xFEFF)%N.

Definition removePDFArtifacts (text : jsstring) : jsstring :=
  let c1 := replaceAll (Cls zeroWidth) [] text in             (* /[\u200B-\u200D\uFEFF]/g *)
  let c2 := replaceAll (chr 0xAD%N) [] c1 in                  (* /\u00AD/g *)
  let c3 := replaceAll                                        (* /(\w)-\s+(\w)/g *)
              (seqs [Group 1 cls_w; lit "-"; plus cls_s; Group 2 cls_w])
              [Ref 1; Ref 2] c2 in
  let c4 := replaceAll                                        (* /([a-z])([A-Z])/g *)
              (Seq (Group 1 (Cls isLower)) (Group 2 (Cls isUpper)))
              [Ref 1; Lit [SP]; Ref 2] c3 in
  replaceAll (chr FF) [Lit [LF; LF]] c4.                      (* /\f/g *)

(** The [Map<string, number>] of trimmed-line frequencies, and the loop
    body that fills it. *)
Definition countLine (lineFrequency : gmap (list N) nat) (line : jsstring)
  : gmap (list N) nat :=
  let trimmed := trim line in
  if (5 <? length trimmed) && (length trimmed <? 100)
  then <[trimmed := default 0 (lineFrequency !! trimmed) + 1]> lineFrequency
  else lineFrequency.

Definition lineFrequencyOf (lines : list jsstring) : gmap (list N) nat :=
  fold_left countLine lines ∅.

(** The [Set<string>] of lines counted more than twice. *)
Definition repeatedLinesOf (lineFrequency : gmap (list N) nat) : gset (list N) :=
  map_fold (fun line count repeatedLines =>
              if 2 <? count then {[line]} ∪ repeatedLines else repeatedLines)
           ∅ lineFrequency.

Definition removeRepeatedSections (text : jsstring) : jsstring :=
  let lines := split LF text in
  let repeatedLines := repeatedLinesOf (lineFrequencyOf lines) in
  if 0 <? base.size repeatedLines
  then join [LF]
         (List.filter (fun line => negb (bool_decide (trim line ∈ repeatedLines)))
                      lines)
  else text.

Definition normalizeLists (text : jsstring) : jsstring :=
  let t1 := replaceAll                       (* /^[\s]*[•●○◦▪▫■□★☆►▸]+[\s]+/gm *)
              (seqs [Bol true; Star cls_s; plus (cls_in bulletGlyphs); plus cls_s])
              [Lit [BULLET; SP]] text in
  let t2 := replaceAll                       (* /^[\s]*[-–—]+[\s]+/gm *)
              (seqs [Bol true; Star cls_s; plus (cls_in dashGlyphs); plus cls_s])
              [Lit [BULLET; SP]] t1 in
  replaceAll                                 (* /^[\s]*(\d+)[\.)]\s+/gm *)
    (seqs [Bol true; Star cls_s; Group 1 (plus cls_d); cls_in (str ".)"); plus cls_s])
    [Ref 1; Lit (str ". ")] t2.

(** /^(page\s+)?\d+(\s*(\/|of)\s*\d+)?$/i *)
Definition pageNumberLine : regex :=
  seqs [Bol false;
        opt (Group 1 (Seq (lit_i "page") (plus cls_s)));
        plus cls_d;
        opt (Group 2 (seqs [Star cls_s; Group 3 (Alt (lit "/") (lit_i "of"));
                            Star cls_s; plus cls_d]));
        Eol false].

(** /^\d{1,3}$/ *)
Definition shortNumberLine : regex :=
  seqs [Bol false; between 1 3 cls_d; Eol false].

Definition removePageNumbers (text : jsstring) : jsstring :=
  let lines := split LF text in
  join [LF]
    (List.filter
       (fun line =>
          let trimmed := trim line in
          if test pageNumberLine trimmed then false
          else if test shortNumberLine trimmed then false
          else true)
       lines).

(** [\w.-] *)
Definition isAddressChar (c : char) : bool :=
  isWord c || (c =? 46)%N || (c =? 45)%N.

(** /^https?:\/\/[^\s]+$/ *)
Definition urlLine : regex :=
  seqs [Bol false; lit "http"; opt (lit "s"); lit "://";
        plus (cls_not isWhiteSpace); Eol false].

(** /^[\w.-]+@[\w.-]+\.\w+$/ *)
Definition emailLine : regex :=
  seqs [Bol false; plus (Cls isAddressChar); lit "@"; plus (Cls isAddressChar);
        lit "."; plus cls_w; Eol false].

Definition removeStandaloneLinks (text : jsstring) : jsstring :=
  let lines := split LF text in
  join [LF]
    (List.filter
       (fun line =>
          let trimmed := trim line in
          if test urlLine trimmed then false
          else if test emailLine trimmed then false
          else true)
       lines).

Definition fixOCRErrors (text : jsstring) : jsstring :=
  let t1 := replaceAll (seqs [WordBoundary; lit "l"; WordBoundary])  (* /\bl\b/g *)
              [Lit (str "I")] text in
  let t2 := replaceAll (seqs [WordBoundary; lit "0"; WordBoundary])  (* /\b0\b/g *)
              [Lit (str "O")] t1 in
  let t3 := replaceAll                                   (* /([a-z])1([a-z])/g *)
              (seqs [Group 1 (Cls isLower); lit "1"; Group 2 (Cls isLower)])
              [Ref 1; Lit (str "l"); Ref 2] t2 in
  let t4 := replaceAll (seqs [Group 1 cls_w; lit "1"; cls_s])        (* /(\w)1\s/g *)
              [Ref 1; Lit (str "l ")] t3 in
  replaceAll (seqs [cls_s; lit "1"; Group 1 cls_w])                  (* /\s1(\w)/g *)
    [Lit (str " l"); Ref 1] t4.

Module Options.
(** Every option may be left out ([None] is [undefined]). *)
Record t := mk {
  removeRepeated : option bool;
  removePageNumbers : option bool;
  fixOCR : option bool;
  removeLinks : option bool
}.
(** The default argument [{}]. *)
Definition empty : t := mk None None None None.
End Options.

(** [o !== false] and [o === true] *)
Definition notFalse (o : option bool) : bool :=
  match o with Some false => false | _ => true end.
Definition isTrue (o : option bool) : bool :=
  match o with Some true => true | _ => false end.

Definition preprocessText (text : jsstring) (options : Options.t) : jsstring :=
  let p1 := normalizeWhitespace text in
  let p2 := removePDFArtifacts p1 in
  let p3 := if notFalse (Options.removePageNumbers options)
            then removePageNumbers p2 else p2 in
  let p4 := if notFalse (Options.removeLinks options)
            then removeStandaloneLinks p3 else p3 in
  let p5 := if notFalse (Options.removeRepeated options)
            then removeRepeatedSections p4 else p4 in
  let p6 := normalizeLists p5 in
  let p7 := if isTrue (Options.fixOCR options) then fixOCRErrors p6 else p6 in
  trim (normalizeWhitespace p7).

Definition quickClean (text : jsstring) : jsstring :=
  normalizeWhitespace (removePDFArtifacts text).

End Preprocessor.

(** ** Types (types.ts) *)

Inductive ContentType := TextT | TableT | ListT | HeadingT.

Inductive ConfidenceLevel := High | Medium | Low.

Record ChunkMetadata := {
  chunkIndex : nat;
  pageNumber : option nat;
  contentType : ContentType;
  confidence : ConfidenceLevel;
  hasOverlap : bool;
  originalLength : nat
}.

Record Chunk := {
  content : jsstring;
  metadata : ChunkMetadata
}.

Module ContentBlock.
Record t := mk {
  text : jsstring;
  type : ContentType;
  confidence : float;
  startLine : nat;
  endLine : nat
}.
End ContentBlock.

Record ChunkingConfig := {
  maxChunkSize : nat;
  overlapSize : nat;
  tableMaxSize : nat;
  minChunkSize : nat
}.

Definition DEFAULT_CONFIG : ChunkingConfig :=
  {| maxChunkSize := 1000; overlapSize := 200; tableMaxSize := 2000;
     minChunkSize := 100 |}.

Definition ContentType_eqb (a b : ContentType) : bool :=
  match a, b with
  | TextT, TextT | TableT, TableT | ListT, ListT | HeadingT, HeadingT => true
  | _, _ => false
  end.

(** ** The detectors *)

Module Detectors.
Import JS Regex Preprocessor.

Local Open Scope float_scope.

(** [text.split("\n").filter((l) => l.trim().length > 0)] *)
Definition nonBlankLines (text : jsstring) : list jsstring :=
  List.filter (fun l => (0 <? length (trim l))%nat) (split LF text).

Definition countLines (p : jsstring -> bool) (lines : list jsstring) : nat :=
  length (List.filter p lines).

Record Detection := { detected : bool; score : float }.

(** [a / b > x] on counts *)
Definition ratioAbove (a b : nat) (x : float) : bool := x <? num a / num b.

Definition detectTable (text : jsstring) : Detection :=
  let lines := nonBlankLines text in
  if (length lines <? 2)%nat then {| detected := false; score := 0 |}
  else
    let n := length lines in
    let pipeLines := countLines (includes (code "|")) lines in
    let s1 := if (3 <=? pipeLines)%nat
              then (30 + (if ratioAbove pipeLines n 0.7 then 20 else 0))%nat
              else 0%nat in
    let tabLines := countLines (includes TAB) lines in
    let s2 := if (3 <=? tabLines)%nat then 20%nat else 0%nat in
    let spacedLines := countLines (test (atLeast 3 cls_s)) lines in   (* /\s{3,}/ *)
    let s3 := if (3 <=? spacedLines)%nat
              then (15 + (if ratioAbove spacedLines n 0.6 then 10 else 0))%nat
              else 0%nat in
    let avgLength :=
      fold_left (fun sum l => sum + num (length l)) lines 0 / num n in
    let variance :=
      fold_left (fun sum l => sum + abs (num (length l) - avgLength)) lines 0
      / num n in
    let s4 := if variance <? avgLength * 0.3 then 15%nat else 0%nat in
    let numericLines := countLines (test (plus cls_d)) lines in       (* /\d+/ *)
    let s5 := if ratioAbove numericLines n 0.5 then 10%nat else 0%nat in
    let maxScore := (50 + 20 + 25 + 15 + 10)%nat in
    let confidence := num (s1 + s2 + s3 + s4 + s5) / num maxScore in
    {| detected := 0.4 <? confidence; score := confidence |}.

(** /^\s*\d+[\.)]\s+/ *)
Definition numberedPattern : regex :=
  seqs [Bol false; Star cls_s; plus cls_d; cls_in (str ".)"); plus cls_s].

(** /^\s*[•\-*○►▪]\s+/ *)
Definition bulletPattern : regex :=
  seqs [Bol false; Star cls_s;
        cls_in [0x2022; 45; 42; 0x25CB; 0x25BA; 0x25AA]%N; plus cls_s].

Definition detectList (text : jsstring) : Detection :=
  let lines := nonBlankLines text in
  if (length lines <? 2)%nat then {| detected := false; score := 0 |}
  else
    let n := length lines in
    let numberedLines := countLines (test numberedPattern) lines in
    let s1 := if (2 <=? numberedLines)%nat
              then (40 + (if ratioAbove numberedLines n 0.7 then 20 else 0))%nat
              else 0%nat in
    let bulletLines := countLines (test bulletPattern) lines in
    let s2 := if (2 <=? bulletLines)%nat
              then (30 + (if ratioAbove bulletLines n 0.7 then 15 else 0))%nat
              else 0%nat in
    let indentedLines :=
      countLines (test (Seq (Bol false) (atLeast 2 cls_s))) lines in  (* /^\s{2,}/ *)
    let s3 := if ratioAbove indentedLines n 0.5 then 10%nat else 0%nat in
    let maxScore := (60 + 45 + 10)%nat in
    let confidence := num (s1 + s2 + s3) / num maxScore in
    {| detected := 0.35 <? confidence; score := confidence |}.

(** /^(summary|skills|experience|education|projects|certifications|about|overview|background|qualifications)/i *)
Definition headingKeywords : regex :=
  Seq (Bol false)
      (Group 1 (alts (List.map lit_i
         ["summary"; "skills"; "experience"; "education"; "projects";
          "certifications"; "about"; "overview"; "background";
          "qualifications"]%string))).

Section Casing.
(** [String.prototype.toUpperCase], whose Unicode tables are not part of the
    repository: the development holds for every such function. *)
Variable toUpperCase : jsstring -> jsstring.

Definition detectHeading (text : jsstring) : Detection :=
  let trimmed := trim text in
  let lines := nonBlankLines trimmed in
  match lines with
  | [line] =>
      let s1 := if (length line <? 60)%nat
                then (20 + (if (length line <? 40)%nat then 10 else 0))%nat
                else 0%nat in
      let isAllCaps :=
        JS.eqb line (toUpperCase line) && test (Cls isUpper) line in
      let isTitleCase :=
        test (seqs [Bol false; Cls isUpper; Cls isLower]) line in     (* /^[A-Z][a-z]/ *)
      let s2 := if isAllCaps then 30%nat
                else if isTitleCase then 20%nat else 0%nat in
      let s3 := if negb (test (Seq (cls_in (str ".!?")) (Eol false)) line)
                then 15%nat else 0%nat in                             (* /[.!?]$/ *)
      let s4 := if test headingKeywords line then 25%nat else 0%nat in
      let s5 :=
        if test (seqs [Bol false; between 1 3 (cls_in (str "#*")); cls_s]) line
           || test (lit "**") line                   (* /^[#*]{1,3}\s/, /\*\*/ *)
        then 20%nat else 0%nat in
      let maxScore := (30 + 30 + 15 + 25 + 20)%nat in
      let confidence := num (s1 + s2 + s3 + s4 + s5) / num maxScore in
      {| detected := 0.4 <? confidence; score := confidence |}
  | _ => {| detected := false; score := 0 |}
  end.

(** /^(page\s+)?\d+(\s*\/\s*\d+)?$/i *)
Definition barePageNumber : regex :=
  seqs [Bol false;
        opt (Group 1 (Seq (lit_i "page") (plus cls_s)));
        plus cls_d;
        opt (Group 2 (seqs [Star cls_s; lit "/"; Star cls_s; plus cls_d]));
        Eol false].

(** /^(confidential|draft|proprietary|copyright|©|\d{4})/i *)
Definition commonPatterns : regex :=
  Seq (Bol false)
      (Group 1 (alts [lit_i "confidential"; lit_i "draft"; lit_i "proprietary";
                      lit_i "copyright"; chr 0xA9%N; between 4 4 cls_d])).

(** /^(https?:\/\/|www\.|[\w.-]+@[\w.-]+\.\w+)$/i *)
Definition bareLink : regex :=
  seqs [Bol false;
        Group 1 (alts [seqs [lit_i "http"; opt (lit_i "s"); lit "://"];
                       Seq (lit_i "www") (lit ".");
                       seqs [plus (Cls isAddressChar); lit "@";
                             plus (Cls isAddressChar); lit "."; plus cls_w]]);
        Eol false].

Definition detectHeaderFooter (text : jsstring) : bool :=
  let trimmed := trim text in
  if test barePageNumber trimmed then true
  else if (length trimmed <? 30)%nat && (0 <? length trimmed)%nat
          && test commonPatterns trimmed then true
  else if test bareLink trimmed then true
  else false.

Definition analyzeContentBlock (text : jsstring) (startLine endLine : nat)
  : ContentBlock.t :=
  if detectHeaderFooter text
  then ContentBlock.mk text TextT 0 startLine endLine
  else
    let headingResult := detectHeading text in
    if detected headingResult
    then ContentBlock.mk text HeadingT (score headingResult) startLine endLine
    else
      let tableResult := detectTable text in
      if detected tableResult
      then ContentBlock.mk text TableT (score tableResult) startLine endLine
      else
        let listResult := detectList text in
        if detected listResult
        then ContentBlock.mk text ListT (score listResult) startLine endLine
        else ContentBlock.mk text TextT 1 startLine endLine.

(** The loop of [segmentIntoBlocks] over the paragraphs, from line
    [lineNumber] on. *)
Fixpoint segmentParagraphs (paragraphs : list jsstring) (lineNumber : nat)
  : list ContentBlock.t :=
  match paragraphs with
  | [] => []
  | paragraph :: rest =>
      let trimmed := trim paragraph in
      if truthy trimmed then
        let lines := length (split LF trimmed) in
        let block :=
          analyzeContentBlock trimmed lineNumber (lineNumber + lines - 1) in
        let blocks := segmentParagraphs rest (lineNumber + lines + 2) in
        if 0 <? ContentBlock.confidence block then block :: blocks else blocks
      else segmentParagraphs rest lineNumber
  end.

Definition segmentIntoBlocks (text : jsstring) : list ContentBlock.t :=
  let paragraphs := splitRe (Seq (chr LF) (plus (chr LF))) text in    (* /\n\n+/ *)
  segmentParagraphs paragraphs 0.

End Casing.

End Detectors.

(** ** Exceptions *)

Inductive exn := TypeError | RangeError.

Inductive result (A : Type) : Type :=
| Ok (a : A)
| Throw (e : exn).
Arguments Ok {A} a.
Arguments Throw {A} e.

Definition bind {A B : Type} (m : result A) (f : A -> result B) : result B :=
  match m with
  | Ok a => f a
  | Throw e => Throw e
  end.

Notation "'do' x <- m ; k" := (bind m (fun x => k))
  (at level 10, x name, m at level 100, k at level 200).

(** ** The engine *)

(** What the JavaScript engine brings and the repository does not fix: the
    Unicode case mapping of [String.prototype.toUpperCase], and the number
    of arguments the engine accepts in one call. The latter bounds the
    arrays that can be spread into a call, as in [push(...chunks)]: a longer
    array makes the call raise a [RangeError]. Every engine accepts a call
    with one argument, so the bound is positive. *)
Record Engine := {
  toUpperCase : jsstring -> jsstring;
  maxArguments : positive
}.

(** [array.push(...items)]: every item is an argument of the call. *)
Definition pushSpread {A : Type} (engine : Engine) (array items : list A)
  : result (list A) :=
  if length items <=? Pos.to_nat (maxArguments engine)
  then Ok (array ++ items)
  else Throw RangeError.

(** ** The chunker *)

Module Chunker.
Import JS Regex Preprocessor Detectors.

Definition setHasOverlap (b : bool) (m : ChunkMetadata) : ChunkMetadata :=
  {| chunkIndex := chunkIndex m; pageNumber := pageNumber m;
     contentType := contentType m; confidence := confidence m;
     hasOverlap := b; originalLength := originalLength m |}.

Definition setPageNumber (p : nat) (c : Chunk) : Chunk :=
  {| content := content c;
     metadata :=
       {| chunkIndex := chunkIndex (metadata c); pageNumber := Some p;
          contentType := contentType (metadata c);
          confidence := confidence (metadata c);
          hasOverlap := hasOverlap (metadata c);
          originalLength := originalLength (metadata c) |} |}.

Definition setChunkIndex (i : nat) (c : Chunk) : Chunk :=
  {| content := content c;
     metadata :=
       {| chunkIndex := i; pageNumber := pageNumber (metadata c);
          contentType := contentType (metadata c);
          confidence := confidence (metadata c);
          hasOverlap := hasOverlap (metadata c);
          originalLength := originalLength (metadata c) |} |}.

(** The body of the loop of [addOverlap] for [i > 0]: [prevChunk] is
    [chunks[i - 1]], an element of the input array. *)
Definition overlapChunk (overlapSize : nat) (prevChunk chunk : Chunk) : Chunk :=
  let overlapText := sliceLast overlapSize (content prevChunk) in
  if negb (startsWith (content chunk) (slicePrefix 50 overlapText))
  then {| content := overlapText ++ [LF; LF] ++ content chunk;
          metadata := setHasOverlap true (metadata chunk) |}
  else {| content := content chunk;
          metadata := setHasOverlap false (metadata chunk) |}.

Fixpoint overlapFrom (overlapSize : nat) (prevChunk : Chunk) (rest : list Chunk)
  : list Chunk :=
  match rest with
  | [] => []
  | chunk :: rest' =>
      overlapChunk overlapSize prevChunk chunk :: overlapFrom overlapSize chunk rest'
  end.

Definition addOverlap (chunks : list Chunk) (overlapSize : nat) : list Chunk :=
  if (length chunks <=? 1) || (overlapSize =? 0) then chunks
  else match chunks with
       | [] => []
       | first :: rest =>
           {| content := content first;
              metadata := setHasOverlap false (metadata first) |}
           :: overlapFrom overlapSize first rest
       end.

(** A chunk as the splitters build it: no page number, no overlap, the
    content's own length as [originalLength]. *)
Definition newChunk (text : jsstring) (index : nat) (ty : ContentType)
    (conf : ConfidenceLevel) : Chunk :=
  {| content := text;
     metadata := {| chunkIndex := index; pageNumber := None;
                    contentType := ty; confidence := conf;
                    hasOverlap := false; originalLength := length text |} |}.

(** The local variables of the splitting loops. *)
Record SplitState := {
  chunks : list Chunk;
  currentChunk : jsstring;
  currentIndex : nat
}.

(** The header lines of [chunkTableByRows]. The condition is
    [(lines.length > 1 && lines[1].includes("-")) || lines[1].includes("=")]:
    on a one-line table the right operand reads [lines[1]], which is
    [undefined], and [includes] throws. *)
Definition tableHeaderLines (lines : list jsstring) : result (list jsstring) :=
  match lines with
  | [] => Ok []
  | l0 :: [] => Throw TypeError
  | l0 :: l1 :: _ =>
      if includes (code "-") l1 || includes (code "=") l1
      then Ok [l0; l1] else Ok [l0]
  end.

Definition tableStep (config : ChunkingConfig) (header : jsstring)
    (st : SplitState) (line : jsstring) : SplitState :=
  let potentialChunk := currentChunk st ++ [LF] ++ line in
  if (tableMaxSize config <? length potentialChunk)
     && negb (JS.eqb (currentChunk st) header)
  then {| chunks := chunks st
                    ++ [newChunk (currentChunk st) (currentIndex st) TableT High];
          currentChunk := header ++ [LF] ++ line;
          currentIndex := S (currentIndex st) |}
  else {| chunks := chunks st; currentChunk := potentialChunk;
          currentIndex := currentIndex st |}.

Definition chunkTableByRows (block : ContentBlock.t) (startIndex : nat)
    (config : ChunkingConfig) : result (list Chunk) :=
  let lines := split LF (ContentBlock.text block) in
  do headerLines <- tableHeaderLines lines;
  let dataLines := skipn (length headerLines) lines in
  let header := join [LF] headerLines in
  let st := fold_left (tableStep config header) dataLines
              {| chunks := []; currentChunk := header;
                 currentIndex := startIndex |} in
  if length header <? length (currentChunk st)
  then Ok (chunks st ++ [newChunk (currentChunk st) (currentIndex st) TableT High])
  else Ok (chunks st).

Definition listStep (config : ChunkingConfig) (st : SplitState) (line : jsstring)
  : SplitState :=
  let trimmed := trim line in
  if negb (truthy trimmed) then st
  else
    let potentialChunk :=
      currentChunk st ++ (if truthy (currentChunk st) then [LF] else []) ++ line in
    if (maxChunkSize config <? length potentialChunk)
       && (0 <? length (currentChunk st))
    then {| chunks := chunks st
                      ++ [newChunk (currentChunk st) (currentIndex st) ListT High];
            currentChunk := line;
            currentIndex := S (currentIndex st) |}
    else {| chunks := chunks st; currentChunk := potentialChunk;
            currentIndex := currentIndex st |}.

Definition chunkListByItems (block : ContentBlock.t) (startIndex : nat)
    (config : ChunkingConfig) : list Chunk :=
  let lines := split LF (ContentBlock.text block) in
  let st := fold_left (listStep config) lines
              {| chunks := []; currentChunk := []; currentIndex := startIndex |} in
  if truthy (currentChunk st)
  then chunks st ++ [newChunk (currentChunk st) (currentIndex st) ListT High]
  else chunks st.

(** [block.confidence > 0.7 ? "high" : "medium"] *)
Definition splitConfidence (block : ContentBlock.t) : ConfidenceLevel :=
  if (0.7 <? ContentBlock.confidence block)%float then High else Medium.

(** [block.text.match(/[^.!?]+[.!?]+/g) || [block.text]] *)
Definition sentencesOf (text : jsstring) : list jsstring :=
  match matchAll (Seq (plus (cls_not (one_of (str ".!?"))))
                      (plus (cls_in (str ".!?")))) text with
  | [] => [text]
  | sentences => sentences
  end.

Definition textStep (config : ChunkingConfig) (block : ContentBlock.t)
    (st : SplitState) (sentence : jsstring) : SplitState :=
  let trimmed := trim sentence in
  if negb (truthy trimmed) then st
  else
    let potentialChunk :=
      currentChunk st ++ (if truthy (currentChunk st) then [SP] else []) ++ trimmed in
    if (maxChunkSize config <? length potentialChunk)
       && (minChunkSize config <=? length (currentChunk st))
    then {| chunks := chunks st
                      ++ [newChunk (currentChunk st) (currentIndex st)
                                   (ContentBlock.type block) (splitConfidence block)];
            currentChunk := trimmed;
            currentIndex := S (currentIndex st) |}
    else {| chunks := chunks st; currentChunk := potentialChunk;
            currentIndex := currentIndex st |}.

(** [lastChunk.content += " " + currentChunk;
     lastChunk.metadata.originalLength = lastChunk.content.length]
    on the last element of [chunks]. *)
Definition appendFragment (fragment : jsstring) (lastChunk : Chunk) : Chunk :=
  let merged := content lastChunk ++ [SP] ++ fragment in
  {| content := merged;
     metadata :=
       {| chunkIndex := chunkIndex (metadata lastChunk);
          pageNumber := pageNumber (metadata lastChunk);
          contentType := contentType (metadata lastChunk);
          confidence := confidence (metadata lastChunk);
          hasOverlap := hasOverlap (metadata lastChunk);
          originalLength := length merged |} |}.

Fixpoint updateLast (f : Chunk -> Chunk) (l : list Chunk) : list Chunk :=
  match l with
  | [] => []
  | [c] => [f c]
  | c :: l' => c :: updateLast f l'
  end.

(** The loop of [chunkTextBySentences] over the sentences. *)
Definition textLoop (block : ContentBlock.t) (startIndex : nat)
    (config : ChunkingConfig) : SplitState :=
  let sentences := sentencesOf (ContentBlock.text block) in
  fold_left (textStep config block) sentences
    {| chunks := []; currentChunk := []; currentIndex := startIndex |}.

Definition chunkTextBySentences (block : ContentBlock.t) (startIndex : nat)
    (config : ChunkingConfig) : list Chunk :=
  let st := textLoop block startIndex config in
  let current := currentChunk st in
  if truthy current && (minChunkSize config <=? length current)
  then chunks st ++ [newChunk current (currentIndex st)
                              (ContentBlock.type block) (splitConfidence block)]
  else if truthy current && (0 <? length (chunks st))
  then updateLast (appendFragment current) (chunks st)
  else if truthy current
  then chunks st ++ [newChunk current (currentIndex st)
                              (ContentBlock.type block) Low]
  else chunks st.

(** [c > 0.7 ? "high" : c > 0.4 ? "medium" : "low"] *)
Definition fitConfidence (c : float) : ConfidenceLevel :=
  if (0.7 <? c)%float then High
  else if (0.4 <? c)%float then Medium else Low.

Definition chunkBlock (block : ContentBlock.t) (chunkIndex : nat)
    (config : ChunkingConfig) : result (list Chunk) :=
  let maxSize :=
    if ContentType_eqb (ContentBlock.type block) TableT
    then tableMaxSize config else maxChunkSize config in
  if length (ContentBlock.text block) <=? maxSize
  then Ok [newChunk (ContentBlock.text block) chunkIndex (ContentBlock.type block)
                    (fitConfidence (ContentBlock.confidence block))]
  else match ContentBlock.type block with
       | TableT => chunkTableByRows block chunkIndex config
       | ListT => Ok (chunkListByItems block chunkIndex config)
       | _ => Ok (chunkTextBySentences block chunkIndex config)
       end.

(** Step 3 of [semanticChunk]: the loop over the blocks, with [allChunks]
    and [chunkIndex] as they stand before the block. *)
Fixpoint chunkBlocks (engine : Engine) (blocks : list ContentBlock.t)
    (pageNumber : option nat) (config : ChunkingConfig) (allChunks : list Chunk)
    (chunkIndex : nat) : result (list Chunk) :=
  match blocks with
  | [] => Ok allChunks
  | block :: rest =>
      do blockChunks <- chunkBlock block chunkIndex config;
      let stamped := match pageNumber with
                     | Some p => List.map (setPageNumber p) blockChunks
                     | None => blockChunks
                     end in
      do pushed <- pushSpread engine allChunks stamped;
      chunkBlocks engine rest pageNumber config pushed
                  (chunkIndex + length blockChunks)
  end.

(** The options [semanticChunk] passes to the preprocessor. *)
Definition chunkerOptions : Options.t :=
  Options.mk (Some true) (Some true) (Some false) (Some false).

(** Step 5: [chunk.content.trim().length >= config.minChunkSize] *)
Definition bigEnough (config : ChunkingConfig) (chunk : Chunk) : bool :=
  minChunkSize config <=? length (trim (content chunk)).

Section OnEngine.
Variable engine : Engine.

(** Steps 1 and 2: the blocks of the cleaned text. *)
Definition blocksOf (text : jsstring) : list ContentBlock.t :=
  segmentIntoBlocks (toUpperCase engine) (preprocessText text chunkerOptions).

Definition semanticChunk (text : jsstring) (pageNumber : option nat)
    (config : ChunkingConfig) : result (list Chunk) :=
  let blocks := blocksOf text in
  if length blocks =? 0 then Ok []
  else
    do allChunks <- chunkBlocks engine blocks pageNumber config [] 0;
    let chunksWithOverlap := addOverlap allChunks (overlapSize config) in
    Ok (List.filter (bigEnough config) chunksWithOverlap).

(** The loop of [semanticChunkMultiPage] over the pages. *)
Fixpoint chunkPages (pages : list (jsstring * nat)) (config : ChunkingConfig)
    (allChunks : list Chunk) : result (list Chunk) :=
  match pages with
  | [] => Ok allChunks
  | (text, pageNumber) :: rest =>
      do pageChunks <- semanticChunk text (Some pageNumber) config;
      do pushed <- pushSpread engine allChunks pageChunks;
      chunkPages rest config pushed
  end.

Fixpoint renumberFrom (index : nat) (l : list Chunk) : list Chunk :=
  match l with
  | [] => []
  | c :: l' => setChunkIndex index c :: renumberFrom (S index) l'
  end.

Definition semanticChunkMultiPage (pages : list (jsstring * nat))
    (config : ChunkingConfig) : result (list Chunk) :=
  do allChunks <- chunkPages pages config [];
  Ok (renumberFrom 0 allChunks).

End OnEngine.

End Chunker.

(** ** The properties, as the specification words them *)

Module Spec.
Import JS Regex Preprocessor Detectors Chunker.

Definition idx (c : Chunk) : nat := chunkIndex (metadata c).

(** [s'] is what is left of [s] after some prefix. *)
Definition Suffix (s' s : jsstring) : Prop := exists p, s = p ++ s'.

(** [st'] is a state the matcher reaches from [st]: it has consumed a
    prefix of the input, and [pos] has counted it. *)
Definition Tracks (st st' : mstate) : Prop :=
  exists p, input st = p ++ input st'
            /\ pos st' = (pos st + N.of_nat (length p))%N.


(** Whatever a match hands to its continuation is a state reached from the
    one it started in. *)
Definition Sound (m : mstate -> (mstate -> option mstate) -> option mstate) : Prop :=
  forall st k res,
    m st k = Some res ->
    exists st', Tracks st st' /\ k st' = Some res.

(** A match depends on its continuation at the states it can reach only. *)
Definition Extensional (m : mstate -> (mstate -> option mstate) -> option mstate)
  : Prop :=
  forall st k1 k2,
    (forall st', Tracks st st' -> k1 st' = k2 st') -> m st k1 = m st k2.

(** [Needs P r]: every match of [r] goes through a class that holds no code
    unit satisfying [P], so [r] matches nothing in a string of such units. *)
Fixpoint Needs (P : char -> Prop) (r : regex) : Prop :=
  match r with
  | Cls p => forall c, P c -> p c = false
  | Seq r1 r2 => Needs P r1 \/ Needs P r2
  | Alt r1 r2 => Needs P r1 /\ Needs P r2
  | Group _ r1 => Needs P r1
  | _ => False
  end.


(** The length of the run of [c] at the head of [s]. *)
Fixpoint runLength (c : char) (s : jsstring) : nat :=
  match s with
  | x :: s' => if (c =? x)%N then S (runLength c s') else 0
  | [] => 0
  end.

(** What [s.replace(/c{n,}/g, m copies of c)] does, read off the string:
    a run of at least [n] is replaced by [m] of them, anything else is
    copied. *)
Fixpoint collapseFrom (fuel : nat) (c : char) (n m : nat) (s : jsstring)
  : jsstring :=
  match fuel with
  | 0 => s
  | S fuel' =>
      match s with
      | [] => []
      | x :: s' =>
          if n <=? runLength c s
          then repeat c m ++ collapseFrom fuel' c n m (skipn (runLength c s) s)
          else x :: collapseFrom fuel' c n m s'
      end
  end.

(** No run of [n] or more [c] anywhere in [s]. *)
Fixpoint noRun (c : char) (n : nat) (s : jsstring) : Prop :=
  match s with
  | [] => True
  | _ :: s' => runLength c s < n /\ noRun c n s'
  end.

(** The state after [r] more code units [c] were matched. *)
Definition advance (c : char) (r : nat) (st : mstate) : mstate :=
  MState (pos st + N.of_nat r)
         (match r with 0 => before st | S _ => Some c end)
         (skipn r (input st)) (captures st).

(** White-space-only strings (the empty string is one). *)
Definition Blank (s : jsstring) : Prop := Forall (fun c => isWhiteSpace c = true) s.

(** A table block that [chunkTableByRows] can take: it has a second line. *)
Definition TableReady (block : ContentBlock.t) : Prop :=
  ContentBlock.type block = TableT ->
  2 <= length (split LF (ContentBlock.text block)).

(** Index contiguity: the first index is [base] and every index is its
    predecessor's plus one. *)
Fixpoint IndexContiguous (base : nat) (l : list Chunk) : Prop :=
  match l with
  | [] => True
  | c :: l' => idx c = base /\ IndexContiguous (S base) l'
  end.

(** Strictly increasing indices. *)
Definition IndexIncreasing (l : list Chunk) : Prop :=
  forall i j ci cj,
    i < j -> nth_error l i = Some ci -> nth_error l j = Some cj ->
    idx ci < idx cj.

(** A list whose indices increase strictly, all at least [lo]. *)
Fixpoint increasingFrom (lo : nat) (l : list Chunk) : Prop :=
  match l with
  | [] => True
  | c :: l' => lo <= idx c /\ increasingFrom (S (idx c)) l'
  end.


(** The last [n] code units of [s] (all of [s] when it is shorter). *)
Definition lastChars (n : nat) (s : jsstring) : jsstring :=
  skipn (length s - n) s.

(** The header of a table: its first line, and its second line too when
    that line contains '-' or '='. *)
Definition headerOf (lines : list jsstring) : jsstring :=
  match lines with
  | [] => []
  | [l0] => l0
  | l0 :: l1 :: _ =>
      if includes (code "-") l1 || includes (code "=") l1
      then l0 ++ [LF] ++ l1 else l0
  end.

(** The table loop: every chunk closed so far, and the running chunk once a
    row was appended, is the header, a line break and rows. *)
Definition HeaderThenRows (header s : jsstring) : Prop :=
  exists rows, s = header ++ LF :: rows.

Definition TableInvariant (header : jsstring) (st : SplitState) : Prop :=
  Forall (fun c => HeaderThenRows header (content c)) (chunks st)
  /\ (currentChunk st = header \/ HeaderThenRows header (currentChunk st)).

(** A chunk as the splitters leave it: no overlap yet, and [originalLength]
    is the length of its content. *)
Definition Fresh (c : Chunk) : Prop :=
  hasOverlap (metadata c) = false
  /\ originalLength (metadata c) = length (content c).

(** The longest string of a list. *)
Definition longest (l : list jsstring) : nat := list_max (List.map (@length N) l).

(** The trimmed, non-empty sentences of a text or heading block. *)
Definition fragmentsOf (text : jsstring) : list jsstring :=
  List.filter truthy (List.map trim (sentencesOf text)).

(** How long a chunk of a block can get before overlap: the budget, unless
    one unit (sentence, list item, table row under its header) is longer. *)
Definition splitBound (config : ChunkingConfig) (block : ContentBlock.t) : nat :=
  let text := ContentBlock.text block in
  match ContentBlock.type block with
  | TableT => Nat.max (tableMaxSize config) (3 * longest (split LF text) + 2)
  | ListT => Nat.max (maxChunkSize config) (longest (split LF text))
  | _ => Nat.max (maxChunkSize config)
                 (minChunkSize config + longest (fragmentsOf text))
         + minChunkSize config
  end.

(** What [chunkBlock] establishes for every chunk of a block. *)
Definition FromBlock (config : ChunkingConfig) (block : ContentBlock.t)
    (c : Chunk) : Prop :=
  Fresh c
  /\ contentType (metadata c) = ContentBlock.type block
  /\ length (content c) <= splitBound config block.


(** The non-empty pieces of text a splitting loop holds: the closed chunks
    and the running chunk. *)
Definition piecesOf (st : SplitState) : list jsstring :=
  List.filter truthy (List.map content (chunks st))
  ++ (if truthy (currentChunk st) then [currentChunk st] else []).

(** What overlap injection makes of the chunk list [l]: a chunk of the
    result is the chunk of [l] with the same index, either with its content
    as it was and [hasOverlap] false, or prefixed with the tail of the chunk
    before it and two line breaks, and [hasOverlap] true. *)
Definition OverlapOf (overlapSize : nat) (l : list Chunk) (c : Chunk) : Prop :=
  exists original,
    nth_error l (idx c) = Some original
    /\ ((content c = content original
         /\ metadata c = setHasOverlap false (metadata original))
        \/ (exists prevChunk,
              0 < idx c /\ overlapSize <> 0
              /\ nth_error l (idx c - 1) = Some prevChunk
              /\ content c = lastChars overlapSize (content prevChunk)
                               ++ [LF; LF] ++ content original
              /\ metadata c = setHasOverlap true (metadata original))).

(** The text loop: the pieces held so far are the trimmed sentences read so
    far, up to how they are grouped, and every closed chunk has reached
    [minChunkSize]. *)
Definition TextInvariant (config : ChunkingConfig) (fragments : list jsstring)
    (st : SplitState) : Prop :=
  join [SP] (piecesOf st) = join [SP] fragments
  /\ Forall (fun s => truthy s = true) fragments
  /\ Forall (fun c => minChunkSize config <= length (content c)) (chunks st).

(** Repeated-line removal as the specification words it: with [lo = 5] and
    [hi = 99], a line goes when its trimmed content has between [lo] and
    [hi] code units and is the trimmed content of more than two lines. *)
Definition occurrences (lines : list jsstring) (t : jsstring) : nat :=
  length (List.filter (fun line => JS.eqb (trim line) t) lines).

Definition isRepeated (lo hi : nat) (lines : list jsstring) (t : jsstring) : bool :=
  (lo <=? length t) && (length t <=? hi) && (2 <? occurrences lines t).

Definition removeRepeatedSpec (lo hi : nat) (text : jsstring) : jsstring :=
  let lines := split LF text in
  join [LF]
    (List.filter (fun line => negb (isRepeated lo hi lines (trim line))) lines).


Definition Overflows (engine : Engine) (config : ChunkingConfig)
    (blocks : list ContentBlock.t) : Prop :=
  exists block index out,
    In block blocks /\ chunkBlock block index config = Ok out
    /\ Pos.to_nat (maxArguments engine) < length out.


(** The splitting loops number the chunks they close from [start]. *)
Definition IndexedFrom (start : nat) (st : SplitState) : Prop :=
  List.map idx (chunks st) = seq start (length (chunks st))
  /\ currentIndex st = start + length (chunks st).

End Spec.

(** Lengths of concatenations, for [lia]. *)
Ltac lengths :=
  simpl in *; rewrite ?length_app in *; simpl in *; try lia.

(** ** Sample documents *)

Module Samples.
Import JS.

(** An engine with the case mapping of Basic Latin and room for 125000
    arguments in a call. *)
Definition sampleEngine : Engine :=
  {| toUpperCase := toUpperCaseLatin; maxArguments := 125000 |}.

(** A section heading followed by a paragraph of prose. *)
Definition headingThenProse : jsstring :=
  join [LF]
    [str "Skills";
     str "";
     str "Developed and maintained multiple production applications using Python and React. Led a team of 5 engineers on key projects."].

(** A document shorter than the default [minChunkSize], and a sentence
    longer than [tinyConfig]'s [maxChunkSize] and shorter than its
    [minChunkSize]. *)
Definition shortDocument : jsstring := str "Hello world".
Definition shortSentence : jsstring := str "Hello there friend.".

(** Three times the same line of five characters. *)
Definition threeHellos : jsstring :=
  join [LF] [str "Hello"; str "Hello"; str "Hello"].

(** A running header of six characters on three of five lines. *)
Definition runningHeader : jsstring :=
  join [LF] [str "Header"; str "first page"; str " Header"; str "second page";
             str "Header "].

(** Two hyphen line breaks around a one-letter word, and one list item
    under three different markers. *)
Definition hyphenBreaks : jsstring := str "a- b- c".

Definition sameItemThreeMarkers : jsstring :=
  join [LF] [str "- Remote"; str "* Remote"; [0x2013%N] ++ str " Remote";
             [0x2014%N] ++ str " Remote"].

(** Noisy extracted text: CR LF line ends, runs of spaces and tabs, a soft
    hyphen, a zero-width space, a word broken by a hyphen at a line end, a
    form feed, page-number lines, a bare link, list markers, and a running
    header on every page. *)
Definition noisyText : jsstring :=
  join [CR; LF]
    [str "Acme Corp Confidential";
     str "John   Doe";
     str "https://example.com/john";
     str "";
     str "";
     str "";
     str "";
     str "Professional  Experience";
     str "Devel" ++ [0xAD%N] ++ str "oped and main-";
     str "tained " ++ [TAB; TAB] ++ str "applications using Python,JavaScript.";
     str "Page 1";
     [FF] ++ str "Acme Corp Confidential";
     str "- Reduced API latency by 40%";
     [0x25CF%N] ++ str "  Implemented CI/CD pipeline";
     str "1) Mentored junior developers";
     str "2";
     str "Acme Corp Confidential";
     str "Education" ++ [0x200B%N]].

(** Prose, a one-word heading, and prose again; and the default
    configuration with an overlap of five code units. *)
Definition proseHeadingProse : jsstring :=
  join [LF]
    [str "Worked with customers and partners across three regions to plan the releases of the product line. Wrote the user guides.";
     str "";
     str "Skills";
     str "";
     str "Developed and maintained multiple production applications using Python and React. Led a team of 5 engineers on key projects."].

Definition shortOverlapConfig : ChunkingConfig :=
  {| maxChunkSize := 1000; overlapSize := 5; tableMaxSize := 2000;
     minChunkSize := 100 |}.

(** Three sentences, the last one short. *)
Definition threeSentences : jsstring :=
  str "First sentence is long enough here. Second one is also long enough. Finally end.".




(** The table of the specification's scenario. *)
Definition smallTable : jsstring :=
  join [LF] [str "Name|Age"; str "---|---"; str "Alice|30"; str "Bob|25";
             str "Carol|22"].

Definition smallTableBlock : ContentBlock.t :=
  ContentBlock.mk smallTable TableT 0.625 0 4.

(** A configuration with a table budget smaller than [smallTable]. *)
Definition tinyConfig : ChunkingConfig :=
  {| maxChunkSize := 10; overlapSize := 5; tableMaxSize := 20;
     minChunkSize := 20 |}.

End Samples.

(** ** Chunking statistics (getChunkingStats) *)

Definition ContentType_code (t : ContentType) : nat :=
  match t with TextT => 0 | TableT => 1 | ListT => 2 | HeadingT => 3 end.

Definition ContentType_of_code (n : nat) : ContentType :=
  match n with 0 => TextT | 1 => TableT | 2 => ListT | _ => HeadingT end.

Definition ConfidenceLevel_code (l : ConfidenceLevel) : nat :=
  match l with High => 0 | Medium => 1 | Low => 2 end.

Definition ConfidenceLevel_of_code (n : nat) : ConfidenceLevel :=
  match n with 0 => High | 1 => Medium | _ => Low end.

#[global] Instance ContentType_eq_dec : EqDecision ContentType :=
  ltac:(solve_decision).

#[global] Instance ContentType_countable : Countable ContentType :=
  inj_countable' ContentType_code ContentType_of_code
                 ltac:(intros []; reflexivity).

#[global] Instance ConfidenceLevel_eq_dec : EqDecision ConfidenceLevel :=
  ltac:(solve_decision).

#[global] Instance ConfidenceLevel_countable : Countable ConfidenceLevel :=
  inj_countable' ConfidenceLevel_code ConfidenceLevel_of_code
                 ltac:(intros []; reflexivity).

Module Stats.
Import JS.

(** The returned object. The two [Record<string, number>] objects are keyed
    by the content-type and confidence strings, that is by [ContentType]
    and [ConfidenceLevel]. *)
Record t := mk {
  totalChunks : nat;
  avgChunkSize : float;
  minChunkSize : nat;
  maxChunkSize : nat;
  contentTypes : gmap ContentType nat;
  confidenceLevels : gmap ConfidenceLevel nat
}.

(** An integer below 2^63 in absolute value as a JavaScript number; a
    negative [x] that rounds to zero gives [-0]. *)
Definition ofInteger (negative : bool) (r : Z) : float :=
  if negative then (- PrimFloat.of_uint63 (Uint63Axioms.of_Z (- r)))%float
  else PrimFloat.of_uint63 (Uint63Axioms.of_Z r).

(** [Math.round]: an integral, infinite or NaN argument is returned as it
    is; otherwise the nearest integer, a tie going up. With [x] decoded as
    [v * 2^e], [e < 0], that integer is [floor ((2 v + 2^-e) / 2^(1-e))]. *)
Definition round (x : float) : float :=
  match Prim2SF x with
  | S754_finite s m e =>
      if (0 <=? e)%Z then x
      else
        let v := if s then Z.neg m else Z.pos m in
        ofInteger s ((2 * v + 2 ^ (- e)) / 2 ^ (1 - e))%Z
  | _ => x
  end.

(** [(record[key] || 0) + 1] stored back under [key]. *)
Definition bump {K : Type} `{Countable K} (record : gmap K nat) (key : K)
  : gmap K nat :=
  <[key := default 0 (record !! key) + 1]> record.

(** The body of the [forEach]: both records are updated for each chunk. *)
Definition countChunk (acc : gmap ContentType nat * gmap ConfidenceLevel nat)
    (chunk : Chunk) : gmap ContentType nat * gmap ConfidenceLevel nat :=
  (bump (fst acc) (contentType (metadata chunk)),
   bump (snd acc) (confidence (metadata chunk))).

(** [f(...args)]: every element of [args] is an argument of the call. *)
Definition applySpread {A B : Type} (engine : Engine) (f : list A -> B)
    (args : list A) : result B :=
  if length args <=? Pos.to_nat (maxArguments engine)
  then Ok (f args)
  else Throw RangeError.

(** [Math.min] and [Math.max] of a non-empty argument list (the function
    returns before them on an empty array). *)
Definition minOf (sizes : list nat) : nat :=
  match sizes with
  | [] => 0
  | s :: rest => fold_left Nat.min rest s
  end.

Definition maxOf (sizes : list nat) : nat :=
  match sizes with
  | [] => 0
  | s :: rest => fold_left Nat.max rest s
  end.

(** [sizes.reduce((a, b) => a + b, 0)] *)
Definition sumOf (sizes : list nat) : float :=
  fold_left (fun a b => (a + num b)%float) sizes 0%float.

(** The fields of the returned object are evaluated in order, so
    [Math.min(...sizes)] is called before [Math.max(...sizes)]. *)
Definition getChunkingStats (engine : Engine) (chunks : list Chunk) : result t :=
  if length chunks =? 0
  then Ok (mk 0 0%float 0 0 ∅ ∅)
  else
    let sizes := List.map (fun c => length (content c)) chunks in
    let records := fold_left countChunk chunks
                     ((∅ : gmap ContentType nat), (∅ : gmap ConfidenceLevel nat)) in
    let avg := round (sumOf sizes / num (length sizes))%float in
    do smallest <- applySpread engine minOf sizes;
    do largest <- applySpread engine maxOf sizes;
    Ok (mk (length chunks) avg smallest largest (fst records) (snd records)).

End Stats.

(** ** The legacy entry point *)

Module Legacy.

(** The chunk type and accessors of the chunking module, imported under
    other names since this module has a [Chunk] of its own. *)
Abbreviation NewChunk := Chunk (only parsing).
Definition newContent (chunk : NewChunk) : jsstring := content chunk.
Definition newPageNumber (chunk : NewChunk) : option nat :=
  pageNumber (metadata chunk).
Definition newChunkIndex (chunk : NewChunk) : nat := chunkIndex (metadata chunk).

Record Metadata := {
  pageNumber : option nat;
  chunkIndex : nat
}.

Record Chunk := {
  content : jsstring;
  metadata : Metadata
}.

(** The arrow function of the [map]. *)
Definition project (chunk : NewChunk) : Chunk :=
  {| content := newContent chunk;
     metadata := {| pageNumber := newPageNumber chunk;
                    chunkIndex := newChunkIndex chunk |} |}.

Definition semanticChunk (engine : Engine) (text : jsstring)
    (pageNumber : option nat) : result (list Chunk) :=
  do newChunks <- Chunker.semanticChunk engine text pageNumber DEFAULT_CONFIG;
  Ok (List.map project newChunks).

End Legacy.

(** ** Further properties of the code *)

Module Laws.
Import JS Regex Preprocessor Detectors Chunker Spec.

(** What [semanticChunk] returns for one page of a multi-page call. *)
Definition pageResult (engine : Engine)
    (config : ChunkingConfig) (page : jsstring * nat) : list Chunk :=
  match semanticChunk engine (fst page) (Some (snd page)) config with
  | Ok pageChunks => pageChunks
  | Throw _ => []
  end.

(** A page that [semanticChunkMultiPage] can take: [semanticChunk] returns
    for it, with no more chunks than one call takes arguments. *)
Definition PageFits (engine : Engine) (config : ChunkingConfig)
    (page : jsstring * nat) : Prop :=
  semanticChunk engine (fst page) (Some (snd page)) config
  = Ok (pageResult engine config page)
  /\ length (pageResult engine config page) <= Pos.to_nat (maxArguments engine).

(** Two chunks that differ in [chunkIndex] at most. *)
Definition SameButIndex (c c' : Chunk) : Prop :=
  content c = content c' /\ metadata c = metadata (setChunkIndex (idx c) c').

(** Two chunks that differ in [hasOverlap] at most, metadata-wise. *)
Definition SameButOverlap (c c' : Chunk) : Prop :=
  setHasOverlap false (metadata c) = setHasOverlap false (metadata c').

(** The chunks [out] are the [units], in order, cut into non-empty groups,
    each group rendered as one chunk. *)
Definition Grouping (render : list jsstring -> jsstring)
    (units : list jsstring) (out : list Chunk) : Prop :=
  exists groups,
    concat groups = units
    /\ Forall (fun g => g <> []) groups
    /\ List.map content out = List.map render groups.

(** The rows of a table: the lines after the header. *)
Definition dataRowsOf (lines : list jsstring) : list jsstring :=
  match lines with
  | _ :: l1 :: rest =>
      if includes (code "-") l1 || includes (code "=") l1 then rest
      else l1 :: rest
  | _ => []
  end.

(** A table chunk: the header, then each row after a line break. *)
Definition tableChunkOf (header : jsstring) (rows : list jsstring) : jsstring :=
  header ++ concat (List.map (cons LF) rows).

(** The list loop after the items [units]: the closed chunks are groups of
    items, the running chunk holds the items of the group being built. *)
Definition ListInvariant (units : list jsstring) (st : SplitState) : Prop :=
  exists groups cur,
    concat groups ++ cur = units
    /\ Forall (fun g => g <> []) groups
    /\ List.map content (chunks st) = List.map (join [LF]) groups
    /\ currentChunk st = join [LF] cur
    /\ Forall (fun s => truthy s = true) units.

(** The table loop after the rows [rows]. *)
Definition RowsInvariant (header : jsstring) (rows : list jsstring)
    (st : SplitState) : Prop :=
  exists groups cur,
    concat groups ++ cur = rows
    /\ Forall (fun g => g <> []) groups
    /\ List.map content (chunks st) = List.map (tableChunkOf header) groups
    /\ currentChunk st = tableChunkOf header cur.

(** A chunk that carries the page number [p] ([None]: no page number). *)
Definition OnPage (p : option nat) (c : Chunk) : Prop :=
  pageNumber (metadata c) = p.

(** A confidence between 0 and 1. *)
Definition UnitInterval (x : float) : Prop :=
  (0 <=? x)%float = true /\ (x <=? 1)%float = true.

(** /\n\n+/, the paragraph break of [segmentIntoBlocks]. *)
Definition paragraphBreak : regex := Seq (chr LF) (plus (chr LF)).

(** The paragraphs [segmentIntoBlocks] keeps, once trimmed: the non-empty
    ones that [detectHeaderFooter] does not take for boilerplate. *)
Definition keptParagraph (trimmed : jsstring) : bool :=
  truthy trimmed && negb (detectHeaderFooter trimmed).

(** Line ranges of consecutive blocks: a block spans as many lines as its
    text has, starts at [lo] or later, and the next block starts at least
    three lines after its end. *)
Fixpoint LinesFrom (lo : nat) (blocks : list ContentBlock.t) : Prop :=
  match blocks with
  | [] => True
  | b :: rest =>
      lo <= ContentBlock.startLine b
      /\ ContentBlock.endLine b + 1
         = ContentBlock.startLine b + length (split LF (ContentBlock.text b))
      /\ LinesFrom (ContentBlock.endLine b + 3) rest
  end.

(** The literal parts of a replacement template hold code units of [P]
    only. *)
Definition literalsIn (P : char -> Prop) (tpl : list rtoken) : Prop :=
  Forall (fun t => match t with Lit s => Forall P s | Ref _ => True end) tpl.

(** A matcher state whose remaining input and captures hold code units of
    [P] only. *)
Definition Within (P : char -> Prop) (st : mstate) : Prop :=
  Forall P (input st) /\ Forall (fun cap => Forall P (snd cap)) (captures st).

(** A match started within [P] hands a state within [P] to its
    continuation: captures are taken from the input. *)
Definition Keeps (P : char -> Prop)
    (m : mstate -> (mstate -> option mstate) -> option mstate) : Prop :=
  forall st k res,
    Within P st -> m st k = Some res ->
    exists st', Within P st' /\ k st' = Some res.

(** The artifacts [removePDFArtifacts] removes: zero-width characters, the
    soft hyphen and the form feed. *)
Definition isArtifact (c : char) : bool :=
  zeroWidth c || (c =? 0xAD)%N || (c =? FF)%N.

(** A string that neither starts nor ends with white space. *)
Definition headOk (p : char -> bool) (s : jsstring) : Prop :=
  match s with
  | [] => True
  | c :: _ => p c = false
  end.

Definition Trimmed (s : jsstring) : Prop :=
  headOk isWhiteSpace s /\ headOk isWhiteSpace (rev s).

(** The line filters of [removePageNumbers] and [removeStandaloneLinks]. *)
Definition keepsPageLine (line : jsstring) : bool :=
  let trimmed := trim line in
  if test pageNumberLine trimmed then false
  else if test shortNumberLine trimmed then false
  else true.

Definition keepsLinkLine (line : jsstring) : bool :=
  let trimmed := trim line in
  if test urlLine trimmed then false
  else if test emailLine trimmed then false
  else true.

(** [text.split("\n").filter(keep).join("\n")] *)
Definition filterLines (keep : jsstring -> bool) (text : jsstring) : jsstring :=
  join [LF] (List.filter keep (split LF text)).

(** A code unit that is no list marker and no digit, and one that the OCR
    fixes never look at. *)
Definition noMarker (c : char) : bool :=
  negb (one_of bulletGlyphs c || one_of dashGlyphs c || isDigit c).

Definition noOCRTarget (c : char) : bool :=
  negb ((c =? code "l")%N || (c =? code "0")%N || (c =? code "1")%N).

(** Sentences. [. ! ?] end a sentence; /[^.!?]+[.!?]+/ is the pattern of
    [chunkTextBySentences]. *)
Definition isTerminator (c : char) : bool := one_of (str ".!?") c.
Definition notTerminator (c : char) : bool := negb (one_of (str ".!?") c).

Definition sentencePattern : regex :=
  Seq (plus (cls_not (one_of (str ".!?")))) (plus (cls_in (str ".!?"))).

(** The length of the longest prefix of [s] within the class [p]. *)
Fixpoint spanLength (p : char -> bool) (s : jsstring) : nat :=
  match s with
  | c :: s' => if p c then S (spanLength p s') else 0
  | [] => 0
  end.

(** The matcher state after [n] more code units were consumed. *)
Fixpoint advanceBy (n : nat) (st : mstate) : mstate :=
  match n with
  | 0 => st
  | S n' =>
      match input st with
      | c :: s' => advanceBy n' (MState (pos st + 1) (Some c) s' (captures st))
      | [] => st
      end
  end.

(** The sentence at the head of [s], read off the string: a non-empty run
    of non-terminators followed by a non-empty run of terminators. *)
Definition sentenceLength (s : jsstring) : option nat :=
  let n := spanLength notTerminator s in
  let t := spanLength isTerminator (skipn n s) in
  if (0 <? n) && (0 <? t) then Some (n + t) else None.

(** What [s.match(/[^.!?]+[.!?]+/g)] finds, read off the string. *)
Fixpoint sentencesFrom (fuel : nat) (s : jsstring) : list jsstring :=
  match fuel with
  | 0 => []
  | S fuel' =>
      match sentenceLength s with
      | Some k => firstn k s :: sentencesFrom fuel' (skipn k s)
      | None =>
          match s with
          | [] => []
          | _ :: s' => sentencesFrom fuel' s'
          end
      end
  end.

(** A string that is empty or ends with a terminator. *)
Fixpoint endsTerminated (s : jsstring) : bool :=
  match s with
  | [] => true
  | c :: s' =>
      match s' with
      | [] => isTerminator c
      | _ :: _ => endsTerminated s'
      end
  end.

(** A string that is empty or starts with a non-terminator. *)
Definition startsSentence (s : jsstring) : bool :=
  match s with
  | [] => true
  | c :: _ => notTerminator c
  end.

(** The block [block] with another text. *)
Definition withText (block : ContentBlock.t) (text : jsstring) : ContentBlock.t :=
  ContentBlock.mk text (ContentBlock.type block) (ContentBlock.confidence block)
                  (ContentBlock.startLine block) (ContentBlock.endLine block).

(** A text block of two sentences, and words without a final terminator. *)
Definition twoSentences : ContentBlock.t :=
  ContentBlock.mk (str "First sentence here. Second sentence here!") TextT 1 0 0.

Definition trailingWords : jsstring := str " and some trailing words".

(** How many chunks have [k] as their [key] (content type, confidence). *)
Definition countWhere {K : Type} `{EqDecision K} (key : Chunk -> K) (k : K)
    (chunks : list Chunk) : nat :=
  length (List.filter (fun c => bool_decide (key c = k)) chunks).

Definition typeOf (c : Chunk) : ContentType := contentType (metadata c).
Definition levelOf (c : Chunk) : ConfidenceLevel := confidence (metadata c).

(** Three chunks of 3, 4 and 4 code units. *)
Definition threeChunks : list Chunk :=
  [newChunk (str "abc") 0 TextT High; newChunk (str "abcd") 1 TableT High;
   newChunk (str "abcd") 2 TableT Low].

(** The line filter of [removeRepeatedSections]: a line stays unless its
    trimmed content has 6 to 99 code units and is the trimmed content of
    more than two of the [lines]. *)
Definition keepsUnrepeated (lines : list jsstring) (line : jsstring) : bool :=
  negb (isRepeated 6 99 lines (trim line)).




(** The text [preprocessText] holds before its last two steps, the second
    pass of [normalizeWhitespace] and the final [trim]. *)
Definition beforeLastPass (text : jsstring) (options : Options.t) : jsstring :=
  let p1 := normalizeWhitespace text in
  let p2 := removePDFArtifacts p1 in
  let p3 := if notFalse (Options.removePageNumbers options)
            then removePageNumbers p2 else p2 in
  let p4 := if notFalse (Options.removeLinks options)
            then removeStandaloneLinks p3 else p3 in
  let p5 := if notFalse (Options.removeRepeated options)
            then removeRepeatedSections p4 else p4 in
  let p6 := normalizeLists p5 in
  if isTrue (Options.fixOCR options) then fixOCRErrors p6 else p6.

End Laws.

(** Case analysis on every test of a detector's score. *)
Ltac detector_cases :=
  cbv beta zeta;
  repeat match goal with
         | |- context [if ?b then _ else _] => destruct b; cbv beta iota
         end.

(** One match attempt of a pattern of at most three code units. *)
Ltac exec_length :=
  intros prev s st; unfold Regex.exec;
  destruct s as [|a [|b [|c s]]]; simpl;
  repeat match goal with
         | |- context [if ?x then _ else _] => destruct x
         end;
  try discriminate; intros [= <-]; reflexivity.


(** * Proofs *)

Import JS Regex Preprocessor Detectors Chunker Spec Samples.

(** ** The matcher *)

Lemma Suffix_refl s : Suffix s s.
Proof. now exists []. Qed.

Lemma Suffix_trans a b c : Suffix a b -> Suffix b c -> Suffix a c.
Proof. intros [p ->] [q ->]. exists (q ++ p). now rewrite app_assoc. Qed.

Lemma Suffix_cons c s : Suffix s (c :: s).
Proof. now exists [c]. Qed.

Lemma Suffix_Forall (P : N -> Prop) s' s : Suffix s' s -> Forall P s -> Forall P s'.
Proof. intros [p ->] H. now apply Forall_app in H. Qed.

Lemma Tracks_refl st : Tracks st st.
Proof. exists []. split; [reflexivity | simpl; lia]. Qed.

Lemma Tracks_trans a b c : Tracks a b -> Tracks b c -> Tracks a c.
Proof.
  intros (p & Hp & Hpos) (q & Hq & Hqos). exists (p ++ q). split.
  - now rewrite Hp, Hq, app_assoc.
  - rewrite Hqos, Hpos, length_app. lia.
Qed.

Lemma Tracks_step st c s' :
  input st = c :: s' ->
  Tracks st (MState (pos st + 1) (Some c) s' (captures st)).
Proof. intros E. exists [c]. split; [exact E | simpl; lia]. Qed.

Lemma Tracks_Suffix st st' : Tracks st st' -> Suffix (input st') (input st).
Proof. intros (p & Hp & _). now exists p. Qed.

Lemma Tracks_progress st st' :
  Tracks st st' -> (pos st <? pos st')%N = true ->
  length (input st') < length (input st).
Proof.
  intros (p & Hp & Hpos) H. apply N.ltb_lt in H. rewrite Hp, length_app.
  destruct p; simpl in *; lia.
Qed.

Lemma Tracks_stuck st st' :
  Tracks st st' -> input st = [] -> (pos st <? pos st')%N = false.
Proof.
  intros (p & Hp & Hpos) E. rewrite E in Hp. destruct p; [|discriminate].
  apply N.ltb_ge. simpl in Hpos. lia.
Qed.

Lemma starLoop_sound m fuel : Sound m -> Sound (starLoop m fuel).
Proof.
  intros Hm. induction fuel as [|c fuel IH]; intros st k res; simpl.
  - intros H. exists st. split; [apply Tracks_refl | exact H].
  - destruct (m st _) as [res'|] eqn:E.
    + intros [= ->]. apply Hm in E as (st1 & Hs1 & E).
      destruct (pos st <? pos st1)%N; [|discriminate].
      apply IH in E as (st2 & Hs2 & E). exists st2. split; [|exact E].
      eapply Tracks_trans; eauto.
    + intros H. exists st. split; [apply Tracks_refl | exact H].
Qed.

Lemma rmatch_sound r : Sound (rmatch r).
Proof.
  induction r as [|p|r1 IH1 r2 IH2|r1 IH1 r2 IH2|r1 IH1|i r1 IH1|m|m|];
    intros st k res; simpl.
  - intros H. exists st. split; [apply Tracks_refl | exact H].
  - destruct (input st) as [|c s'] eqn:E; [discriminate|].
    destruct (p c); [|discriminate]. intros H.
    exists (MState (pos st + 1) (Some c) s' (captures st)).
    split; [now apply Tracks_step | exact H].
  - intros H. apply IH1 in H as (st1 & Hs1 & H).
    apply IH2 in H as (st2 & Hs2 & H). exists st2. split; [|exact H].
    eapply Tracks_trans; eauto.
  - destruct (rmatch r1 st k) as [res'|] eqn:E.
    + intros [= ->]. now apply IH1.
    + apply IH2.
  - now apply starLoop_sound.
  - intros H. apply IH1 in H as (st1 & Hs1 & H).
    exists (capture i st st1). split; [exact Hs1 | exact H].
  - destruct (atBol m st); [|discriminate].
    intros H. exists st. split; [apply Tracks_refl | exact H].
  - destruct (atEol m st); [|discriminate].
    intros H. exists st. split; [apply Tracks_refl | exact H].
  - destruct (atWordBoundary st); [|discriminate].
    intros H. exists st. split; [apply Tracks_refl | exact H].
Qed.

Lemma exec_tracks r prev s st :
  exec r prev s = Some st ->
  exists p, s = p ++ input st /\ pos st = N.of_nat (length p).
Proof.
  unfold exec. intros H.
  apply rmatch_sound in H as (st' & (p & Hp & Hpos) & [= ->]).
  exists p. split; [exact Hp | simpl in Hpos; lia].
Qed.

Lemma exec_suffix r prev s st : exec r prev s = Some st -> Suffix (input st) s.
Proof. intros H. apply exec_tracks in H as (p & Hp & _). now exists p. Qed.

Lemma exec_progress r prev s st :
  exec r prev s = Some st -> (0 <? pos st)%N = true -> length (input st) < length s.
Proof.
  intros H Hpos. apply exec_tracks in H as (p & -> & Hp). apply N.ltb_lt in Hpos.
  rewrite length_app. destruct p; simpl in *; lia.
Qed.

(** ** The fuel of the loops is enough *)

Lemma rmatch_fails r st : rmatch r st (fun _ => None) = None.
Proof.
  destruct (rmatch r st _) as [res|] eqn:E; [|reflexivity].
  apply rmatch_sound in E as (st' & _ & E). discriminate.
Qed.

Lemma starLoop_ext m fuel : Extensional m -> Extensional (starLoop m fuel).
Proof.
  intros Hm. induction fuel as [|c fuel IH]; intros st k1 k2 H; simpl.
  - apply H, Tracks_refl.
  - rewrite (H st (Tracks_refl st)).
    rewrite (Hm st _ (fun st' => if (pos st <? pos st')%N
                                 then starLoop m fuel st' k2 else None));
      [reflexivity|].
    intros st' Hst'. destruct (pos st <? pos st')%N; [|reflexivity].
    apply IH. intros st'' Hst''. apply H. eapply Tracks_trans; eauto.
Qed.

Lemma rmatch_ext r : Extensional (rmatch r).
Proof.
  induction r as [|p|r1 IH1 r2 IH2|r1 IH1 r2 IH2|r1 IH1|i r1 IH1|m|m|];
    intros st k1 k2 H; simpl.
  - apply H, Tracks_refl.
  - destruct (input st) as [|c s'] eqn:E; [reflexivity|].
    destruct (p c); [|reflexivity]. now apply H, Tracks_step.
  - apply IH1. intros st1 H1. apply IH2. intros st2 H2. apply H.
    eapply Tracks_trans; eauto.
  - rewrite (IH1 st k1 k2 H), (IH2 st k1 k2 H). reflexivity.
  - now apply starLoop_ext.
  - apply IH1. intros st1 H1. apply H. exact H1.
  - destruct (atBol m st); [apply H, Tracks_refl | reflexivity].
  - destruct (atEol m st); [apply H, Tracks_refl | reflexivity].
  - destruct (atWordBoundary st); [apply H, Tracks_refl | reflexivity].
Qed.

Lemma starLoop_empty r fuel st k :
  input st = [] -> starLoop (rmatch r) fuel st k = k st.
Proof.
  intros E. destruct fuel as [|c fuel]; [reflexivity|]. simpl.
  rewrite (rmatch_ext r st _ (fun _ => None)).
  - now rewrite rmatch_fails.
  - intros st' Hst'. now rewrite (Tracks_stuck _ _ Hst' E).
Qed.

(** The loop of [r*] never runs out of fuel: any fuel as long as the input
    gives the same result. *)
Lemma starLoop_fuel r fuel1 fuel2 st k :
  length (input st) <= length fuel1 -> length (input st) <= length fuel2 ->
  starLoop (rmatch r) fuel1 st k = starLoop (rmatch r) fuel2 st k.
Proof.
  revert fuel2 st. induction fuel1 as [|c1 fuel1 IH]; intros fuel2 st H1 H2.
  - assert (E : input st = []) by (destruct (input st); simpl in *; [auto | lia]).
    now rewrite !starLoop_empty.
  - destruct fuel2 as [|c2 fuel2].
    + assert (E : input st = []) by (destruct (input st); simpl in *; [auto | lia]).
      now rewrite !starLoop_empty.
    + simpl.
      rewrite (rmatch_ext r st _ (fun st' => if (pos st <? pos st')%N
                                   then starLoop (rmatch r) fuel2 st' k else None));
        [reflexivity|].
      intros st' Hst'. destruct (pos st <? pos st')%N eqn:Ep; [|reflexivity].
      pose proof (Tracks_progress _ _ Hst' Ep). simpl in *. apply IH; lia.
Qed.

(** Likewise for the scans of [replace], [match] and [split]. *)
Lemma replaceFrom_fuel r tpl fuel1 fuel2 prev s :
  length s < fuel1 -> length s < fuel2 ->
  replaceFrom fuel1 r tpl prev s = replaceFrom fuel2 r tpl prev s.
Proof.
  revert fuel2 prev s. induction fuel1 as [|fuel1 IH]; intros fuel2 prev s H1 H2;
    [lia|].
  destruct fuel2 as [|fuel2]; [lia|]. simpl.
  destruct (exec r prev s) as [st|] eqn:E.
  - destruct (0 <? pos st)%N eqn:Ep.
    + pose proof (exec_progress _ _ _ _ E Ep). f_equal. apply IH; lia.
    + destruct s as [|c s']; [reflexivity|]. do 2 f_equal.
      apply IH; simpl in *; lia.
  - destruct s as [|c s']; [reflexivity|]. f_equal. apply IH; simpl in *; lia.
Qed.

Lemma matchFrom_fuel r fuel1 fuel2 prev s :
  length s < fuel1 -> length s < fuel2 ->
  matchFrom fuel1 r prev s = matchFrom fuel2 r prev s.
Proof.
  revert fuel2 prev s. induction fuel1 as [|fuel1 IH]; intros fuel2 prev s H1 H2;
    [lia|].
  destruct fuel2 as [|fuel2]; [lia|]. simpl.
  destruct (exec r prev s) as [st|] eqn:E.
  - destruct (0 <? pos st)%N eqn:Ep.
    + pose proof (exec_progress _ _ _ _ E Ep). f_equal. apply IH; lia.
    + destruct s as [|c s']; [reflexivity|]. f_equal.
      apply IH; simpl in *; lia.
  - destruct s as [|c s']; [reflexivity|]. apply IH; simpl in *; lia.
Qed.

Lemma splitFrom_fuel r fuel1 fuel2 piece prev s :
  2 * length s + (if truthy piece then 1 else 0) < fuel1 ->
  2 * length s + (if truthy piece then 1 else 0) < fuel2 ->
  splitFrom fuel1 r piece prev s = splitFrom fuel2 r piece prev s.
Proof.
  revert fuel2 piece prev s.
  induction fuel1 as [|fuel1 IH]; intros fuel2 piece prev s H1 H2; [lia|].
  destruct fuel2 as [|fuel2]; [lia|]. simpl.
  destruct s as [|c s']; [reflexivity|].
  destruct (exec r prev (c :: s')) as [st|] eqn:E.
  - destruct (0 <? pos st)%N eqn:Ep.
    + pose proof (exec_progress _ _ _ _ E Ep). f_equal.
      apply IH; simpl in *; lia.
    + destruct piece as [|x piece].
      * apply IH; simpl in *; lia.
      * f_equal. apply IH; simpl in *; lia.
  - apply IH; simpl in *; lia.
Qed.

(** ** White space *)


Lemma Needs_none (P : N -> Prop) r :
  Needs P r -> forall st k, Forall P (input st) -> rmatch r st k = None.
Proof.
  induction r as [|p|r1 IH1 r2 IH2|r1 IH1 r2 IH2|r1 IH1|i r1 IH1|m|m|];
    cbn [Needs rmatch]; intros Hr st k Hall; try contradiction.
  - destruct (input st) as [|c s']; [reflexivity|].
    inversion Hall as [|? ? Hc _]; subst. now rewrite (Hr c Hc).
  - destruct Hr as [Hr|Hr]; [now apply IH1|].
    destruct (rmatch r1 st _) as [res|] eqn:E; [|reflexivity].
    apply rmatch_sound in E as (st1 & Hs & E).
    rewrite IH2 in E; [discriminate | exact Hr |].
    eapply Suffix_Forall; [apply Tracks_Suffix; exact Hs | exact Hall].
  - destruct Hr as [Hr1 Hr2]. rewrite IH1 by assumption. now apply IH2.
  - now apply IH1.
Qed.



Lemma replaceFrom_nomatch r tpl fuel prev s :
  (forall prev' s', Suffix s' s -> exec r prev' s' = None) ->
  replaceFrom fuel r tpl prev s = s.
Proof.
  revert prev s. induction fuel as [|fuel IH]; intros prev s H; [reflexivity|].
  simpl. rewrite (H prev s (Suffix_refl s)).
  destruct s as [|c s]; [reflexivity|]. f_equal. apply IH.
  intros prev' s' Hs. apply H. eapply Suffix_trans; [exact Hs | apply Suffix_cons].
Qed.


Lemma replaceFrom_Forall (P : N -> Prop) r tpl :
  (forall caps, Forall P (expand tpl caps)) ->
  forall fuel prev s, Forall P s -> Forall P (replaceFrom fuel r tpl prev s).
Proof.
  intros Htpl. induction fuel as [|fuel IH]; intros prev s Hs; [exact Hs|].
  simpl. destruct (exec r prev s) as [st|] eqn:E.
  - pose proof (Suffix_Forall P _ _ (exec_suffix _ _ _ _ E) Hs) as Hrest.
    destruct (0 <? pos st)%N.
    + apply Forall_app. split; [apply Htpl | now apply IH].
    + destruct s as [|c s]; [apply Htpl|].
      inversion Hs; subst. apply Forall_app. split; [apply Htpl|].
      constructor; [assumption | now apply IH].
  - destruct s as [|c s]; [constructor|].
    inversion Hs; subst. constructor; [assumption | now apply IH].
Qed.



Lemma split_Forall (P : N -> Prop) sep s :
  Forall P s -> Forall (Forall P) (split sep s).
Proof.
  induction s as [|c s IH]; intros H; simpl; [repeat constructor|].
  inversion H as [|? ? Hc Hs]; subst. specialize (IH Hs).
  destruct (c =? sep)%N; [constructor; [constructor | exact IH]|].
  destruct (split sep s) as [|piece rest]; [repeat constructor; exact Hc|].
  inversion IH; subst. constructor; [constructor; assumption | assumption].
Qed.

Lemma join_Forall (P : N -> Prop) sep l :
  Forall P sep -> Forall (Forall P) l -> Forall P (join sep l).
Proof.
  intros Hsep. induction l as [|x l IH]; intros H; [constructor|].
  inversion H as [|? ? Hx Hl]; subst. destruct l as [|y l]; [exact Hx|].
  change (Forall P (x ++ sep ++ join sep (y :: l))).
  apply Forall_app. split; [exact Hx|]. apply Forall_app. split; [exact Hsep|].
  now apply IH.
Qed.

Lemma filter_Forall {A : Type} (P : A -> Prop) p l :
  Forall P l -> Forall P (List.filter p l).
Proof.
  induction 1 as [|x l Hx _ IH]; simpl; [constructor|].
  destruct (p x); [constructor; assumption | assumption].
Qed.


Lemma dropWhile_all p s : Forall (fun c => p c = true) s -> dropWhile p s = [].
Proof. induction 1 as [|c s Hc _ IH]; simpl; [reflexivity|]. now rewrite Hc. Qed.

Lemma trim_blank s : Blank s -> trim s = [].
Proof.
  intros H. unfold trim, trimStart, trimEnd. now rewrite (dropWhile_all _ _ H).
Qed.






(** ** Table blocks have two lines *)

Lemma detectTable_lines text :
  detected (detectTable text) = true -> 2 <= length (nonBlankLines text).
Proof.
  unfold detectTable.
  destruct (Nat.ltb_spec (length (nonBlankLines text)) 2) as [Hlt|Hge].
  - simpl. discriminate.
  - intros _. exact Hge.
Qed.

Lemma nonBlankLines_length text :
  length (nonBlankLines text) <= length (split LF text).
Proof. unfold nonBlankLines. apply filter_length_le. Qed.

Lemma analyzeContentBlock_text toUpperCase text startLine endLine :
  ContentBlock.text (analyzeContentBlock toUpperCase text startLine endLine) = text.
Proof.
  unfold analyzeContentBlock.
  destruct (detectHeaderFooter text); [reflexivity|].
  destruct (detected (detectHeading toUpperCase text)); [reflexivity|].
  destruct (detected (detectTable text)); [reflexivity|].
  destruct (detected (detectList text)); reflexivity.
Qed.

Lemma analyzeContentBlock_table toUpperCase text startLine endLine :
  TableReady (analyzeContentBlock toUpperCase text startLine endLine).
Proof.
  unfold TableReady. rewrite analyzeContentBlock_text. unfold analyzeContentBlock.
  destruct (detectHeaderFooter text); [discriminate|].
  destruct (detected (detectHeading toUpperCase text)); [discriminate|].
  destruct (detected (detectTable text)) eqn:E.
  - intros _. apply detectTable_lines in E.
    pose proof (nonBlankLines_length text). lia.
  - destruct (detected (detectList text)); discriminate.
Qed.

Lemma segmentParagraphs_tables toUpperCase paragraphs lineNumber :
  Forall TableReady (segmentParagraphs toUpperCase paragraphs lineNumber).
Proof.
  revert lineNumber. induction paragraphs as [|paragraph rest IH];
    intros lineNumber; [constructor|].
  cbn [segmentParagraphs]. destruct (truthy (trim paragraph)); [|apply IH].
  cbv zeta. destruct (PrimFloat.ltb _ _); [|apply IH].
  constructor; [apply analyzeContentBlock_table | apply IH].
Qed.

Lemma segmentIntoBlocks_tables toUpperCase text :
  Forall TableReady (segmentIntoBlocks toUpperCase text).
Proof. apply segmentParagraphs_tables. Qed.

Lemma segmentIntoBlocks_empty toUpperCase : segmentIntoBlocks toUpperCase [] = [].
Proof. reflexivity. Qed.

(** ** Runs of one code unit *)

Lemma advance_0 c st : advance c 0 st = st.
Proof. destruct st. unfold advance. simpl. now rewrite N.add_0_r. Qed.

Lemma advance_S c r st s' :
  input st = c :: s' ->
  advance c r (MState (pos st + 1) (Some c) s' (captures st)) = advance c (S r) st.
Proof.
  intros E. unfold advance. simpl. rewrite E. simpl. f_equal; [lia|].
  now destruct r.
Qed.

(** A greedy [c*] with nothing after it takes the whole run. *)
Lemma starLoop_run c fuel st :
  length (input st) <= length fuel ->
  starLoop (rmatch (chr c)) fuel st Some
  = Some (advance c (runLength c (input st)) st).
Proof.
  revert st. induction fuel as [|y fuel IH]; intros st Hlen.
  - destruct (input st) eqn:E; simpl in Hlen; [|lia]. simpl. now rewrite advance_0.
  - cbn [starLoop]. unfold chr at 1. cbn [rmatch].
    destruct (input st) as [|x s'] eqn:E; [simpl; now rewrite advance_0|].
    cbn [runLength]. destruct (N.eqb_spec c x) as [<-|Hne];
      [|simpl; now rewrite advance_0].
    cbn [pos]. rewrite IH by (simpl in *; lia). cbn [input].
    replace (pos st <? pos st + 1)%N with true by (symmetry; apply N.ltb_lt; lia).
    now rewrite (advance_S c _ st s' E).
Qed.

Lemma atLeast_run c n st :
  rmatch (atLeast n (chr c)) st Some
  = if n <=? runLength c (input st)
    then Some (advance c (runLength c (input st)) st) else None.
Proof.
  revert st. induction n as [|n IH]; intros st.
  - cbn [atLeast rmatch]. now rewrite starLoop_run.
  - cbn [atLeast rmatch]. unfold chr at 1. cbn [rmatch].
    destruct (input st) as [|x s'] eqn:E; [reflexivity|].
    cbn [runLength]. destruct (N.eqb_spec c x) as [<-|Hne]; [|reflexivity].
    rewrite IH. cbn [input]. change (S n <=? S (runLength c s'))
      with (n <=? runLength c s').
    destruct (n <=? runLength c s'); [|reflexivity].
    now rewrite (advance_S c _ st s' E).
Qed.

Lemma replaceFrom_collapse c n m fuel prev s :
  1 <= n ->
  replaceFrom fuel (atLeast n (chr c)) [Lit (repeat c m)] prev s
  = collapseFrom fuel c n m s.
Proof.
  intros Hn. revert prev s. induction fuel as [|fuel IH]; intros prev s;
    [reflexivity|].
  cbn [replaceFrom collapseFrom]. unfold exec. rewrite atLeast_run. cbn [input].
  destruct s as [|x s'].
  - simpl. destruct (Nat.leb_spec n 0); [lia | reflexivity].
  - destruct (Nat.leb_spec n (runLength c (x :: s'))) as [Hr|Hr].
    + unfold advance. cbn [pos before input captures].
      replace (0 <? 0 + N.of_nat (runLength c (x :: s')))%N with true
        by (symmetry; apply N.ltb_lt; lia).
      unfold expand. cbn [List.map List.concat]. rewrite app_nil_r, IH.
      reflexivity.
    + now rewrite IH.
Qed.

Lemma runLength_repeat c m t : runLength c (repeat c m ++ t) = m + runLength c t.
Proof.
  induction m as [|m IH]; [reflexivity|]. simpl. now rewrite N.eqb_refl, IH.
Qed.

Lemma run_prefix c s : s = repeat c (runLength c s) ++ skipn (runLength c s) s.
Proof.
  induction s as [|x s IH]; [reflexivity|]. simpl.
  destruct (N.eqb_spec c x) as [<-|Hne]; [|reflexivity]. simpl. now rewrite <- IH.
Qed.

Lemma runLength_skip c s : runLength c (skipn (runLength c s) s) = 0.
Proof.
  induction s as [|x s IH]; [reflexivity|]. simpl.
  destruct (N.eqb_spec c x) as [<-|Hne]; [exact IH|].
  simpl. now apply N.eqb_neq in Hne as ->.
Qed.

Lemma runLength_length c s : runLength c s <= length s.
Proof.
  induction s as [|x s IH]; [reflexivity|]. simpl. destruct (c =? x)%N; lia.
Qed.

Lemma noRun_skipn c k j s : noRun c k s -> noRun c k (skipn j s).
Proof.
  revert s. induction j as [|j IH]; intros s H; [exact H|].
  destruct s as [|x s]; [exact H|]. simpl. apply IH. exact (proj2 H).
Qed.

(** Collapsing changes nothing where every run is short, or already of the
    length it is replaced with. *)
Lemma collapse_same c n m k fuel s :
  1 <= n -> (forall r, n <= r -> r < k -> r = m) ->
  noRun c k s -> collapseFrom fuel c n m s = s.
Proof.
  intros Hn Hm. revert s. induction fuel as [|fuel IH]; intros s Hs;
    [reflexivity|].
  destruct s as [|x s']; [reflexivity|]. cbn [collapseFrom].
  destruct Hs as [Hr Hs].
  destruct (Nat.leb_spec n (runLength c (x :: s'))) as [Hge|Hlt].
  - rewrite IH by (apply noRun_skipn; split; assumption).
    rewrite <- (Hm _ Hge Hr). symmetry. apply run_prefix.
  - now rewrite IH.
Qed.

Lemma runLength_collapse c n m fuel s :
  1 <= n -> length s < fuel ->
  runLength c (collapseFrom fuel c n m s)
  = if n <=? runLength c s then m else runLength c s.
Proof.
  intros Hn. revert s. induction fuel as [|fuel IH]; intros s Hlen; [lia|].
  destruct s as [|x s'].
  - simpl. destruct (Nat.leb_spec n 0); [lia | reflexivity].
  - cbn [collapseFrom].
    pose proof (runLength_length c (x :: s')) as Hrl.
    destruct (Nat.leb_spec n (runLength c (x :: s'))) as [Hge|Hlt].
    + rewrite runLength_repeat, IH.
      * rewrite runLength_skip. destruct (Nat.leb_spec n 0); lia.
      * rewrite length_skipn. simpl in *. lia.
    + simpl in *. destruct (c =? x)%N; [|reflexivity].
      rewrite IH by lia. destruct (Nat.leb_spec n (runLength c s')); lia.
Qed.

Lemma noRun_repeat c k m t :
  m < k -> runLength c t = 0 -> noRun c k t -> noRun c k (repeat c m ++ t).
Proof.
  intros Hm Ht Hn. induction m as [|m IH]; [exact Hn|].
  split; [|apply IH; lia].
  change (runLength c (repeat c (S m) ++ t) < k). rewrite runLength_repeat. lia.
Qed.

(** After collapsing, no run reaches [k], when [k] is above both the length
    put in and the lengths left alone. *)
Lemma noRun_collapse c n m k fuel s :
  1 <= n -> m < k -> n <= k -> length s < fuel ->
  noRun c k (collapseFrom fuel c n m s).
Proof.
  intros Hn Hm Hk. revert s. induction fuel as [|fuel IH]; intros s Hlen; [lia|].
  destruct s as [|x s']; [exact I|].
  pose proof (runLength_collapse c n m (S fuel) (x :: s') Hn Hlen) as Hhead.
  pose proof (runLength_length c (x :: s')) as Hrl.
  cbn [collapseFrom] in *.
  destruct (Nat.leb_spec n (runLength c (x :: s'))) as [Hge|Hlt].
  - assert (Hl : length (skipn (runLength c (x :: s')) (x :: s')) < fuel)
      by (rewrite length_skipn; simpl in *; lia).
    apply noRun_repeat; [exact Hm | | now apply IH].
    rewrite runLength_collapse by assumption.
    rewrite runLength_skip. destruct (Nat.leb_spec n 0); lia.
  - split; [lia|]. apply IH. simpl in Hlen. lia.
Qed.

Lemma runLength_collapse_other c d n m fuel s :
  d <> c -> 1 <= n -> 1 <= m -> length s < fuel ->
  runLength d (collapseFrom fuel c n m s) = runLength d s.
Proof.
  intros Hd Hn Hm. revert s. induction fuel as [|fuel IH]; intros s Hlen; [lia|].
  destruct s as [|x s']; [reflexivity|]. cbn [collapseFrom].
  destruct (Nat.leb_spec n (runLength c (x :: s'))) as [Hge|Hlt].
  - destruct m as [|m]; [lia|]. simpl in *.
    destruct (N.eqb_spec c x) as [<-|Hne]; [|lia].
    now apply N.eqb_neq in Hd as ->.
  - simpl in *. destruct (d =? x)%N; [|reflexivity]. rewrite IH by lia. reflexivity.
Qed.

Lemma noRun_other_repeat c d k m t :
  d <> c -> 1 <= k -> noRun d k t -> noRun d k (repeat c m ++ t).
Proof.
  intros Hd Hk Ht. induction m as [|m IH]; [exact Ht|].
  split; [|exact IH]. simpl. apply N.eqb_neq in Hd as ->. lia.
Qed.

(** Collapsing the runs of [c] into at least one [c] joins no run of
    another code unit. *)
Lemma noRun_collapse_other c d n m k fuel s :
  d <> c -> 1 <= n -> 1 <= m -> 1 <= k -> length s < fuel ->
  noRun d k s -> noRun d k (collapseFrom fuel c n m s).
Proof.
  intros Hd Hn Hm Hk. revert s. induction fuel as [|fuel IH]; intros s Hlen Hs;
    [lia|].
  destruct s as [|x s']; [exact I|].
  pose proof (runLength_collapse_other c d n m (S fuel) (x :: s') Hd Hn Hm Hlen)
    as Hhead.
  pose proof (runLength_length c (x :: s')) as Hrl.
  cbn [collapseFrom] in *.
  destruct (Nat.leb_spec n (runLength c (x :: s'))) as [Hge|Hlt].
  - apply noRun_other_repeat; [exact Hd | exact Hk |].
    apply IH; [rewrite length_skipn; simpl in *; lia | now apply noRun_skipn].
  - destruct Hs as [Hr Hs]. split; [rewrite Hhead; exact Hr|].
    apply IH; [simpl in Hlen; lia | exact Hs].
Qed.

(** ** White-space normalization is a fixed point after one pass *)

Lemma replaceFrom_chr_free c lit :
  Forall (fun x => x <> c) lit ->
  forall fuel prev s,
    length s < fuel ->
    Forall (fun x => x <> c) (replaceFrom fuel (chr c) [Lit lit] prev s).
Proof.
  intros Hlit. induction fuel as [|fuel IH]; intros prev s Hlen; [lia|].
  destruct s as [|x s']; [constructor|].
  cbn [replaceFrom]. unfold exec, chr. cbn [rmatch input].
  destruct (N.eqb_spec c x) as [<-|Hne].
  - cbn [pos before input captures]. unfold expand. cbn [List.map List.concat].
    rewrite app_nil_r. change (0 <? 0 + 1)%N with true. cbv iota.
    apply Forall_app. split; [exact Hlit|]. apply IH. simpl in Hlen. lia.
  - constructor; [congruence|]. apply IH. simpl in Hlen. lia.
Qed.

Lemma replaceAll_free (c : N) r lit s :
  Forall (fun x => x <> c) lit -> Forall (fun x => x <> c) s ->
  Forall (fun x => x <> c) (replaceAll r [Lit lit] s).
Proof.
  intros Hlit Hs. apply replaceFrom_Forall; [|exact Hs].
  intros caps. unfold expand. simpl. now rewrite app_nil_r.
Qed.

Lemma replaceAll_collapse c n m s :
  1 <= n ->
  replaceAll (atLeast n (chr c)) [Lit (repeat c m)] s
  = collapseFrom (S (length s)) c n m s.
Proof. intros Hn. now apply replaceFrom_collapse. Qed.

(** What one pass of [normalizeWhitespace] leaves: no CR, no two spaces or
    tabs in a row, no four line feeds in a row. *)
Lemma normalizeWhitespace_normal text :
  let out := normalizeWhitespace text in
  Forall (fun x => x <> CR) out
  /\ noRun SP 2 out /\ noRun TAB 2 out /\ noRun LF 4 out.
Proof.
  unfold normalizeWhitespace. cbv zeta.
  set (t1 := replaceAll (lit _) _ text).
  set (t2 := replaceAll (chr CR) [Lit [LF]] t1).
  change (plus (chr SP)) with (atLeast 1 (chr SP)).
  change (plus (chr TAB)) with (atLeast 1 (chr TAB)).
  change [Lit [SP]] with [Lit (repeat SP 1)].
  change [Lit [TAB]] with [Lit (repeat TAB 1)].
  change [Lit [LF; LF; LF]] with [Lit (repeat LF 3)].
  assert (H2 : Forall (fun x => x <> CR) t2).
  { apply replaceFrom_chr_free; [repeat constructor; discriminate | lia]. }
  set (t3 := replaceAll (atLeast 1 (chr SP)) _ t2).
  set (t4 := replaceAll (atLeast 1 (chr TAB)) _ t3).
  assert (H3 : noRun SP 2 t3).
  { subst t3. rewrite replaceAll_collapse by lia. apply noRun_collapse; lia. }
  assert (H4 : noRun SP 2 t4 /\ noRun TAB 2 t4).
  { subst t4. rewrite replaceAll_collapse by lia. split.
    - apply noRun_collapse_other; try lia; [discriminate | exact H3].
    - apply noRun_collapse; lia. }
  destruct H4 as [H4s H4t]. split.
  - do 3 (apply replaceAll_free; [repeat constructor; discriminate|]). exact H2.
  - rewrite replaceAll_collapse by lia. split; [|split].
    + apply noRun_collapse_other; try lia; [discriminate | exact H4s].
    + apply noRun_collapse_other; try lia; [discriminate | exact H4t].
    + apply noRun_collapse; lia.
Qed.

Lemma replaceAll_Needs (P : N -> Prop) r tpl s :
  Needs P r -> Forall P s -> replaceAll r tpl s = s.
Proof.
  intros Hr Hs. apply replaceFrom_nomatch. intros prev' s' Hsuf.
  apply Needs_none with (P := P); [exact Hr|]. simpl. eapply Suffix_Forall; eauto.
Qed.

Lemma chr_Needs c : Needs (fun x => x <> c) (chr c).
Proof. intros x Hx. apply N.eqb_neq. congruence. Qed.

Lemma normalizeWhitespace_fixed text :
  Forall (fun x => x <> CR) text -> noRun SP 2 text -> noRun TAB 2 text ->
  noRun LF 4 text -> normalizeWhitespace text = text.
Proof.
  intros Hcr Hsp Htab Hlf. unfold normalizeWhitespace.
  rewrite (replaceAll_Needs (fun x => x <> CR) (lit _) _ text);
    [| left; apply chr_Needs | exact Hcr].
  rewrite (replaceAll_Needs (fun x => x <> CR) (chr CR) _ text);
    [| apply chr_Needs | exact Hcr].
  change (plus (chr SP)) with (atLeast 1 (chr SP)).
  change (plus (chr TAB)) with (atLeast 1 (chr TAB)).
  change [Lit [SP]] with [Lit (repeat SP 1)].
  change [Lit [TAB]] with [Lit (repeat TAB 1)].
  change [Lit [LF; LF; LF]] with [Lit (repeat LF 3)].
  rewrite (replaceAll_collapse SP 1 1 text) by lia.
  rewrite (collapse_same SP 1 1 2 _ text); [| lia | intros; lia | exact Hsp].
  rewrite (replaceAll_collapse TAB 1 1 text) by lia.
  rewrite (collapse_same TAB 1 1 2 _ text); [| lia | intros; lia | exact Htab].
  rewrite (replaceAll_collapse LF 4 3 text) by lia.
  apply (collapse_same LF 4 3 4); [lia | intros; lia | exact Hlf].
Qed.

Lemma normalizeWhitespace_idempotent text :
  normalizeWhitespace (normalizeWhitespace text) = normalizeWhitespace text.
Proof.
  destruct (normalizeWhitespace_normal text) as (H1 & H2 & H3 & H4).
  now apply normalizeWhitespace_fixed.
Qed.

(** The pipeline stages are run by [vm_compute] on concrete documents and
    never unfolded by the proof search. *)
#[local] Opaque preprocessText segmentIntoBlocks.

(** ** Lists and strings *)

Lemma fold_left_invariant {A B : Type} (I : A -> Prop) (f : A -> B -> A) l a :
  I a -> (forall a b, I a -> I (f a b)) -> I (fold_left f l a).
Proof.
  revert a. induction l as [|b l IH]; simpl; intros a Ha Hf; auto.
Qed.

Lemma pushSpread_Ok {A : Type} engine (array items out : list A) :
  pushSpread engine array items = Ok out ->
  out = array ++ items /\ length items <= Pos.to_nat (maxArguments engine).
Proof.
  unfold pushSpread. destruct (Nat.leb_spec (length items)
                                 (Pos.to_nat (maxArguments engine)));
    [|discriminate].
  intros [= <-]. auto.
Qed.

Lemma pushSpread_fits {A : Type} engine (array items : list A) :
  length items <= Pos.to_nat (maxArguments engine) ->
  pushSpread engine array items = Ok (array ++ items).
Proof.
  intros H. unfold pushSpread.
  now replace (length items <=? _) with true by (symmetry; now apply Nat.leb_le).
Qed.

Lemma pushSpread_one {A : Type} engine (array : list A) (x : A) :
  pushSpread engine array [x] = Ok (array ++ [x]).
Proof. apply pushSpread_fits. simpl. lia. Qed.

Lemma pushSpread_Throw {A : Type} engine (array items : list A) e :
  pushSpread engine array items = Throw e ->
  e = RangeError /\ Pos.to_nat (maxArguments engine) < length items.
Proof.
  unfold pushSpread. destruct (Nat.leb_spec (length items)
                                 (Pos.to_nat (maxArguments engine)));
    [discriminate|].
  intros [= <-]. auto.
Qed.

Lemma IndexContiguous_seq base l :
  IndexContiguous base l <-> List.map idx l = seq base (length l).
Proof.
  revert base. induction l as [|c l IH]; simpl; intros base.
  - tauto.
  - rewrite IH. split.
    + intros [-> ->]. reflexivity.
    + intros H. injection H as H1 H2. auto.
Qed.

Lemma increasingFrom_weaken lo lo' l :
  lo' <= lo -> increasingFrom lo l -> increasingFrom lo' l.
Proof. destruct l; simpl; intuition lia. Qed.

Lemma increasingFrom_filter p lo l :
  increasingFrom lo l -> increasingFrom lo (List.filter p l).
Proof.
  revert lo. induction l as [|c l IH]; simpl; intros lo H; auto.
  destruct H as [H1 H2]. destruct (p c); simpl.
  - split; auto.
  - apply IH. eapply increasingFrom_weaken; [|exact H2]. lia.
Qed.

Lemma increasingFrom_contiguous base l :
  IndexContiguous base l -> increasingFrom base l.
Proof.
  revert base. induction l as [|c l IH]; simpl; intros base H; auto.
  destruct H as [-> H]. split; auto.
Qed.

Lemma increasingFrom_nth lo l i c :
  increasingFrom lo l -> nth_error l i = Some c -> lo <= idx c.
Proof.
  revert lo i. induction l as [|d l IH]; intros lo [|i]; simpl; intros H E;
    try discriminate.
  - injection E as ->. tauto.
  - destruct H as [H1 H2]. specialize (IH _ _ H2 E). lia.
Qed.

Lemma increasingFrom_increasing lo l : increasingFrom lo l -> IndexIncreasing l.
Proof.
  revert lo. induction l as [|c l IH]; intros lo H i j ci cj Hij Hi Hj.
  - destruct i; discriminate.
  - destruct H as [H1 H2]. destruct j as [|j]; [lia|]. simpl in Hj.
    destruct i as [|i]; simpl in Hi.
    + injection Hi as ->. pose proof (increasingFrom_nth _ _ _ _ H2 Hj). lia.
    + eapply (IH _ H2 i j); eauto. lia.
Qed.

(** ** Chunk indices *)

Lemma map_idx_app_seq start l c :
  List.map idx l = seq start (length l) -> idx c = start + length l ->
  List.map idx (l ++ [c]) = seq start (length (l ++ [c])).
Proof.
  intros Hl Hc. rewrite map_app, length_app, seq_app, Hl. simpl. now rewrite Hc.
Qed.

Lemma updateLast_map_idx f l :
  (forall c, idx (f c) = idx c) ->
  List.map idx (updateLast f l) = List.map idx l.
Proof.
  intros Hf. induction l as [|c [|d l] IH]; simpl in *; auto.
  - now rewrite Hf.
  - now rewrite IH.
Qed.

Lemma updateLast_length f l : length (updateLast f l) = length l.
Proof. induction l as [|c [|d l] IH]; simpl in *; auto. Qed.

(** What the three splitting loops maintain: the chunks closed so far are
    numbered from [start], and [currentIndex] is the next number. *)
Lemma tableStep_indexed config header start st line :
  IndexedFrom start st -> IndexedFrom start (tableStep config header st line).
Proof.
  unfold IndexedFrom, tableStep. intros [H1 H2].
  destruct (_ && _); simpl; [|auto].
  split; [apply map_idx_app_seq; auto | rewrite length_app; simpl; lia].
Qed.

Lemma listStep_indexed config start st line :
  IndexedFrom start st -> IndexedFrom start (listStep config st line).
Proof.
  unfold IndexedFrom, listStep. intros [H1 H2].
  destruct (negb _); [auto|]. destruct (_ && _); simpl; [|auto].
  split; [apply map_idx_app_seq; auto | rewrite length_app; simpl; lia].
Qed.

Lemma textStep_indexed config block start st sentence :
  IndexedFrom start st -> IndexedFrom start (textStep config block st sentence).
Proof.
  unfold IndexedFrom, textStep. intros [H1 H2].
  destruct (negb _); [auto|]. destruct (_ && _); simpl; [|auto].
  split; [apply map_idx_app_seq; auto | rewrite length_app; simpl; lia].
Qed.

Lemma IndexedFrom_init start s :
  IndexedFrom start {| chunks := []; currentChunk := s; currentIndex := start |}.
Proof. split; simpl; auto. Qed.

Lemma chunkTableByRows_indices block start config out :
  chunkTableByRows block start config = Ok out ->
  List.map idx out = seq start (length out).
Proof.
  unfold chunkTableByRows. destruct (tableHeaderLines _) as [headerLines|]; simpl;
    [|discriminate].
  set (st := fold_left _ _ _).
  assert (H : IndexedFrom start st).
  { apply fold_left_invariant; [apply IndexedFrom_init|].
    intros; now apply tableStep_indexed. }
  destruct H as [H1 H2].
  destruct (_ <? _); intros [= <-]; auto. apply map_idx_app_seq; auto.
Qed.

Lemma chunkListByItems_indices block start config :
  let out := chunkListByItems block start config in
  List.map idx out = seq start (length out).
Proof.
  unfold chunkListByItems. set (st := fold_left _ _ _).
  assert (H : IndexedFrom start st).
  { apply fold_left_invariant; [apply IndexedFrom_init|].
    intros; now apply listStep_indexed. }
  destruct H as [H1 H2]. simpl.
  destruct (truthy _); auto. apply map_idx_app_seq; auto.
Qed.

Lemma chunkTextBySentences_indices block start config :
  let out := chunkTextBySentences block start config in
  List.map idx out = seq start (length out).
Proof.
  unfold chunkTextBySentences. set (st := textLoop _ _ _).
  assert (H : IndexedFrom start st).
  { apply (fold_left_invariant (IndexedFrom start)); [apply IndexedFrom_init|].
    intros; now apply textStep_indexed. }
  destruct H as [H1 H2]. simpl.
  destruct (_ && _); [apply map_idx_app_seq; auto|].
  destruct (_ && _); [now rewrite updateLast_map_idx, updateLast_length|].
  destruct (truthy _); auto. apply map_idx_app_seq; auto.
Qed.

Lemma chunkBlock_indices block start config out :
  chunkBlock block start config = Ok out ->
  List.map idx out = seq start (length out).
Proof.
  unfold chunkBlock. destruct (_ <=? _).
  - intros [= <-]. reflexivity.
  - destruct (ContentBlock.type block).
    + intros [= <-]. apply chunkTextBySentences_indices.
    + apply chunkTableByRows_indices.
    + intros [= <-]. apply chunkListByItems_indices.
    + intros [= <-]. apply chunkTextBySentences_indices.
Qed.

Lemma map_idx_setPageNumber p l :
  List.map idx (List.map (setPageNumber p) l) = List.map idx l.
Proof. rewrite map_map. reflexivity. Qed.

Lemma chunkBlocks_indices engine blocks pageNumber config acc out :
  List.map idx acc = seq 0 (length acc) ->
  chunkBlocks engine blocks pageNumber config acc (length acc) = Ok out ->
  List.map idx out = seq 0 (length out).
Proof.
  revert acc. induction blocks as [|block blocks IH]; simpl; intros acc Hacc.
  - intros [= <-]. exact Hacc.
  - destruct (chunkBlock block (length acc) config) as [blockChunks|] eqn:E;
      simpl; [|discriminate].
    apply chunkBlock_indices in E.
    set (stamped := match pageNumber with Some p => _ | None => _ end).
    assert (Hs : List.map idx stamped = List.map idx blockChunks
                 /\ length stamped = length blockChunks).
    { subst stamped. destruct pageNumber; [|auto].
      now rewrite map_idx_setPageNumber, length_map. }
    destruct Hs as [Hs1 Hs2].
    destruct (pushSpread engine acc stamped) as [pushed|] eqn:Ep;
      simpl; [|discriminate].
    apply pushSpread_Ok in Ep as [-> _].
    replace (length acc + length blockChunks) with (length (acc ++ stamped))
      by (rewrite length_app; lia).
    apply IH. rewrite map_app, length_app, seq_app, Hacc, Hs1, Hs2, E. reflexivity.
Qed.

Lemma overlapFrom_meta overlapSize prev l :
  List.map idx (overlapFrom overlapSize prev l) = List.map idx l.
Proof.
  revert prev. induction l as [|c l IH]; simpl; intros prev; auto.
  rewrite IH. f_equal. unfold overlapChunk. now destruct (negb _).
Qed.

Lemma addOverlap_indices l overlapSize :
  List.map idx (addOverlap l overlapSize) = List.map idx l.
Proof.
  unfold addOverlap. destruct (_ || _); auto.
  destruct l as [|c l]; simpl; auto. now rewrite overlapFrom_meta.
Qed.

(** ** C1: chunk indices *)

(** C1 (as amended). Before the final size filter the chunks of one call are
    numbered 0, 1, 2, ... without a gap, and overlap injection keeps the
    numbers; the returned list is what the filter leaves of them, so its
    indices increase strictly, but they may skip values and need not start
    at 0. *)
Theorem semanticChunk_indices :
  forall engine text pageNumber config returned,
    semanticChunk engine text pageNumber config = Ok returned ->
    exists allChunks,
      chunkBlocks engine (blocksOf engine text) pageNumber config [] 0 = Ok allChunks
      /\ IndexContiguous 0 allChunks
      /\ IndexContiguous 0 (addOverlap allChunks (overlapSize config))
      /\ returned = List.filter (bigEnough config)
                                (addOverlap allChunks (overlapSize config))
      /\ IndexIncreasing returned.
Proof.
  intros up text pageNumber config returned. unfold semanticChunk.
  destruct (length (blocksOf up text) =? 0) eqn:E.
  - apply Nat.eqb_eq in E. destruct (blocksOf up text); [|discriminate].
    intros [= <-]. exists []. simpl. repeat split; auto.
    intros i j ci cj _ Hi. destruct i; discriminate.
  - destruct (chunkBlocks _ _ _ _ _ _) as [allChunks|] eqn:Hall; simpl; [|discriminate].
    intros [= <-]. exists allChunks.
    assert (Hc : IndexContiguous 0 allChunks).
    { apply IndexContiguous_seq.
      now apply (chunkBlocks_indices _ _ _ _ [] _ eq_refl Hall). }
    assert (Ho : IndexContiguous 0 (addOverlap allChunks (overlapSize config))).
    { apply IndexContiguous_seq. apply IndexContiguous_seq in Hc.
      rewrite addOverlap_indices, Hc.
      rewrite <- (length_map idx (addOverlap _ _)), addOverlap_indices, length_map.
      reflexivity. }
    repeat split; auto.
    apply (increasingFrom_increasing 0), increasingFrom_filter,
      increasingFrom_contiguous, Ho.
Qed.

Lemma semanticChunk_indices_witness :
  exists returned,
    semanticChunk sampleEngine headingThenProse None DEFAULT_CONFIG = Ok returned
    /\ exists allChunks,
      chunkBlocks sampleEngine (blocksOf sampleEngine headingThenProse) None DEFAULT_CONFIG [] 0
        = Ok allChunks
      /\ IndexContiguous 0 allChunks
      /\ IndexContiguous 0 (addOverlap allChunks (overlapSize DEFAULT_CONFIG))
      /\ returned = List.filter (bigEnough DEFAULT_CONFIG)
                                (addOverlap allChunks (overlapSize DEFAULT_CONFIG))
      /\ IndexIncreasing returned.
Proof.
  eexists. split; [vm_compute; reflexivity|].
  apply (semanticChunk_indices sampleEngine headingThenProse None DEFAULT_CONFIG).
  vm_compute. reflexivity.
Defined.

(** C1 as stated fails: the heading "Skills" becomes chunk 0 and the
    paragraph chunk 1; the filter drops the six-character heading, and the
    list returned starts at index 1. *)
Lemma semanticChunk_index_gap :
  exists returned,
    semanticChunk sampleEngine headingThenProse None DEFAULT_CONFIG = Ok returned
    /\ List.map idx returned = [1]
    /\ ~ IndexContiguous 0 returned.
Proof.
  eexists. split; [vm_compute; reflexivity|]. split; [reflexivity|].
  simpl. intros [H _]. discriminate H.
Qed.

(** ** C6: overlap injection *)

Lemma eqb_eq a b : JS.eqb a b = true <-> a = b.
Proof.
  revert b. induction a as [|x a IH]; destruct b as [|y b]; simpl.
  - tauto.
  - split; discriminate.
  - split; discriminate.
  - rewrite andb_true_iff, N.eqb_eq, IH. split.
    + intros [-> ->]. reflexivity.
    + intros [= -> ->]. auto.
Qed.

Lemma startsWith_app s p : startsWith s p = true <-> exists t, s = p ++ t.
Proof.
  revert s. induction p as [|x p IH]; intros s; simpl.
  - split; [intros _; now exists s | reflexivity].
  - destruct s as [|y s].
    + split; [discriminate | intros [t Ht]; discriminate].
    + rewrite andb_true_iff, N.eqb_eq, IH. split.
      * intros [-> [t ->]]. now exists t.
      * intros [t [= -> ->]]. split; [reflexivity | now exists t].
Qed.

Lemma startsWith_firstn s p n :
  startsWith s p = true -> startsWith s (firstn n p) = true.
Proof.
  rewrite !startsWith_app. intros [t ->].
  exists (skipn n p ++ t). now rewrite app_assoc, firstn_skipn.
Qed.

Lemma sliceLast_lastChars n s : n <> 0 -> sliceLast n s = lastChars n s.
Proof. unfold sliceLast. destruct n; [congruence | reflexivity]. Qed.

Lemma overlapFrom_nth overlapSize prev l i p c :
  nth_error (prev :: l) i = Some p -> nth_error l i = Some c ->
  nth_error (overlapFrom overlapSize prev l) i = Some (overlapChunk overlapSize p c).
Proof.
  revert prev i. induction l as [|d l IH]; intros prev i Hp Hc.
  - destruct i; discriminate.
  - destruct i as [|i]; simpl in *.
    + congruence.
    + now apply IH.
Qed.

Lemma addOverlap_nth overlapSize l i p c :
  overlapSize <> 0 -> nth_error l i = Some p -> nth_error l (S i) = Some c ->
  nth_error (addOverlap l overlapSize) (S i) = Some (overlapChunk overlapSize p c).
Proof.
  intros Hov Hp Hc. unfold addOverlap.
  destruct l as [|first [|second rest]]; try (destruct i; discriminate).
  replace (overlapSize =? 0) with false by (symmetry; now apply Nat.eqb_neq).
  change (nth_error (overlapFrom overlapSize first (second :: rest)) i
          = Some (overlapChunk overlapSize p c)).
  apply overlapFrom_nth; auto.
Qed.

Lemma setHasOverlap_same m :
  hasOverlap m = false -> setHasOverlap false m = m.
Proof. destruct m; simpl; intros ->; reflexivity. Qed.

(** C6. In overlap injection, a chunk that already starts with the tail (the
    last [overlapSize] code units) of its predecessor keeps its content, and
    its [hasOverlap] is false. The injection loop runs when [overlapSize] is
    not 0; when it is 0 the chunks are returned as they are, and they are
    left with the [hasOverlap = false] the splitters gave them. *)
Theorem addOverlap_no_duplicate :
  forall chunks overlapSize i prevChunk chunk,
    nth_error chunks i = Some prevChunk ->
    nth_error chunks (S i) = Some chunk ->
    overlapSize <> 0 \/ hasOverlap (metadata chunk) = false ->
    startsWith (content chunk) (lastChars overlapSize (content prevChunk)) = true ->
    exists chunk',
      nth_error (addOverlap chunks overlapSize) (S i) = Some chunk'
      /\ content chunk' = content chunk
      /\ hasOverlap (metadata chunk') = false
      /\ metadata chunk' = setHasOverlap false (metadata chunk).
Proof.
  intros l overlapSize i p c Hp Hc Hcase Hstart.
  destruct (Nat.eq_dec overlapSize 0) as [->|Hov].
  - destruct Hcase as [|Hfresh]; [congruence|].
    exists c. unfold addOverlap. rewrite orb_true_r.
    now rewrite setHasOverlap_same.
  - exists {| content := content c; metadata := setHasOverlap false (metadata c) |}.
    rewrite (addOverlap_nth _ _ _ _ _ Hov Hp Hc). unfold overlapChunk.
    rewrite (sliceLast_lastChars _ _ Hov).
    unfold slicePrefix. rewrite (startsWith_firstn _ _ 50 Hstart). simpl. auto.
Qed.

Lemma addOverlap_no_duplicate_witness :
  exists chunk',
    nth_error (addOverlap [newChunk (str "hello world") 0 TextT High;
                           newChunk (str "world again") 1 TextT High] 5) 1
      = Some chunk'
    /\ content chunk' = str "world again"
    /\ hasOverlap (metadata chunk') = false
    /\ metadata chunk'
       = setHasOverlap false (metadata (newChunk (str "world again") 1 TextT High)).
Proof.
  apply (addOverlap_no_duplicate
           [newChunk (str "hello world") 0 TextT High;
            newChunk (str "world again") 1 TextT High] 5 0
           (newChunk (str "hello world") 0 TextT High)
           (newChunk (str "world again") 1 TextT High));
    [reflexivity | reflexivity | left; discriminate | reflexivity].
Defined.

(** ** C5: table headers *)

Lemma headerOf_join lines headerLines :
  tableHeaderLines lines = Ok headerLines ->
  join [LF] headerLines = headerOf lines.
Proof.
  destruct lines as [|l0 [|l1 rest]]; simpl; try discriminate.
  - intros [= <-]. reflexivity.
  - destruct (_ || _); intros [= <-]; reflexivity.
Qed.

Lemma tableStep_invariant config header st line :
  TableInvariant header st -> TableInvariant header (tableStep config header st line).
Proof.
  unfold TableInvariant, tableStep. intros [Hchunks Hcur].
  destruct (_ && _) eqn:E; simpl.
  - apply andb_true_iff in E as [_ E]. apply negb_true_iff in E.
    split; [|right; now exists line].
    apply Forall_app. split; [assumption|]. constructor; [|constructor]. simpl.
    destruct Hcur as [Hcur|Hcur]; [|assumption].
    apply eqb_eq in Hcur. congruence.
  - split; [assumption|]. right. destruct Hcur as [->|[rows ->]].
    + now exists line.
    + exists (rows ++ LF :: line). now rewrite <- app_assoc.
Qed.

Lemma chunkTableByRows_header block start config out :
  chunkTableByRows block start config = Ok out ->
  Forall (fun c => HeaderThenRows (headerOf (split LF (ContentBlock.text block)))
                                  (content c)) out.
Proof.
  unfold chunkTableByRows.
  destruct (tableHeaderLines _) as [headerLines|] eqn:Eh; simpl; [|discriminate].
  rewrite (headerOf_join _ _ Eh).
  set (header := headerOf _). set (st := fold_left _ _ _).
  assert (H : TableInvariant header st).
  { apply fold_left_invariant.
    - split; simpl; auto.
    - intros; now apply tableStep_invariant. }
  destruct H as [Hchunks Hcur].
  destruct (Nat.ltb_spec (length header) (length (currentChunk st)));
    intros [= <-]; auto.
  apply Forall_app. split; [assumption|]. constructor; [|constructor]. simpl.
  destruct Hcur as [Hcur|Hcur]; [|assumption]. rewrite Hcur in *. lia.
Qed.

(** C5. When a table block larger than [tableMaxSize] is split into two or
    more chunks, every chunk's content starts with the same header: the
    block's first line, and its second line too when that line contains '-'
    or '='; the header is followed by a line break and the rows. *)
Theorem table_chunks_start_with_header :
  forall block startIndex config out,
    ContentBlock.type block = TableT ->
    tableMaxSize config < length (ContentBlock.text block) ->
    chunkBlock block startIndex config = Ok out ->
    2 <= length out ->
    forall c, In c out ->
      startsWith (content c) (headerOf (split LF (ContentBlock.text block))) = true
      /\ exists rows,
           content c = headerOf (split LF (ContentBlock.text block)) ++ LF :: rows.
Proof.
  intros block start config out Hty Hbig Hout _ c Hc.
  unfold chunkBlock in Hout. rewrite Hty in Hout. simpl in Hout.
  destruct (Nat.leb_spec (length (ContentBlock.text block)) (tableMaxSize config));
    [lia|].
  apply chunkTableByRows_header in Hout.
  rewrite Forall_forall in Hout. destruct (Hout c Hc) as [rows Hrows].
  split; [|now exists rows].
  apply startsWith_app. now exists (LF :: rows).
Qed.

Lemma table_chunks_start_with_header_witness :
  exists out,
    chunkBlock smallTableBlock 0 tinyConfig = Ok out
    /\ length out = 3
    /\ forall c, In c out ->
         startsWith (content c) (headerOf (split LF smallTable)) = true
         /\ exists rows, content c = headerOf (split LF smallTable) ++ LF :: rows.
Proof.
  eexists. split; [vm_compute; reflexivity|]. split; [reflexivity|].
  apply (table_chunks_start_with_header smallTableBlock 0 tinyConfig);
    [reflexivity | vm_compute; lia | vm_compute; reflexivity | simpl; lia].
Defined.

(** ** What the splitters establish for every chunk *)

Lemma fold_left_invariant_In {A B : Type} (I : A -> Prop) (f : A -> B -> A) l a :
  I a -> (forall a b, In b l -> I a -> I (f a b)) -> I (fold_left f l a).
Proof.
  revert a. induction l as [|b l IH]; simpl; intros a Ha Hf.
  - exact Ha.
  - apply IH; auto.
Qed.

Lemma in_longest x l : In x l -> length x <= longest l.
Proof.
  intros H. unfold longest.
  assert (Hall : Forall (fun k => k <= list_max (List.map (@length N) l))
                        (List.map (@length N) l)) by now apply list_max_le.
  rewrite Forall_forall in Hall. apply Hall. now apply in_map.
Qed.

Lemma in_skipn {A : Type} (x : A) n l : In x (skipn n l) -> In x l.
Proof.
  revert l. induction n as [|n IH]; intros [|y l]; simpl; auto.
Qed.

Lemma Fresh_newChunk text i ty conf : Fresh (newChunk text i ty conf).
Proof. split; reflexivity. Qed.

Lemma Forall_snoc {A : Type} (P : A -> Prop) l x :
  Forall P l -> P x -> Forall P (l ++ [x]).
Proof. intros. apply Forall_app. split; auto. Qed.

Lemma updateLast_Forall (S W : Chunk -> Prop) f l :
  Forall S l -> (forall c, S c -> W c) -> (forall c, S c -> W (f c)) ->
  Forall W (updateLast f l).
Proof.
  intros Hl Hweak Hlast. induction l as [|c [|d l] IH]; simpl.
  - constructor.
  - inversion Hl; subst. constructor; auto.
  - inversion Hl; subst. constructor; auto.
Qed.

Lemma header_length lines headerLines :
  tableHeaderLines lines = Ok headerLines ->
  length (join [LF] headerLines) <= 2 * longest lines + 1.
Proof.
  destruct lines as [|l0 [|l1 rest]]; simpl; try discriminate.
  - intros [= <-]. simpl. lia.
  - pose proof (in_longest l0 (l0 :: l1 :: rest) (or_introl eq_refl)) as H0.
    pose proof (in_longest l1 (l0 :: l1 :: rest) (or_intror (or_introl eq_refl))) as H1.
    destruct (_ || _); intros [= <-]; simpl; rewrite ?length_app; simpl; lia.
Qed.

Lemma chunkTableByRows_FromBlock block start config out :
  ContentBlock.type block = TableT ->
  chunkTableByRows block start config = Ok out ->
  Forall (FromBlock config block) out.
Proof.
  intros Hty. unfold chunkTableByRows.
  destruct (tableHeaderLines _) as [headerLines|] eqn:Eh; simpl; [|discriminate].
  pose proof (header_length _ _ Eh) as Hh.
  set (lines := split LF (ContentBlock.text block)) in *.
  set (header := join [LF] headerLines) in *.
  set (st := fold_left _ _ _).
  set (B := splitBound config block).
  assert (HB : tableMaxSize config <= B /\ 3 * longest lines + 2 <= B).
  { subst B. unfold splitBound. rewrite Hty. fold lines. lia. }
  assert (Hchunk : forall s i, length s <= B ->
                     FromBlock config block (newChunk s i TableT High)).
  { intros s i Hs. split; [apply Fresh_newChunk|]. split; [now rewrite Hty|exact Hs]. }
  assert (H : Forall (FromBlock config block) (chunks st)
              /\ length (currentChunk st) <= B).
  { apply fold_left_invariant_In.
    - split; simpl; [constructor|lia].
    - intros a line Hin [Ha1 Ha2]. apply in_skipn, in_longest in Hin.
      unfold tableStep.
      destruct (tableMaxSize config <? _) eqn:E1; simpl.
      + destruct (JS.eqb (currentChunk a) header) eqn:E2; simpl.
        * split; [assumption|]. apply eqb_eq in E2. rewrite E2.
          rewrite length_app. simpl. fold lines in Hin. lia.
        * split; [apply Forall_snoc; auto|].
          rewrite length_app. simpl. fold lines in Hin. lia.
      + split; [assumption|]. apply Nat.ltb_ge in E1. lengths. }
  destruct H as [H1 H2].
  destruct (_ <? _); intros [= <-]; auto. apply Forall_snoc; auto.
Qed.

Lemma chunkListByItems_FromBlock block start config :
  ContentBlock.type block = ListT ->
  Forall (FromBlock config block) (chunkListByItems block start config).
Proof.
  intros Hty. unfold chunkListByItems.
  set (lines := split LF (ContentBlock.text block)).
  set (st := fold_left _ _ _).
  set (B := splitBound config block).
  assert (HB : maxChunkSize config <= B /\ longest lines <= B).
  { subst B. unfold splitBound. rewrite Hty. fold lines. lia. }
  assert (Hchunk : forall s i, length s <= B ->
                     FromBlock config block (newChunk s i ListT High)).
  { intros s i Hs. split; [apply Fresh_newChunk|]. split; [now rewrite Hty|exact Hs]. }
  assert (H : Forall (FromBlock config block) (chunks st)
              /\ length (currentChunk st) <= B).
  { apply fold_left_invariant_In.
    - split; simpl; [constructor|lia].
    - intros a line Hin [Ha1 Ha2]. apply in_longest in Hin.
      unfold listStep. destruct (negb _); [auto|].
      destruct (maxChunkSize config <? _) eqn:E1; simpl.
      + destruct (0 <? length (currentChunk a)) eqn:E2; simpl.
        * split; [apply Forall_snoc; auto | lia].
        * split; [assumption|]. apply Nat.ltb_ge in E2.
          destruct (currentChunk a); simpl in *; lia.
      + split; [assumption|]. apply Nat.ltb_ge in E1. lengths. }
  destruct H as [H1 H2].
  destruct (truthy _); auto. apply Forall_snoc; auto.
Qed.

Lemma truthy_length s : truthy s = true <-> 0 < length s.
Proof. destruct s; simpl; split; (discriminate || lia || auto). Qed.

Lemma in_fragmentsOf text sentence :
  In sentence (sentencesOf text) -> truthy (trim sentence) = true ->
  In (trim sentence) (fragmentsOf text).
Proof.
  intros Hin Ht. unfold fragmentsOf. apply filter_In. split; [|exact Ht].
  now apply in_map.
Qed.

Lemma chunkTextBySentences_FromBlock block start config :
  ContentBlock.type block <> TableT -> ContentBlock.type block <> ListT ->
  Forall (FromBlock config block) (chunkTextBySentences block start config).
Proof.
  intros Hty1 Hty2. unfold chunkTextBySentences.
  set (st := textLoop block start config).
  set (L := longest (fragmentsOf (ContentBlock.text block))).
  set (B0 := Nat.max (maxChunkSize config) (minChunkSize config + L)).
  assert (HB : splitBound config block = B0 + minChunkSize config).
  { unfold splitBound. destruct (ContentBlock.type block) eqn:E;
      congruence || reflexivity. }
  set (Strong := fun c => Fresh c
                   /\ contentType (metadata c) = ContentBlock.type block
                   /\ length (content c) <= B0).
  assert (Hweak : forall c, Strong c -> FromBlock config block c).
  { intros c (H1 & H2 & H3). split; [|split]; auto. rewrite HB. lia. }
  assert (Hchunk : forall s i conf, length s <= B0 ->
                     Strong (newChunk s i (ContentBlock.type block) conf)).
  { intros s i conf Hs. split; [apply Fresh_newChunk|]. split; [reflexivity|exact Hs]. }
  assert (H : Forall Strong (chunks st) /\ length (currentChunk st) <= B0).
  { apply (fold_left_invariant_In
             (fun st => Forall Strong (chunks st) /\ length (currentChunk st) <= B0)).
    - split; simpl; [constructor|lia].
    - intros a sentence Hin [Ha1 Ha2].
      unfold textStep. destruct (truthy (trim sentence)) eqn:Et; simpl; [|auto].
      pose proof (in_longest _ _ (in_fragmentsOf _ _ Hin Et)) as Hlen. fold L in Hlen.
      destruct (maxChunkSize config <? _) eqn:E1; simpl.
      + destruct (minChunkSize config <=? length (currentChunk a)) eqn:E2; simpl.
        * split; [apply Forall_snoc; auto | lia].
        * split; [assumption|]. apply Nat.leb_gt in E2.
          rewrite !length_app. destruct (truthy (currentChunk a)); simpl; lia.
      + split; [assumption|]. apply Nat.ltb_ge in E1. lengths. }
  destruct H as [H1 H2]. cbv zeta.
  destruct (truthy (currentChunk st)) eqn:Et; simpl.
  - destruct (Nat.leb_spec (minChunkSize config) (length (currentChunk st))).
    + apply Forall_snoc; [eapply Forall_impl; eauto | auto].
    + destruct (0 <? length (chunks st)).
      * eapply updateLast_Forall; eauto.
        intros c (Hf & Hc & Hl). destruct Hf as [Hf1 Hf2].
        split; [split; simpl; auto|]. split; [exact Hc|].
        simpl. rewrite length_app. simpl. lia.
      * apply Forall_snoc; [eapply Forall_impl; eauto | auto].
  - eapply Forall_impl; eauto.
Qed.

Lemma chunkBlock_FromBlock block start config out :
  chunkBlock block start config = Ok out -> Forall (FromBlock config block) out.
Proof.
  unfold chunkBlock.
  destruct (Nat.leb_spec (length (ContentBlock.text block))
              (if ContentType_eqb (ContentBlock.type block) TableT
               then tableMaxSize config else maxChunkSize config)) as [Hfit|Hbig].
  - intros [= <-]. constructor; [|constructor].
    split; [apply Fresh_newChunk|]. split; [reflexivity|]. simpl.
    unfold splitBound. destruct (ContentBlock.type block); simpl in *; lia.
  - destruct (ContentBlock.type block) eqn:Hty.
    + intros [= <-]. apply chunkTextBySentences_FromBlock; congruence.
    + now apply chunkTableByRows_FromBlock.
    + intros [= <-]. now apply chunkListByItems_FromBlock.
    + intros [= <-]. apply chunkTextBySentences_FromBlock; congruence.
Qed.

Lemma FromBlock_setPageNumber config block p c :
  FromBlock config block c -> FromBlock config block (setPageNumber p c).
Proof. intros H. exact H. Qed.

Lemma chunkBlocks_FromBlock (Q : Chunk -> Prop) engine blocks pageNumber config acc i out :
  (forall block c, In block blocks -> FromBlock config block c -> Q c) ->
  Forall Q acc ->
  chunkBlocks engine blocks pageNumber config acc i = Ok out ->
  Forall Q out.
Proof.
  revert acc i. induction blocks as [|block blocks IH]; simpl; intros acc i HQ Hacc.
  - intros [= <-]. exact Hacc.
  - destruct (chunkBlock block i config) as [blockChunks|] eqn:E; simpl; [|discriminate].
    destruct (pushSpread engine acc _) as [pushed|] eqn:Ep; simpl; [|discriminate].
    apply pushSpread_Ok in Ep as [-> _].
    apply chunkBlock_FromBlock in E. apply IH; [intros; eapply HQ; eauto|].
    apply Forall_app. split; [exact Hacc|].
    destruct pageNumber as [p|].
    + apply Forall_map. eapply Forall_impl; [|exact E].
      intros c Hc. apply (HQ block); [now left|].
      now apply FromBlock_setPageNumber.
    + eapply Forall_impl; [|exact E]. intros c Hc. apply (HQ block); [now left|exact Hc].
Qed.

(** ** Overlap injection, chunk by chunk *)

Lemma overlapFrom_nth_inv overlapSize prev l i c :
  nth_error (overlapFrom overlapSize prev l) i = Some c ->
  exists p original,
    nth_error (prev :: l) i = Some p /\ nth_error l i = Some original
    /\ c = overlapChunk overlapSize p original.
Proof.
  revert prev i. induction l as [|d l IH]; intros prev i H.
  - destruct i; discriminate.
  - destruct i as [|i]; simpl in H.
    + injection H as <-. exists prev, d. auto.
    + destruct (IH _ _ H) as (p & original & H1 & H2 & H3).
      exists p, original. auto.
Qed.

Lemma nth_error_idx l k c :
  List.map idx l = seq 0 (length l) -> nth_error l k = Some c -> idx c = k.
Proof.
  intros Hl Hk. apply (map_nth_error idx) in Hk. rewrite Hl in Hk.
  rewrite nth_error_seq in Hk. destruct (k <? length l); [|discriminate].
  injection Hk as <-. reflexivity.
Qed.

Lemma addOverlap_OverlapOf overlapSize l c :
  List.map idx l = seq 0 (length l) -> Forall Fresh l ->
  In c (addOverlap l overlapSize) -> OverlapOf overlapSize l c.
Proof.
  intros Hidx Hfresh Hin. rewrite Forall_forall in Hfresh.
  apply In_nth_error in Hin as [k Hk]. unfold addOverlap in Hk.
  destruct ((length l <=? 1) || (overlapSize =? 0)) eqn:Eearly.
  - pose proof (nth_error_idx _ _ _ Hidx Hk) as Hc. exists c. rewrite Hc.
    split; [exact Hk|]. left. split; [reflexivity|].
    symmetry. apply setHasOverlap_same. apply Hfresh. eapply nth_error_In; eauto.
  - apply orb_false_iff in Eearly as [_ Hov]. apply Nat.eqb_neq in Hov.
    destruct l as [|first rest]; [destruct k; discriminate|].
    destruct k as [|k]; simpl in Hk.
    + injection Hk as <-. exists first. split; [|left; auto].
      change (nth_error (first :: rest) (idx first) = Some first).
      rewrite (nth_error_idx _ 0 first Hidx eq_refl). reflexivity.
    + apply overlapFrom_nth_inv in Hk as (p & original & Hp & Ho & ->).
      pose proof (nth_error_idx _ (S k) original Hidx Ho) as Hi.
      assert (Hic : idx (overlapChunk overlapSize p original) = S k).
      { unfold overlapChunk. destruct (negb _); exact Hi. }
      exists original. rewrite Hic. split; [exact Ho|].
      unfold overlapChunk. destruct (negb _); simpl; [right|left; auto].
      exists p. rewrite Nat.sub_0_r, (sliceLast_lastChars _ _ Hov).
      repeat split; auto. lia.
Qed.

Lemma lastChars_length n s : length (lastChars n s) <= n.
Proof. unfold lastChars. rewrite length_skipn. lia. Qed.

(** The chunks before overlap injection: fresh, numbered from 0, each from
    a block. *)
Lemma chunkBlocks_all engine text pageNumber config allChunks :
  chunkBlocks engine (blocksOf engine text) pageNumber config [] 0 = Ok allChunks ->
  List.map idx allChunks = seq 0 (length allChunks)
  /\ Forall (fun c => exists block, In block (blocksOf engine text)
                                   /\ FromBlock config block c) allChunks.
Proof.
  intros H. split.
  - now apply (chunkBlocks_indices _ _ _ _ [] _ eq_refl H).
  - eapply chunkBlocks_FromBlock; [| constructor | exact H].
    intros block c Hb Hc. exists block. split; assumption.
Qed.

(** [semanticChunk] as the filter of the overlapped chunks of the blocks. *)
Lemma semanticChunk_stages engine text pageNumber config returned :
  semanticChunk engine text pageNumber config = Ok returned ->
  exists allChunks,
    chunkBlocks engine (blocksOf engine text) pageNumber config [] 0 = Ok allChunks
    /\ returned = List.filter (bigEnough config)
                              (addOverlap allChunks (overlapSize config)).
Proof.
  unfold semanticChunk.
  destruct (length (blocksOf engine text) =? 0) eqn:E.
  - apply Nat.eqb_eq in E. destruct (blocksOf engine text); [|discriminate].
    intros [= <-]. exists []. auto.
  - destruct (chunkBlocks _ _ _ _ _ _) as [allChunks|]; simpl; [|discriminate].
    intros [= <-]. exists allChunks. auto.
Qed.

Lemma semanticChunk_chunk engine text pageNumber config returned c :
  semanticChunk engine text pageNumber config = Ok returned ->
  In c returned ->
  exists allChunks original block,
    chunkBlocks engine (blocksOf engine text) pageNumber config [] 0 = Ok allChunks
    /\ OverlapOf (overlapSize config) allChunks c
    /\ nth_error allChunks (idx c) = Some original
    /\ In block (blocksOf engine text)
    /\ FromBlock config block original
    /\ bigEnough config c = true.
Proof.
  intros H Hc. apply semanticChunk_stages in H as (allChunks & Hall & ->).
  apply filter_In in Hc as [Hc Hbig].
  destruct (chunkBlocks_all _ _ _ _ _ Hall) as [Hidx Hfrom].
  assert (Hfresh : Forall Fresh allChunks).
  { eapply Forall_impl; [|exact Hfrom]. intros a (b & _ & Hb & _). exact Hb. }
  pose proof (addOverlap_OverlapOf _ _ _ Hidx Hfresh Hc) as Hov.
  destruct Hov as (original & Ho & Hcases).
  rewrite Forall_forall in Hfrom.
  destruct (Hfrom original (nth_error_In _ _ Ho)) as (block & Hb & Hfb).
  exists allChunks, original, block.
  split; [exact Hall|]. split; [exists original; split; assumption|].
  split; [exact Ho|]. split; [exact Hb|]. split; [exact Hfb|exact Hbig].
Qed.

(** ** C10: overlap metadata *)

(** C10 (as amended). For every chunk returned by [semanticChunk],
    [hasOverlap] is false exactly when the content has [originalLength]
    code units; and when [hasOverlap] is true, the content is the last
    [overlapSize] code units of the content, before overlap, of the chunk
    with the index just below, two line breaks, and the chunk's own content
    before overlap, which has length [originalLength]. The chunk with the
    index just below is taken from the list before overlap injection and
    filtering: the final filter may have dropped it, so it need not be the
    chunk before in the returned list. *)
Theorem semanticChunk_overlap_metadata :
  forall engine text pageNumber config returned,
    semanticChunk engine text pageNumber config = Ok returned ->
    exists allChunks,
      chunkBlocks engine (blocksOf engine text) pageNumber config [] 0 = Ok allChunks
      /\ forall c, In c returned ->
           (hasOverlap (metadata c) = false
            <-> length (content c) = originalLength (metadata c))
           /\ (hasOverlap (metadata c) = true ->
               exists prevChunk original,
                 0 < idx c
                 /\ nth_error allChunks (idx c - 1) = Some prevChunk
                 /\ nth_error allChunks (idx c) = Some original
                 /\ content c = lastChars (overlapSize config) (content prevChunk)
                                  ++ [LF; LF] ++ content original
                 /\ length (content original) = originalLength (metadata c)).
Proof.
  intros up text pageNumber config returned H.
  destruct (semanticChunk_stages _ _ _ _ _ H) as (allChunks & Hall & _).
  exists allChunks. split; [exact Hall|]. intros c Hc.
  destruct (semanticChunk_chunk _ _ _ _ _ _ H Hc)
    as (all' & original & block & Hall' & _ & Ho & _ & Hfb & _).
  rewrite Hall in Hall'. injection Hall' as <-.
  destruct (semanticChunk_chunk _ _ _ _ _ _ H Hc)
    as (all' & original' & _ & Hall' & Hov & _).
  rewrite Hall in Hall'. injection Hall' as <-.
  destruct Hov as (o & Ho' & Hcases). rewrite Ho in Ho'. injection Ho' as <-.
  destruct Hfb as [[Hf1 Hf2] _].
  destruct Hcases as [[Hcontent Hmeta] | (prevChunk & Hpos & Hov & Hprev & Hcontent & Hmeta)].
  - rewrite Hmeta, Hcontent. simpl. split; [split; auto|]. discriminate.
  - rewrite Hmeta, Hcontent. simpl. split.
    + split; [discriminate|]. rewrite !length_app. simpl. lia.
    + intros _. exists prevChunk, original. auto.
Qed.

Lemma semanticChunk_overlap_metadata_witness :
  exists returned,
    semanticChunk sampleEngine headingThenProse None DEFAULT_CONFIG = Ok returned
    /\ exists allChunks,
      chunkBlocks sampleEngine (blocksOf sampleEngine headingThenProse) None DEFAULT_CONFIG [] 0
        = Ok allChunks
      /\ forall c, In c returned ->
           (hasOverlap (metadata c) = false
            <-> length (content c) = originalLength (metadata c))
           /\ (hasOverlap (metadata c) = true ->
               exists prevChunk original,
                 0 < idx c
                 /\ nth_error allChunks (idx c - 1) = Some prevChunk
                 /\ nth_error allChunks (idx c) = Some original
                 /\ content c
                    = lastChars (overlapSize DEFAULT_CONFIG) (content prevChunk)
                      ++ [LF; LF] ++ content original
                 /\ length (content original) = originalLength (metadata c)).
Proof.
  eexists. split; [vm_compute; reflexivity|].
  apply (semanticChunk_overlap_metadata sampleEngine headingThenProse None
           DEFAULT_CONFIG).
  vm_compute. reflexivity.
Defined.

(** C10 as stated fails for the preceding chunk of the returned list. Under
    the default configuration the heading "Skills" is chunk 0 and too short
    for the final filter, so the one chunk returned has index 1 and
    [hasOverlap] true, and nothing precedes it. With an overlap of five
    code units and prose on both sides of the heading, chunks 0 and 2 are
    returned and chunk 1, the heading, is not; chunk 2 starts with "kills",
    the tail of the heading, and not with the tail of chunk 0. *)
Lemma semanticChunk_overlap_from_dropped_chunk :
  (exists c,
     semanticChunk sampleEngine headingThenProse None DEFAULT_CONFIG = Ok [c]
     /\ idx c = 1
     /\ hasOverlap (metadata c) = true)
  /\ (exists first third,
        semanticChunk sampleEngine proseHeadingProse None shortOverlapConfig
        = Ok [first; third]
        /\ idx first = 0 /\ idx third = 2
        /\ hasOverlap (metadata first) = false
        /\ hasOverlap (metadata third) = true
        /\ firstn 7 (content third) = str "kills" ++ [LF; LF]
        /\ ~ exists original,
               content third
               = lastChars 5 (content first) ++ [LF; LF] ++ original).
Proof.
  split.
  - eexists. split; [vm_compute; reflexivity|]. split; reflexivity.
  - eexists. eexists. split; [vm_compute; reflexivity|].
    repeat (split; [reflexivity|]).
    intros [original H]. vm_compute in H. discriminate.
Qed.

(** ** C4: chunk sizes *)




(** ** C2: the final fragment of a text block *)

Lemma join_cons sep a m :
  m <> [] -> join sep (a :: m) = a ++ sep ++ join sep m.
Proof. destruct m; [congruence | reflexivity]. Qed.

Lemma join_snoc sep l x :
  l <> [] -> join sep (l ++ [x]) = join sep l ++ sep ++ x.
Proof.
  induction l as [|a l IH]; intros Hne; [congruence|].
  rewrite <- app_comm_cons, join_cons by (destruct l; discriminate).
  destruct l as [|b l]; [reflexivity|].
  rewrite IH by discriminate. rewrite (join_cons sep a (b :: l)) by discriminate.
  now rewrite <- !app_assoc.
Qed.

Lemma join_merge sep l a b :
  join sep (l ++ [a; b]) = join sep (l ++ [a ++ sep ++ b]).
Proof.
  destruct l as [|c l]; [reflexivity|].
  change ((c :: l) ++ [a; b]) with ((c :: l) ++ [a] ++ [b]).
  rewrite app_assoc, join_snoc by (destruct l; discriminate).
  rewrite !join_snoc by discriminate.
  now rewrite <- !app_assoc.
Qed.

Lemma join_truthy sep l :
  Forall (fun s => truthy s = true) l -> l <> [] -> truthy (join sep l) = true.
Proof.
  intros Hl Hne. destruct l as [|a l]; [congruence|].
  inversion Hl as [|? ? Ha _]; subst.
  destruct a as [|x a]; [discriminate|]. destruct l; reflexivity.
Qed.

Lemma join_snoc_eq sep l l' x :
  Forall (fun s => truthy s = true) l -> Forall (fun s => truthy s = true) l' ->
  join sep l = join sep l' -> join sep (l ++ [x]) = join sep (l' ++ [x]).
Proof.
  intros Hl Hl' E.
  destruct l as [|a l]; destruct l' as [|a' l'].
  - reflexivity.
  - pose proof (join_truthy sep _ Hl' ltac:(discriminate)) as H.
    rewrite <- E in H. discriminate.
  - pose proof (join_truthy sep _ Hl ltac:(discriminate)) as H.
    rewrite E in H. discriminate.
  - rewrite !join_snoc by discriminate. now rewrite E.
Qed.

Lemma piecesOf_truthy st : Forall (fun s => truthy s = true) (piecesOf st).
Proof.
  unfold piecesOf. apply Forall_app. split.
  - apply Forall_forall. intros s Hs. now apply filter_In in Hs.
  - destruct (truthy (currentChunk st)) eqn:E; repeat constructor. exact E.
Qed.

Lemma truthy_app_r a b : truthy b = true -> truthy (a ++ b) = true.
Proof. destruct a; simpl; auto. Qed.

Lemma textStep_pieces config block fragments st sentence :
  truthy (trim sentence) = true ->
  TextInvariant config fragments st ->
  TextInvariant config (fragments ++ [trim sentence])
                (textStep config block st sentence).
Proof.
  intros Ht (Hjoin & Hfrag & Hmin). unfold textStep. rewrite Ht. simpl.
  assert (Hfrag' : Forall (fun s => truthy s = true) (fragments ++ [trim sentence])).
  { apply Forall_app. split; [exact Hfrag | repeat constructor; exact Ht]. }
  pose proof (piecesOf_truthy st) as Hp.
  pose proof (join_snoc_eq [SP] _ _ (trim sentence) Hp Hfrag Hjoin) as Hsnoc.
  destruct (_ && _) eqn:E.
  - apply andb_true_iff in E as [_ E]. apply Nat.leb_le in E.
    split; [|split; [exact Hfrag'|]].
    + rewrite <- Hsnoc. f_equal. unfold piecesOf. simpl.
      rewrite Ht, map_app, filter_app. simpl.
      destruct (truthy (currentChunk st)); simpl; rewrite <- ?app_assoc;
        rewrite ?app_nil_r; reflexivity.
    + simpl. apply Forall_app. split; [exact Hmin | repeat constructor; exact E].
  - split; [|split; [exact Hfrag' | exact Hmin]].
    rewrite <- Hsnoc. unfold piecesOf. simpl.
    destruct (truthy (currentChunk st)) eqn:Ec.
    + rewrite truthy_app_r by now apply truthy_app_r.
      rewrite <- app_assoc.
      change ([currentChunk st] ++ [trim sentence])
        with [currentChunk st; trim sentence].
      now rewrite join_merge.
    + destruct (currentChunk st); [|discriminate]. simpl. rewrite Ht.
      now rewrite app_nil_r.
Qed.

Lemma textStep_skip config block st sentence :
  truthy (trim sentence) = false -> textStep config block st sentence = st.
Proof. intros Ht. unfold textStep. now rewrite Ht. Qed.

Lemma textSteps_pieces config block sentences fragments st :
  TextInvariant config fragments st ->
  TextInvariant config
    (fragments ++ List.filter truthy (List.map trim sentences))
    (fold_left (textStep config block) sentences st).
Proof.
  revert fragments st. induction sentences as [|s sentences IH];
    intros fragments st Inv; simpl.
  - now rewrite app_nil_r.
  - destruct (truthy (trim s)) eqn:Ht.
    + change (trim s :: List.filter truthy (List.map trim sentences))
        with ([trim s] ++ List.filter truthy (List.map trim sentences)).
      rewrite app_assoc. apply IH. now apply textStep_pieces.
    + rewrite textStep_skip by exact Ht. now apply IH.
Qed.

Lemma textLoop_invariant block startIndex config :
  TextInvariant config (fragmentsOf (ContentBlock.text block))
                (textLoop block startIndex config).
Proof.
  unfold textLoop, fragmentsOf.
  apply (textSteps_pieces config block _ []).
  split; [reflexivity|]. split; constructor.
Qed.

Lemma textLoop_indexed block startIndex config :
  IndexedFrom startIndex (textLoop block startIndex config).
Proof.
  apply (fold_left_invariant (IndexedFrom startIndex)); [apply IndexedFrom_init|].
  intros; now apply textStep_indexed.
Qed.

Lemma updateLast_snoc f init lastChunk :
  updateLast f (init ++ [lastChunk]) = init ++ [f lastChunk].
Proof.
  induction init as [|c init IH]; [reflexivity|].
  change (updateLast f (c :: (init ++ [lastChunk])) = c :: (init ++ [f lastChunk])).
  rewrite <- IH. destruct init; reflexivity.
Qed.

Lemma filter_truthy_all l :
  Forall (fun s => truthy s = true) l -> List.filter truthy l = l.
Proof.
  induction 1 as [|s l Hs _ IH]; simpl; [reflexivity|]. now rewrite Hs, IH.
Qed.

Lemma long_truthy n s : 0 < n -> n <= length s -> truthy s = true.
Proof. destruct s; simpl; [lia | reflexivity]. Qed.

Lemma chunkTextBySentences_fresh block startIndex config :
  Forall Fresh (chunkTextBySentences block startIndex config).
Proof.
  unfold chunkTextBySentences. set (st := textLoop block startIndex config).
  assert (H : Forall Fresh (chunks st)).
  { apply (fold_left_invariant (fun st => Forall Fresh (chunks st))); [constructor|].
    intros a sentence Ha. unfold textStep.
    destruct (negb _); [exact Ha|]. destruct (_ && _); simpl; [|exact Ha].
    apply Forall_snoc; [exact Ha | apply Fresh_newChunk]. }
  cbv zeta. destruct (_ && _); [apply Forall_snoc; [exact H | apply Fresh_newChunk]|].
  destruct (_ && _).
  - eapply (updateLast_Forall Fresh Fresh); [exact H | auto |].
    intros c [Hc _]. split; [exact Hc | reflexivity].
  - destruct (truthy _); [apply Forall_snoc; [exact H | apply Fresh_newChunk] | exact H].
Qed.

Lemma snoc_cases {A : Type} (l : list A) :
  l = [] \/ exists init x, l = init ++ [x].
Proof.
  induction l as [|x init _] using rev_ind; [now left|].
  right. now exists init, x.
Qed.

Lemma chunkTextBySentences_content block startIndex config :
  join [SP] (List.filter truthy
               (List.map content (chunkTextBySentences block startIndex config)))
  = join [SP] (fragmentsOf (ContentBlock.text block)).
Proof.
  destruct (textLoop_invariant block startIndex config) as (Hjoin & _ & Hmin).
  rewrite <- Hjoin. unfold chunkTextBySentences, piecesOf.
  set (st := textLoop block startIndex config) in *. cbv zeta.
  destruct (truthy (currentChunk st)) eqn:Et; simpl.
  - destruct (Nat.leb_spec (minChunkSize config) (length (currentChunk st))) as [|Hshort].
    + rewrite map_app, filter_app. simpl. now rewrite Et.
    + destruct (snoc_cases (chunks st)) as [E | (init & lastChunk & E)]; rewrite E in *.
      * simpl. now rewrite Et.
      * rewrite length_app, Nat.add_comm. simpl.
        rewrite updateLast_snoc, !map_app. simpl.
        assert (Hall : Forall (fun s => truthy s = true)
                              (List.map content init ++ [content lastChunk])).
        { change (Forall (fun s => truthy s = true)
                         (List.map content init ++ List.map content [lastChunk])).
          rewrite <- map_app.
          apply Forall_map. eapply Forall_impl; [|exact Hmin].
          intros c Hc. cbv beta in Hc.
          apply (long_truthy (minChunkSize config)); lia. }
        rewrite (filter_truthy_all _ Hall).
        rewrite filter_truthy_all.
        -- rewrite <- app_assoc.
           change ([content lastChunk] ++ [currentChunk st])
             with [content lastChunk; currentChunk st].
           now rewrite join_merge.
        -- apply Forall_app in Hall as [Hi Hl]. apply Forall_app. split; [exact Hi|].
           repeat constructor. apply truthy_app_r. reflexivity.
  - now rewrite app_nil_r.
Qed.

(** C2 as stated fails in [semanticChunk]: the document "Hello world" is not
    empty and shorter than [minChunkSize]; it becomes one heading chunk, and
    the final filter removes it. A sentence that reaches the splitter and
    is kept there as a "low" chunk is removed by the filter in the same way. *)
Lemma semanticChunk_drops_short_document :
  semanticChunk sampleEngine shortDocument None DEFAULT_CONFIG = Ok []
  /\ List.map ContentBlock.type (blocksOf sampleEngine shortSentence)
     = [HeadingT]
  /\ chunkBlocks sampleEngine (blocksOf sampleEngine shortSentence) None tinyConfig [] 0
     = Ok [newChunk shortSentence 0 HeadingT Low]
  /\ semanticChunk sampleEngine shortSentence None tinyConfig = Ok [].
Proof. repeat split; vm_compute; reflexivity. Qed.

(** ** C9: repeated lines *)

Lemma join_split sep s : join [sep] (split sep s) = s.
Proof.
  induction s as [|c s IH]; [reflexivity|]. simpl.
  destruct (N.eqb_spec c sep) as [->|Hne].
  - rewrite join_cons; [now rewrite IH|].
    destruct s; simpl; [discriminate|]. destruct (_ =? _)%N; [discriminate|].
    destruct (split sep s); discriminate.
  - destruct (split sep s) as [|piece rest] eqn:E.
    + simpl in IH. now rewrite <- IH.
    + destruct rest as [|r rest]; simpl in *; now rewrite <- IH.
Qed.

Lemma filter_all {A : Type} (p : A -> bool) l :
  (forall x, In x l -> p x = true) -> List.filter p l = l.
Proof.
  induction l as [|x l IH]; intros H; simpl; [reflexivity|].
  rewrite (H x (or_introl eq_refl)), IH; auto. intros y Hy. apply H. now right.
Qed.

Lemma eqb_refl s : JS.eqb s s = true.
Proof. now apply eqb_eq. Qed.

Lemma eqb_neq a b : a <> b -> JS.eqb a b = false.
Proof.
  intros H. destruct (JS.eqb a b) eqn:E; [|reflexivity].
  apply eqb_eq in E. contradiction.
Qed.

(** The frequency map after the counting loop: the lines counted are those
    whose trimmed content has 6 to 99 code units. *)
Lemma lineFrequency_lookup (lines : list (list N)) (m : gmap (list N) nat)
    (t : list N) :
  fold_left countLine lines m !! t
  = if (5 <? length t) && (length t <? 100) && (0 <? occurrences lines t)
    then Some (default 0 (m !! t) + occurrences lines t)
    else m !! t.
Proof.
  revert m. induction lines as [|line lines IH]; intros m.
  - unfold occurrences. simpl. now rewrite andb_false_r.
  - simpl fold_left. rewrite IH. unfold countLine, occurrences. simpl List.filter.
    destruct (list_eq_dec N.eq_dec (trim line) t) as [->|Hne].
    + rewrite eqb_refl. simpl length.
      destruct ((5 <? length t) && (length t <? 100)) eqn:El; simpl.
      * rewrite lookup_insert_eq. simpl.
        destruct (0 <? length _) eqn:E0.
        -- f_equal. lia.
        -- apply Nat.ltb_ge in E0. f_equal. lia.
      * reflexivity.
    + rewrite (eqb_neq _ _ Hne).
      destruct ((5 <? length (trim line)) && (length (trim line) <? 100)); simpl.
      * now rewrite lookup_insert_ne.
      * reflexivity.
Qed.

Lemma repeatedLines_elem (m : gmap (list N) nat) (t : list N) :
  t ∈ repeatedLinesOf m <-> exists count, m !! t = Some count /\ 2 < count.
Proof.
  unfold repeatedLinesOf.
  apply (map_fold_weak_ind
           (fun (s : gset (list N)) (m : gmap (list N) nat) =>
              t ∈ s <-> exists count, m !! t = Some count /\ 2 < count)).
  - split; [intros H; now apply elem_of_empty in H|].
    intros (count & H & _). rewrite lookup_empty in H. discriminate.
  - intros line count m' r Hnone IH.
    destruct (list_eq_dec N.eq_dec line t) as [->|Hne].
    + setoid_rewrite lookup_insert_eq.
      destruct (Nat.ltb_spec 2 count) as [Hc|Hc].
      * split; [intros _; exists count; auto|].
        intros _. apply elem_of_union. left. now apply elem_of_singleton.
      * rewrite IH. rewrite Hnone. split.
        -- intros (c & H & _). discriminate.
        -- intros (c & [= <-] & H). lia.
    + setoid_rewrite lookup_insert_ne; [|exact Hne].
      destruct (2 <? count); [|exact IH].
      rewrite elem_of_union, elem_of_singleton, IH. split; [|auto].
      intros [H|H]; [congruence|exact H].
Qed.

Lemma repeatedLines_decide (lines : list (list N)) (t : list N) :
  bool_decide (t ∈ repeatedLinesOf (lineFrequencyOf lines))
  = isRepeated 6 99 lines t.
Proof.
  unfold isRepeated, lineFrequencyOf.
  destruct (bool_decide _) eqn:E.
  - apply bool_decide_eq_true, repeatedLines_elem in E as (count & Hl & Hc).
    rewrite lineFrequency_lookup, lookup_empty in Hl.
    destruct ((5 <? length t) && (length t <? 100) && (0 <? occurrences lines t))
      eqn:El; [|discriminate].
    injection Hl as <-. simpl in Hc.
    apply andb_true_iff in El as [El _]. apply andb_true_iff in El as [E1 E2].
    apply Nat.ltb_lt in E1, E2. symmetry.
    repeat (apply andb_true_iff; split);
      [apply Nat.leb_le | apply Nat.leb_le | apply Nat.ltb_lt]; lia.
  - apply bool_decide_eq_false in E. symmetry.
    destruct ((6 <=? length t) && (length t <=? 99) && (2 <? occurrences lines t))
      eqn:El; [|reflexivity].
    exfalso. apply E. apply repeatedLines_elem.
    apply andb_true_iff in El as [El E3]. apply andb_true_iff in El as [E1 E2].
    apply Nat.leb_le in E1, E2. apply Nat.ltb_lt in E3.
    exists (occurrences lines t). split; [|exact E3].
    rewrite lineFrequency_lookup, lookup_empty.
    replace (5 <? length t) with true by (symmetry; apply Nat.ltb_lt; lia).
    replace (length t <? 100) with true by (symmetry; apply Nat.ltb_lt; lia).
    replace (0 <? occurrences lines t) with true by (symmetry; apply Nat.ltb_lt; lia).
    reflexivity.
Qed.

(** C9 (as amended). [removeRepeatedSections] removes exactly the lines
    whose trimmed content has between 6 and 99 code units and is the trimmed
    content of more than two lines of the document: every such line goes,
    every other line stays as it is. *)
Theorem removeRepeatedSections_spec :
  forall text, removeRepeatedSections text = removeRepeatedSpec 6 99 text.
Proof.
  intros text. unfold removeRepeatedSections, removeRepeatedSpec. cbv zeta.
  set (lines := split LF text).
  assert (Hfilter :
    List.filter (fun line => negb (bool_decide
                    (trim line ∈ repeatedLinesOf (lineFrequencyOf lines)))) lines
    = List.filter (fun line => negb (isRepeated 6 99 lines (trim line))) lines).
  { apply filter_ext. intros line. now rewrite repeatedLines_decide. }
  destruct (0 <? base.size (repeatedLinesOf (lineFrequencyOf lines))) eqn:E.
  - now rewrite Hfilter.
  - apply Nat.ltb_ge in E.
    assert (Hempty : repeatedLinesOf (lineFrequencyOf lines) = ∅).
    { apply leibniz_equiv, size_empty_iff. lia. }
    rewrite <- Hfilter, Hempty. rewrite filter_all.
    + subst lines. now rewrite join_split.
    + intros line _. apply negb_true_iff, bool_decide_eq_false.
      apply not_elem_of_empty.
Qed.

(** C9 as stated fails at length 5: the counting loop takes lines longer
    than 5 code units, so three lines "Hello" all stay. *)
Lemma removeRepeatedSections_keeps_length_5 :
  removeRepeatedSections threeHellos = threeHellos
  /\ removeRepeatedSpec 5 99 threeHellos = []
  /\ removeRepeatedSections threeHellos <> removeRepeatedSpec 5 99 threeHellos.
Proof.
  assert (H1 : removeRepeatedSections threeHellos = threeHellos)
    by (vm_compute; reflexivity).
  assert (H2 : removeRepeatedSpec 5 99 threeHellos = [])
    by (vm_compute; reflexivity).
  split; [exact H1|]. split; [exact H2|]. rewrite H1, H2. discriminate.
Qed.

(** ** C3: no [TypeError], and nothing from a blank text *)

Lemma chunkBlock_ok block chunkIndex config :
  TableReady block -> exists out, chunkBlock block chunkIndex config = Ok out.
Proof.
  intros Hready. unfold chunkBlock. destruct (_ <=? _); [eauto|].
  destruct (ContentBlock.type block) eqn:Hty; eauto.
  specialize (Hready Hty). unfold chunkTableByRows.
  destruct (split LF (ContentBlock.text block)) as [|l0 [|l1 rest]];
    simpl in Hready; try lia.
  simpl tableHeaderLines. destruct (_ || _); simpl; destruct (_ <? _); eauto.
Qed.

Lemma stamped_length (pageNumber : option nat) (blockChunks : list Chunk) :
  length (match pageNumber with
          | Some p => List.map (setPageNumber p) blockChunks
          | None => blockChunks
          end) = length blockChunks.
Proof. destruct pageNumber; [apply length_map | reflexivity]. Qed.


Lemma chunkBlocks_Throw engine blocks pageNumber config acc chunkIndex e :
  Forall TableReady blocks ->
  chunkBlocks engine blocks pageNumber config acc chunkIndex = Throw e ->
  e = RangeError /\ Overflows engine config blocks.
Proof.
  intros H. revert acc chunkIndex.
  induction H as [|block blocks Hb _ IH]; intros acc chunkIndex; simpl;
    [discriminate|].
  destruct (chunkBlock_ok block chunkIndex config Hb) as [out E]. rewrite E. simpl.
  destruct (pushSpread engine acc _) as [pushed|e'] eqn:Ep; simpl.
  - intros Ht. destruct (IH _ _ Ht) as [He (b & i & o & Hin & Ho & Hlen)].
    split; [exact He|]. exists b, i, o. split; [now right | auto].
  - intros [= <-]. apply pushSpread_Throw in Ep as [-> Hlen].
    rewrite stamped_length in Hlen. split; [reflexivity|].
    exists block, chunkIndex, out. split; [now left | auto].
Qed.



Lemma semanticChunk_Throw engine text pageNumber config e :
  semanticChunk engine text pageNumber config = Throw e ->
  e = RangeError /\ Overflows engine config (blocksOf engine text).
Proof.
  unfold semanticChunk. destruct (_ =? _); [discriminate|].
  destruct (chunkBlocks engine _ _ _ _ _) as [allChunks|e'] eqn:E; simpl;
    [discriminate|].
  intros [= <-]. apply chunkBlocks_Throw in E; [exact E|].
  apply segmentIntoBlocks_tables.
Qed.




(** ** C7: the five-line table *)

Lemma smallTable_blocks engine :
  blocksOf engine smallTable = [smallTableBlock].
Proof. vm_compute. reflexivity. Qed.

(** C7 (as amended). The five-line table is one block, classified as a table
    with confidence 0.625 > 0.4, and it is chunked into exactly one chunk
    (41 code units, confidence "medium"). [semanticChunk] returns exactly
    that chunk when [minChunkSize] is at most 41 (and the table budget at
    least 41); under the default configuration, whose [minChunkSize] is
    100, the final filter removes it and the result is empty. *)
Theorem smallTable_one_chunk :
  forall engine config,
    41 <= tableMaxSize config ->
    blocksOf engine smallTable = [smallTableBlock]
    /\ ContentBlock.type smallTableBlock = TableT
    /\ PrimFloat.ltb 0.4 (ContentBlock.confidence smallTableBlock) = true
    /\ chunkBlocks engine (blocksOf engine smallTable) None config [] 0
       = Ok [newChunk smallTable 0 TableT Medium]
    /\ (minChunkSize config <= 41 ->
        semanticChunk engine smallTable None config
        = Ok [newChunk smallTable 0 TableT Medium])
    /\ (41 < minChunkSize config ->
        semanticChunk engine smallTable None config = Ok []).
Proof.
  intros up config Hmax.
  assert (Hlen : length smallTable = 41) by reflexivity.
  assert (Htrim : trim smallTable = smallTable) by reflexivity.
  assert (Hchunks : chunkBlocks up (blocksOf up smallTable) None config [] 0
                    = Ok [newChunk smallTable 0 TableT Medium]).
  { rewrite smallTable_blocks. cbn [chunkBlocks]. unfold chunkBlock.
    cbn [smallTableBlock ContentBlock.type ContentBlock.text ContentType_eqb].
    rewrite Hlen. replace (41 <=? tableMaxSize config) with true
      by (symmetry; now apply Nat.leb_le).
    cbn [bind length]. rewrite pushSpread_one. reflexivity. }
  split; [apply smallTable_blocks|]. split; [reflexivity|].
  split; [reflexivity|]. split; [exact Hchunks|].
  assert (Hsem : semanticChunk up smallTable None config
                 = Ok (List.filter (bigEnough config)
                                   [newChunk smallTable 0 TableT Medium])).
  { unfold semanticChunk. rewrite Hchunks, smallTable_blocks. reflexivity. }
  rewrite Hsem. cbn [List.filter]. unfold bigEnough. cbn [content newChunk].
  rewrite Htrim, Hlen. split; intros H.
  - replace (minChunkSize config <=? 41) with true
      by (symmetry; now apply Nat.leb_le). reflexivity.
  - replace (minChunkSize config <=? 41) with false
      by (symmetry; now apply Nat.leb_gt). reflexivity.
Qed.

Lemma smallTable_one_chunk_witness :
  blocksOf sampleEngine smallTable = [smallTableBlock]
  /\ ContentBlock.type smallTableBlock = TableT
  /\ PrimFloat.ltb 0.4 (ContentBlock.confidence smallTableBlock) = true
  /\ chunkBlocks sampleEngine (blocksOf sampleEngine smallTable) None DEFAULT_CONFIG [] 0
     = Ok [newChunk smallTable 0 TableT Medium]
  /\ (minChunkSize DEFAULT_CONFIG <= 41 ->
      semanticChunk sampleEngine smallTable None DEFAULT_CONFIG
      = Ok [newChunk smallTable 0 TableT Medium])
  /\ (41 < minChunkSize DEFAULT_CONFIG ->
      semanticChunk sampleEngine smallTable None DEFAULT_CONFIG = Ok []).
Proof.
  apply (smallTable_one_chunk sampleEngine DEFAULT_CONFIG). simpl. lia.
Defined.

(** C7 as stated fails in its last part: under the default configuration
    [semanticChunk] returns no chunk for the table. *)
Lemma smallTable_filtered_out :
  semanticChunk sampleEngine smallTable None DEFAULT_CONFIG = Ok []
  /\ ~ exists c, semanticChunk sampleEngine smallTable None DEFAULT_CONFIG
                 = Ok [c].
Proof.
  assert (H : semanticChunk sampleEngine smallTable None DEFAULT_CONFIG = Ok [])
    by (vm_compute; reflexivity).
  split; [exact H|]. intros [c Hc]. rewrite H in Hc. discriminate.
Qed.

(** ** C8: cleaning twice *)

(** C8 as stated fails. The hyphen rule /(\w)-\s+(\w)/g joins "a- b" and
    resumes after the "b", so "b- c" is joined by the next pass only; and
    list markers are unified after the repeated lines were counted, so three
    items that differ in their marker only are removed by the next pass. *)
Lemma preprocessText_not_idempotent :
  preprocessText hyphenBreaks Options.empty = str "ab- c"
  /\ preprocessText (preprocessText hyphenBreaks Options.empty) Options.empty
     = str "abc"
  /\ preprocessText (preprocessText hyphenBreaks Options.empty) Options.empty
     <> preprocessText hyphenBreaks Options.empty
  /\ preprocessText (preprocessText sameItemThreeMarkers Options.empty)
                    Options.empty
     <> preprocessText sameItemThreeMarkers Options.empty.
Proof.
  split; [vm_compute; reflexivity|]. split; [vm_compute; reflexivity|].
  split; vm_compute; discriminate.
Qed.

(** C8 (as amended). The white-space rules reach a fixed point in one pass:
    [normalizeWhitespace] is idempotent on every string. The whole cleanup
    is idempotent on the noisy sample text (under the default options and
    under the options of [semanticChunk]), not on every input. *)
Theorem preprocessText_idempotent_on_sample :
  (forall text,
     normalizeWhitespace (normalizeWhitespace text) = normalizeWhitespace text)
  /\ preprocessText (preprocessText noisyText Options.empty) Options.empty
     = preprocessText noisyText Options.empty
  /\ preprocessText (preprocessText noisyText chunkerOptions) chunkerOptions
     = preprocessText noisyText chunkerOptions.
Proof.
  split; [apply normalizeWhitespace_idempotent|].
  split; vm_compute; reflexivity.
Qed.

(** * Further properties of the code *)

Import Laws.

(** ** Splitting into lines *)

Lemma split_nonempty sep s : split sep s <> [].
Proof.
  destruct s as [|c s]; simpl; [discriminate|].
  destruct (c =? sep)%N; [discriminate|]. destruct (split sep s); discriminate.
Qed.

Lemma split_single sep s :
  (exists l, split sep s = [l]) <-> includes sep s = false.
Proof.
  unfold includes. induction s as [|c s IH]; simpl.
  - split; eauto.
  - rewrite (N.eqb_sym sep c). destruct (c =? sep)%N; simpl.
    + split; [|discriminate]. intros [l [= _ H]]. now apply split_nonempty in H.
    + rewrite <- IH. destruct (split sep s) as [|piece rest] eqn:E.
      * now apply split_nonempty in E.
      * split; intros [l [= <- ->]]; eauto.
Qed.

Lemma split_free sep s : Forall (Forall (fun c => c <> sep)) (split sep s).
Proof.
  induction s as [|c s IH]; simpl; [repeat constructor|].
  destruct (N.eqb_spec c sep) as [->|Hne].
  - constructor; [constructor | exact IH].
  - destruct (split sep s) as [|piece rest]; [repeat constructor; exact Hne|].
    inversion IH; subst. constructor; [constructor|]; assumption.
Qed.

Lemma split_join sep l :
  l <> [] -> Forall (Forall (fun c => c <> sep)) l -> split sep (join [sep] l) = l.
Proof.
  intros Hne H. induction H as [|x l Hx Hl IH]; [congruence|]. clear Hne.
  destruct l as [|y l].
  - simpl. clear IH Hl. induction Hx as [|c x Hc _ IHx]; [reflexivity|].
    simpl. apply N.eqb_neq in Hc. now rewrite Hc, IHx.
  - rewrite join_cons by discriminate. specialize (IH ltac:(discriminate)).
    induction Hx as [|c x Hc _ IHx]; simpl.
    + rewrite N.eqb_refl. f_equal. exact IH.
    + apply N.eqb_neq in Hc. rewrite Hc. simpl in IHx. now rewrite IHx.
Qed.

(** ** The error of [chunkTableByRows] *)

(** X1. [chunkTableByRows] raises a [TypeError] exactly on a block whose text
    has no line break: [lines[1]] is then [undefined] and
    [lines[1].includes("=")] is evaluated. Hence [chunkBlock] raises it
    exactly on a table block that is longer than [tableMaxSize] and has a
    single line; no other block makes [chunkBlock] throw, and neither
    function raises another exception. *)
Theorem chunkBlock_throws_iff :
  forall block chunkIndex config,
    (chunkTableByRows block chunkIndex config = Throw TypeError
     <-> includes LF (ContentBlock.text block) = false)
    /\ (chunkBlock block chunkIndex config = Throw TypeError
        <-> ContentBlock.type block = TableT
            /\ tableMaxSize config < length (ContentBlock.text block)
            /\ includes LF (ContentBlock.text block) = false)
    /\ chunkTableByRows block chunkIndex config <> Throw RangeError
    /\ chunkBlock block chunkIndex config <> Throw RangeError.
Proof.
  intros block chunkIndex config.
  assert (Hrange : chunkTableByRows block chunkIndex config <> Throw RangeError).
  { unfold chunkTableByRows.
    destruct (split LF (ContentBlock.text block)) as [|l0 [|l1 rest]];
      simpl tableHeaderLines; [| discriminate |].
    - simpl. discriminate.
    - destruct (_ || _); simpl; destruct (_ <? _); discriminate. }
  cut ((chunkTableByRows block chunkIndex config = Throw TypeError
        <-> includes LF (ContentBlock.text block) = false)
       /\ (chunkBlock block chunkIndex config = Throw TypeError
           <-> ContentBlock.type block = TableT
               /\ tableMaxSize config < length (ContentBlock.text block)
               /\ includes LF (ContentBlock.text block) = false)).
  { intros [H1 H2]. split; [exact H1|]. split; [exact H2|].
    split; [exact Hrange|]. unfold chunkBlock. cbv zeta.
    destruct (_ <=? _); [discriminate|].
    destruct (ContentBlock.type block); first [exact Hrange | discriminate]. }
  clear Hrange.
  assert (Htable : chunkTableByRows block chunkIndex config = Throw TypeError
                   <-> includes LF (ContentBlock.text block) = false).
  { rewrite <- split_single. unfold chunkTableByRows.
    destruct (split LF (ContentBlock.text block)) as [|l0 [|l1 rest]] eqn:E.
    - now apply split_nonempty in E.
    - simpl. split; eauto.
    - simpl tableHeaderLines. split.
      + destruct (_ || _); simpl; destruct (_ <? _); discriminate.
      + intros [l [=]]. }
  split; [exact Htable|]. unfold chunkBlock.
  destruct (ContentBlock.type block) eqn:Hty; simpl;
    destruct (Nat.leb_spec (length (ContentBlock.text block)) (tableMaxSize config));
    destruct (Nat.leb_spec (length (ContentBlock.text block)) (maxChunkSize config));
    try (split; [discriminate | intros (? & ? & ?); first [discriminate | lia]]).
  - rewrite Htable. split; [auto | now intros (_ & _ & ?)].
  - rewrite Htable. split; [auto | now intros (_ & _ & ?)].
Qed.

(** ** Lists and tables are cut between items and rows *)

Lemma join_nil_iff sep l :
  Forall (fun s => truthy s = true) l -> (join sep l = [] <-> l = []).
Proof.
  intros H. split; [|now intros ->].
  destruct l as [|x l]; [reflexivity|]. intros E.
  pose proof (join_truthy sep (x :: l) H ltac:(discriminate)) as Ht.
  rewrite E in Ht. discriminate.
Qed.

Lemma listStep_invariant config units st line :
  ListInvariant units st ->
  ListInvariant (units ++ (if truthy (trim line) then [line] else []))
                (listStep config st line).
Proof.
  intros (groups & cur & Hcat & Hne & Hchunks & Hcur & Htr). unfold listStep.
  destruct (truthy (trim line)) eqn:Ht; simpl.
  2:{ rewrite app_nil_r. exists groups, cur. auto. }
  assert (Hline : truthy line = true).
  { destruct line; [discriminate | reflexivity]. }
  assert (Hunits : Forall (fun s => truthy s = true) (units ++ [line])).
  { apply Forall_app. split; [exact Htr | repeat constructor; exact Hline]. }
  assert (Hcurtr : Forall (fun s => truthy s = true) cur).
  { rewrite <- Hcat in Htr. now apply Forall_app in Htr as [_ ?]. }
  assert (Hpot : currentChunk st
                 ++ (if truthy (currentChunk st) then [LF] else []) ++ line
                 = join [LF] (cur ++ [line])).
  { rewrite Hcur. destruct cur as [|x cur]; [reflexivity|].
    rewrite (join_truthy [LF] (x :: cur) Hcurtr) by discriminate.
    now rewrite join_snoc by discriminate. }
  rewrite Hpot. destruct (_ && _) eqn:E.
  - apply andb_true_iff in E as [_ E]. apply Nat.ltb_lt in E.
    assert (Hcne : cur <> []).
    { intros ->. rewrite Hcur in E. simpl in E. lia. }
    exists (groups ++ [cur]), [line]. simpl. split; [|split; [|split; [|split]]].
    + rewrite concat_app. simpl. rewrite app_nil_r, <- app_assoc.
      simpl. now rewrite <- Hcat, <- app_assoc.
    + apply Forall_app. split; [exact Hne | repeat constructor; exact Hcne].
    + rewrite !map_app. simpl. now rewrite Hchunks, Hcur.
    + reflexivity.
    + exact Hunits.
  - exists groups, (cur ++ [line]). simpl. split; [|split; [|split; [|split]]].
    + now rewrite app_assoc, Hcat.
    + exact Hne.
    + exact Hchunks.
    + reflexivity.
    + exact Hunits.
Qed.

Lemma listSteps_invariant config lines units st :
  ListInvariant units st ->
  ListInvariant (units ++ List.filter (fun l => truthy (trim l)) lines)
                (fold_left (listStep config) lines st).
Proof.
  revert units st. induction lines as [|line lines IH]; intros units st Inv; simpl.
  - now rewrite app_nil_r.
  - apply (listStep_invariant config _ _ line) in Inv. apply IH in Inv.
    destruct (truthy (trim line)); simpl in *;
      rewrite <- ?app_assoc, ?app_nil_r in Inv; exact Inv.
Qed.

Lemma nonBlankLines_truthy text :
  nonBlankLines text = List.filter (fun l => truthy (trim l)) (split LF text).
Proof.
  unfold nonBlankLines. apply filter_ext. intros l.
  destruct (trim l); reflexivity.
Qed.

(** X2. [chunkListByItems] cuts a list between items only: the chunks are the
    block's non-blank lines, in order, none lost, repeated or split, each
    chunk being a non-empty group of them joined by line breaks. *)
Theorem chunkListByItems_grouping :
  forall block startIndex config,
    Grouping (join [LF]) (nonBlankLines (ContentBlock.text block))
             (chunkListByItems block startIndex config).
Proof.
  intros block startIndex config. unfold chunkListByItems.
  rewrite nonBlankLines_truthy.
  pose proof (listSteps_invariant config (split LF (ContentBlock.text block)) []
                {| chunks := []; currentChunk := []; currentIndex := startIndex |})
    as Inv.
  simpl app in Inv. set (st := fold_left _ _ _) in *.
  destruct Inv as (groups & cur & Hcat & Hne & Hchunks & Hcur & Htr).
  { exists [], []. simpl. auto. }
  assert (Hcurtr : Forall (fun s => truthy s = true) cur).
  { rewrite <- Hcat in Htr. now apply Forall_app in Htr as [_ ?]. }
  destruct (truthy (currentChunk st)) eqn:Et.
  - assert (Hcne : cur <> []).
    { intros ->. rewrite Hcur in Et. discriminate. }
    exists (groups ++ [cur]). split; [|split].
    + rewrite concat_app. simpl. now rewrite app_nil_r.
    + apply Forall_app. split; [exact Hne | repeat constructor; exact Hcne].
    + rewrite !map_app. simpl. now rewrite Hchunks, Hcur.
  - assert (cur = []) as ->.
    { apply (join_nil_iff [LF]); [exact Hcurtr|].
      rewrite <- Hcur. destruct (currentChunk st); [reflexivity | discriminate]. }
    exists groups. rewrite app_nil_r in Hcat. auto.
Qed.

Lemma tableChunkOf_snoc header cur line :
  tableChunkOf header cur ++ [LF] ++ line = tableChunkOf header (cur ++ [line]).
Proof.
  unfold tableChunkOf. rewrite map_app, concat_app. simpl.
  now rewrite app_nil_r, <- app_assoc.
Qed.

Lemma tableChunkOf_header header cur : tableChunkOf header cur = header <-> cur = [].
Proof.
  unfold tableChunkOf. split; [|intros ->; simpl; apply app_nil_r].
  intros E. rewrite <- (app_nil_r header) in E at 2. apply app_inv_head in E.
  destruct cur; [reflexivity | discriminate].
Qed.

Lemma tableChunkOf_length header cur :
  length header < length (tableChunkOf header cur) <-> cur <> [].
Proof.
  unfold tableChunkOf. destruct cur as [|row cur]; simpl.
  - rewrite app_nil_r. split; [lia | congruence].
  - rewrite length_app. simpl. split; [discriminate | lia].
Qed.

Lemma tableStep_rows config header rows st line :
  RowsInvariant header rows st ->
  RowsInvariant header (rows ++ [line]) (tableStep config header st line).
Proof.
  intros (groups & cur & Hcat & Hne & Hchunks & Hcur). unfold tableStep.
  rewrite Hcur, tableChunkOf_snoc. destruct (_ && _) eqn:E; simpl.
  - apply andb_true_iff in E as [_ E]. apply negb_true_iff in E.
    assert (Hcne : cur <> []).
    { intros ->. rewrite (proj2 (tableChunkOf_header header []) eq_refl) in E.
      now rewrite eqb_refl in E. }
    exists (groups ++ [cur]), [line]. split; [|split; [|split]].
    + rewrite concat_app. simpl. rewrite app_nil_r, <- app_assoc.
      now rewrite <- Hcat, <- app_assoc.
    + apply Forall_app. split; [exact Hne | repeat constructor; exact Hcne].
    + simpl. rewrite !map_app. simpl. now rewrite Hchunks.
    + unfold tableChunkOf. simpl. now rewrite app_nil_r.
  - exists groups, (cur ++ [line]). split; [|split; [|split]]; auto.
    now rewrite app_assoc, Hcat.
Qed.

Lemma tableSteps_rows config header lines rows st :
  RowsInvariant header rows st ->
  RowsInvariant header (rows ++ lines) (fold_left (tableStep config header) lines st).
Proof.
  revert rows st. induction lines as [|line lines IH]; intros rows st Inv; simpl.
  - now rewrite app_nil_r.
  - apply (tableStep_rows config _ _ _ line) in Inv. apply IH in Inv.
    now rewrite <- app_assoc in Inv.
Qed.

Lemma dataRowsOf_skipn lines headerLines :
  tableHeaderLines lines = Ok headerLines ->
  skipn (length headerLines) lines = dataRowsOf lines.
Proof.
  destruct lines as [|l0 [|l1 rest]]; simpl; [now intros [= <-] | discriminate |].
  destruct (_ || _); intros [= <-]; reflexivity.
Qed.

(** X3. [chunkTableByRows] cuts a table between rows only: every chunk is
    the header followed by a non-empty group of data rows, each after a
    line break, and the groups are the data rows in order, none lost or
    repeated. *)
Theorem chunkTableByRows_grouping :
  forall block startIndex config out,
    chunkTableByRows block startIndex config = Ok out ->
    Grouping (tableChunkOf (headerOf (split LF (ContentBlock.text block))))
             (dataRowsOf (split LF (ContentBlock.text block))) out.
Proof.
  intros block startIndex config out. unfold chunkTableByRows.
  destruct (tableHeaderLines _) as [headerLines|] eqn:Eh; simpl; [|discriminate].
  rewrite (headerOf_join _ _ Eh), (dataRowsOf_skipn _ _ Eh).
  set (header := headerOf _). set (rows := dataRowsOf _).
  pose proof (tableSteps_rows config header rows []
                {| chunks := []; currentChunk := header;
                   currentIndex := startIndex |}) as Inv.
  simpl app in Inv. set (st := fold_left _ _ _) in *.
  destruct Inv as (groups & cur & Hcat & Hne & Hchunks & Hcur).
  { exists [], []. simpl. repeat split; auto.
    unfold tableChunkOf. simpl. now rewrite app_nil_r. }
  rewrite Hcur.
  destruct (Nat.ltb_spec (length header) (length (tableChunkOf header cur)))
    as [Hlt|Hge]; intros [= <-].
  - apply tableChunkOf_length in Hlt.
    exists (groups ++ [cur]). split; [|split].
    + rewrite concat_app. simpl. now rewrite app_nil_r.
    + apply Forall_app. split; [exact Hne | repeat constructor; exact Hlt].
    + rewrite !map_app. simpl. now rewrite Hchunks.
  - assert (cur = []) as ->.
    { destruct cur; [reflexivity|]. exfalso.
      assert (length header < length (tableChunkOf header (l :: cur)))
        by now apply tableChunkOf_length. lia. }
    exists groups. rewrite app_nil_r in Hcat. auto.
Qed.

Lemma chunkTableByRows_grouping_witness :
  exists out,
    chunkTableByRows smallTableBlock 0 tinyConfig = Ok out
    /\ length out = 3
    /\ Grouping (tableChunkOf (headerOf (split LF smallTable)))
                (dataRowsOf (split LF smallTable)) out.
Proof.
  eexists. split; [vm_compute; reflexivity|]. split; [reflexivity|].
  apply (chunkTableByRows_grouping smallTableBlock 0 tinyConfig).
  vm_compute. reflexivity.
Defined.

(** ** Overlap injection keeps the chunks *)

Lemma overlapFrom_length overlapSize prev l :
  length (overlapFrom overlapSize prev l) = length l.
Proof. revert prev. induction l; intros prev; simpl; auto. Qed.

Lemma addOverlap_length l overlapSize :
  length (addOverlap l overlapSize) = length l.
Proof.
  unfold addOverlap. destruct (_ || _); [reflexivity|].
  destruct l; simpl; [reflexivity|]. now rewrite overlapFrom_length.
Qed.

Lemma overlapChunk_keeps overlapSize prevChunk chunk :
  overlapSize <> 0 ->
  let c' := overlapChunk overlapSize prevChunk chunk in
  Suffix (content chunk) (content c')
  /\ length (content c') <= length (content chunk) + overlapSize + 2
  /\ SameButOverlap c' chunk.
Proof.
  intros Hn. unfold overlapChunk, SameButOverlap.
  destruct (negb _); simpl; [|split; [apply Suffix_refl | split; [lia | reflexivity]]].
  split; [|split; [|reflexivity]].
  - exists (sliceLast overlapSize (content prevChunk) ++ [LF; LF]).
    now rewrite <- app_assoc.
  - rewrite (sliceLast_lastChars _ _ Hn), length_app.
    pose proof (lastChars_length overlapSize (content prevChunk)). simpl. lia.
Qed.

Lemma addOverlap_Forall (Q : Chunk -> Prop) l overlapSize :
  (forall c c', Q c -> SameButOverlap c' c -> Q c') ->
  Forall Q l -> Forall Q (addOverlap l overlapSize).
Proof.
  intros Hq H. unfold addOverlap. destruct (_ || _) eqn:E; [exact H|].
  apply orb_false_iff in E as [_ E]. apply Nat.eqb_neq in E.
  destruct H as [|first rest Hfirst Hrest]; [constructor|]. constructor.
  - apply (Hq first); [exact Hfirst | reflexivity].
  - clear Hfirst. revert first.
    induction Hrest as [|c rest Hc _ IH]; intros first; simpl; constructor.
    + apply (Hq c); [exact Hc|]. apply (overlapChunk_keeps overlapSize first c E).
    + apply IH.
Qed.

(** X4. Overlap injection neither drops, adds nor reorders chunks: the result
    has the length of the input, and the chunk at each position ends with
    the content of the input chunk at that position, is at most
    [overlapSize + 2] code units longer, and has the same metadata up to
    [hasOverlap]; the first chunk's content is never changed. *)
Theorem addOverlap_keeps_chunks :
  forall chunks overlapSize,
    length (addOverlap chunks overlapSize) = length chunks
    /\ forall i c, nth_error chunks i = Some c ->
         exists c',
           nth_error (addOverlap chunks overlapSize) i = Some c'
           /\ Suffix (content c) (content c')
           /\ length (content c') <= length (content c) + overlapSize + 2
           /\ SameButOverlap c' c
           /\ (i = 0 -> content c' = content c).
Proof.
  intros l overlapSize. split; [apply addOverlap_length|].
  intros i c Hi. unfold addOverlap. destruct (_ || _) eqn:E.
  { exists c. split; [exact Hi|]. split; [apply Suffix_refl|].
    split; [lia|]. split; reflexivity. }
  apply orb_false_iff in E as [_ E]. apply Nat.eqb_neq in E.
  destruct l as [|first rest]; [destruct i; discriminate|].
  destruct i as [|i]; simpl in Hi.
  - injection Hi as <-. eexists. split; [reflexivity|]. simpl.
    split; [apply Suffix_refl|]. split; [lia|]. split; reflexivity.
  - destruct (nth_error (first :: rest) i) as [p|] eqn:Hp.
    2:{ apply nth_error_None in Hp. simpl in Hp.
        assert (i < length rest) by (apply nth_error_Some; congruence). lia. }
    exists (overlapChunk overlapSize p c). simpl.
    split; [exact (overlapFrom_nth overlapSize first rest i p c Hp Hi)|].
    destruct (overlapChunk_keeps overlapSize p c E) as (H1 & H2 & H3).
    split; [exact H1|]. split; [exact H2|]. split; [exact H3 | discriminate].
Qed.

(** ** Page numbers *)

Lemma tableStep_OnPage config header st line :
  Forall (OnPage None) (chunks st) ->
  Forall (OnPage None) (chunks (tableStep config header st line)).
Proof.
  intros H. unfold tableStep. destruct (_ && _); simpl; [|exact H].
  apply Forall_snoc; [exact H | reflexivity].
Qed.

Lemma listStep_OnPage config st line :
  Forall (OnPage None) (chunks st) ->
  Forall (OnPage None) (chunks (listStep config st line)).
Proof.
  intros H. unfold listStep. destruct (negb _); [exact H|].
  destruct (_ && _); simpl; [|exact H].
  apply Forall_snoc; [exact H | reflexivity].
Qed.

Lemma textStep_OnPage config block st sentence :
  Forall (OnPage None) (chunks st) ->
  Forall (OnPage None) (chunks (textStep config block st sentence)).
Proof.
  intros H. unfold textStep. destruct (negb _); [exact H|].
  destruct (_ && _); simpl; [|exact H].
  apply Forall_snoc; [exact H | reflexivity].
Qed.

Lemma chunkBlock_OnPage block chunkIndex config out :
  chunkBlock block chunkIndex config = Ok out -> Forall (OnPage None) out.
Proof.
  unfold chunkBlock. destruct (_ <=? _).
  { intros [= <-]. repeat constructor. }
  destruct (ContentBlock.type block).
  3:{ intros [= <-]. unfold chunkListByItems.
      set (st := fold_left _ _ _).
      assert (H : Forall (OnPage None) (chunks st)).
      { apply (fold_left_invariant (fun st => Forall (OnPage None) (chunks st)));
          [constructor | intros; now apply listStep_OnPage]. }
      destruct (truthy _); [apply Forall_snoc; [exact H | reflexivity] | exact H]. }
  2:{ unfold chunkTableByRows.
      destruct (tableHeaderLines _) as [headerLines|]; simpl; [|discriminate].
      set (st := fold_left _ _ _).
      assert (H : Forall (OnPage None) (chunks st)).
      { apply (fold_left_invariant (fun st => Forall (OnPage None) (chunks st)));
          [constructor | intros; now apply tableStep_OnPage]. }
      destruct (_ <? _); intros [= <-];
        [apply Forall_snoc; [exact H | reflexivity] | exact H]. }
  all: intros [= <-]; unfold chunkTextBySentences;
    set (st := textLoop _ _ _);
    assert (H : Forall (OnPage None) (chunks st))
      by (apply (fold_left_invariant (fun st => Forall (OnPage None) (chunks st)));
          [constructor | intros; now apply textStep_OnPage]);
    repeat (destruct (_ && _));
      try (apply Forall_snoc; [exact H | reflexivity]);
      try (apply (updateLast_Forall (OnPage None)); [exact H | auto | auto]);
      try (destruct (truthy _);
           [apply Forall_snoc; [exact H | reflexivity] | exact H]).
Qed.

Lemma chunkBlocks_OnPage engine blocks page config acc chunkIndex out :
  Forall (OnPage page) acc ->
  chunkBlocks engine blocks page config acc chunkIndex = Ok out ->
  Forall (OnPage page) out.
Proof.
  revert acc chunkIndex. induction blocks as [|block blocks IH];
    intros acc chunkIndex Hacc; simpl; [now intros [= <-]|].
  destruct (chunkBlock block chunkIndex config) as [blockChunks|] eqn:E;
    simpl; [|discriminate].
  destruct (pushSpread engine acc _) as [pushed|] eqn:Ep; simpl; [|discriminate].
  apply pushSpread_Ok in Ep as [-> _].
  apply IH. apply Forall_app. split; [exact Hacc|].
  apply chunkBlock_OnPage in E. destruct page as [p|]; [|exact E].
  clear E. induction blockChunks; simpl; constructor; auto. reflexivity.
Qed.

Lemma semanticChunk_OnPage engine text page config returned :
  semanticChunk engine text page config = Ok returned ->
  Forall (OnPage page) returned.
Proof.
  unfold semanticChunk. destruct (_ =? _); [intros [= <-]; constructor|].
  destruct (chunkBlocks _ _ _ _ _ _) as [allChunks|] eqn:E; simpl; [|discriminate].
  intros [= <-]. apply filter_Forall. apply addOverlap_Forall.
  - unfold OnPage, SameButOverlap. intros c c' Hc Hs.
    apply (f_equal pageNumber) in Hs. simpl in Hs. congruence.
  - exact (chunkBlocks_OnPage _ _ page config [] 0 allChunks (Forall_nil _) E).
Qed.

(** X5. Every chunk [semanticChunk] returns carries the caller's page number:
    [pageNumber] when one was given, none otherwise. The splitters never set
    a page number themselves, and overlap injection keeps it. *)
Theorem semanticChunk_page_number :
  forall engine text page config returned,
    semanticChunk engine text page config = Ok returned ->
    Forall (fun c => pageNumber (metadata c) = page) returned.
Proof.
  intros engine text page config returned E.
  apply Forall_forall. intros c Hc.
  exact (proj1 (Forall_forall _ _)
           (semanticChunk_OnPage engine text page config returned E) c Hc).
Qed.

Lemma semanticChunk_page_number_witness :
  exists returned,
    semanticChunk sampleEngine headingThenProse (Some 7) DEFAULT_CONFIG = Ok returned
    /\ length returned = 1
    /\ Forall (fun c => pageNumber (metadata c) = Some 7) returned.
Proof.
  eexists. split; [vm_compute; reflexivity|]. split; [reflexivity|].
  apply (semanticChunk_page_number sampleEngine headingThenProse (Some 7)
           DEFAULT_CONFIG).
  vm_compute. reflexivity.
Defined.

(** ** Several pages *)

Lemma semanticChunk_pageResult engine config page out :
  semanticChunk engine (fst page) (Some (snd page)) config = Ok out ->
  pageResult engine config page = out.
Proof. unfold pageResult. now intros ->. Qed.

Lemma chunkPages_Ok engine pages config acc out :
  chunkPages engine pages config acc = Ok out ->
  out = acc ++ concat (List.map (pageResult engine config) pages)
  /\ Forall (PageFits engine config) pages.
Proof.
  revert acc. induction pages as [|[text page] pages IH]; intros acc; simpl.
  - intros [= <-]. now rewrite app_nil_r.
  - destruct (semanticChunk engine text (Some page) config) as [pageChunks|] eqn:E;
      simpl; [|discriminate].
    destruct (pushSpread engine acc pageChunks) as [pushed|] eqn:Ep; simpl;
      [|discriminate].
    apply pushSpread_Ok in Ep as [-> Hlen]. intros H.
    apply IH in H as [-> Hall].
    rewrite (semanticChunk_pageResult engine config (text, page) pageChunks E).
    split; [now rewrite app_assoc|].
    constructor; [|exact Hall]. unfold PageFits.
    rewrite (semanticChunk_pageResult engine config (text, page) pageChunks E).
    split; [exact E | exact Hlen].
Qed.

Lemma chunkPages_fits engine pages config acc :
  Forall (PageFits engine config) pages ->
  chunkPages engine pages config acc
  = Ok (acc ++ concat (List.map (pageResult engine config) pages)).
Proof.
  intros H. revert acc. induction H as [|[text page] pages [E Hlen] _ IH];
    intros acc; simpl.
  - now rewrite app_nil_r.
  - simpl in E. rewrite E. simpl. rewrite pushSpread_fits; [|exact Hlen].
    simpl. now rewrite IH, app_assoc.
Qed.

Lemma chunkPages_Throw engine pages config acc e :
  chunkPages engine pages config acc = Throw e -> e = RangeError.
Proof.
  revert acc. induction pages as [|[text page] pages IH]; intros acc; simpl;
    [discriminate|].
  destruct (semanticChunk engine text (Some page) config) as [pageChunks|e'] eqn:E;
    simpl.
  - destruct (pushSpread engine acc pageChunks) as [pushed|e''] eqn:Ep; simpl.
    + apply IH.
    + intros [= <-]. now apply pushSpread_Throw in Ep as [-> _].
  - intros [= <-]. now apply semanticChunk_Throw in E as [-> _].
Qed.

Lemma renumberFrom_indices index l :
  List.map idx (renumberFrom index l) = seq index (length l).
Proof.
  revert index. induction l as [|c l IH]; intros index; simpl; [reflexivity|].
  now rewrite IH.
Qed.

Lemma renumberFrom_In index l c :
  In c (renumberFrom index l) -> exists c', In c' l /\ SameButIndex c c'.
Proof.
  revert index. induction l as [|c0 l IH]; intros index; simpl; [tauto|].
  intros [<-|H].
  - exists c0. split; [now left|]. split; reflexivity.
  - destruct (IH _ H) as (c' & Hin & Hs). exists c'. split; [now right | exact Hs].
Qed.

(** X6. [semanticChunkMultiPage] returns exactly when [semanticChunk] returns
    for every page, with no more chunks than one call of [push] takes as
    arguments. Its result is then the concatenation, in page order, of what
    [semanticChunk] returns for each page with that page's number,
    renumbered from 0. The only exception it raises is a [RangeError]. *)
Theorem semanticChunkMultiPage_concat :
  forall engine pages config,
    (forall out,
       semanticChunkMultiPage engine pages config = Ok out <->
       Forall (PageFits engine config) pages
       /\ out = renumberFrom 0
                  (concat (List.map (pageResult engine config) pages)))
    /\ (forall e, semanticChunkMultiPage engine pages config = Throw e ->
          e = RangeError).
Proof.
  intros engine pages config. unfold semanticChunkMultiPage. split.
  - intros out. split.
    + destruct (chunkPages engine pages config []) as [allChunks|] eqn:E; simpl;
        [|discriminate].
      intros [= <-]. apply chunkPages_Ok in E as [-> Hall]. now split.
    + intros [Hall ->]. now rewrite (chunkPages_fits engine pages config [] Hall).
  - intros e.
    destruct (chunkPages engine pages config []) as [allChunks|e'] eqn:E; simpl;
      [discriminate|].
    intros [= <-]. exact (chunkPages_Throw engine pages config [] e' E).
Qed.

Lemma semanticChunkMultiPage_concat_witness :
  Forall (PageFits sampleEngine DEFAULT_CONFIG)
    [(shortDocument, 1); (headingThenProse, 2); (headingThenProse, 5)]
  /\ semanticChunkMultiPage sampleEngine
       [(shortDocument, 1); (headingThenProse, 2); (headingThenProse, 5)]
       DEFAULT_CONFIG
     = Ok (renumberFrom 0
             (concat (List.map (pageResult sampleEngine DEFAULT_CONFIG)
                [(shortDocument, 1); (headingThenProse, 2); (headingThenProse, 5)]))).
Proof.
  assert (H : Forall (PageFits sampleEngine DEFAULT_CONFIG)
                [(shortDocument, 1); (headingThenProse, 2); (headingThenProse, 5)]).
  { repeat (apply Forall_cons; [split|]); try apply Forall_nil;
      first [apply Nat.leb_le | idtac]; vm_compute; reflexivity. }
  split; [exact H|].
  apply (proj1 (semanticChunkMultiPage_concat sampleEngine _ DEFAULT_CONFIG)).
  split; [exact H | reflexivity].
Defined.

(** X7. The indices of the chunks [semanticChunkMultiPage] returns are
    0, 1, 2, ... without a gap, whatever the per-page filters removed. *)
Theorem semanticChunkMultiPage_indices :
  forall engine pages config out,
    semanticChunkMultiPage engine pages config = Ok out ->
    IndexContiguous 0 out
    /\ List.map idx out = seq 0 (length out).
Proof.
  intros engine pages config out. unfold semanticChunkMultiPage.
  destruct (chunkPages engine pages config []) as [allChunks|]; simpl;
    [|discriminate].
  intros [= <-].
  assert (H : forall index l,
             List.map idx (renumberFrom index l)
             = seq index (length (renumberFrom index l))).
  { intros index l. rewrite renumberFrom_indices. f_equal.
    rewrite <- (length_map idx (renumberFrom index l)), renumberFrom_indices.
    now rewrite length_seq. }
  split; [apply IndexContiguous_seq|]; apply H.
Qed.

Lemma semanticChunkMultiPage_indices_witness :
  exists out,
    semanticChunkMultiPage sampleEngine
      [(headingThenProse, 2); (shortDocument, 3); (headingThenProse, 5)]
      DEFAULT_CONFIG = Ok out
    /\ length out = 2
    /\ IndexContiguous 0 out
    /\ List.map idx out = seq 0 (length out).
Proof.
  eexists. split; [vm_compute; reflexivity|]. split; [reflexivity|].
  apply (semanticChunkMultiPage_indices sampleEngine
           [(headingThenProse, 2); (shortDocument, 3); (headingThenProse, 5)]
           DEFAULT_CONFIG).
  vm_compute. reflexivity.
Defined.

(** X8. Every chunk [semanticChunkMultiPage] returns is, up to its index, a
    chunk [semanticChunk] returns for one of the pages, and it carries that
    page's number. *)
Theorem semanticChunkMultiPage_chunks :
  forall engine pages config out,
    semanticChunkMultiPage engine pages config = Ok out ->
    forall c, In c out ->
      exists page c',
        In page pages
        /\ In c' (pageResult engine config page)
        /\ SameButIndex c c'
        /\ pageNumber (metadata c) = Some (snd page).
Proof.
  intros engine pages config out. unfold semanticChunkMultiPage.
  destruct (chunkPages engine pages config []) as [allChunks|] eqn:Ep; simpl;
    [|discriminate].
  apply chunkPages_Ok in Ep as [-> _]. simpl. intros [= <-] c Hc.
  apply renumberFrom_In in Hc as (c' & Hin & Hs).
  apply in_concat in Hin as (l & Hl & Hin).
  apply in_map_iff in Hl as (page & <- & Hpage).
  exists page, c'. split; [exact Hpage|]. split; [exact Hin|]. split; [exact Hs|].
  destruct Hs as [_ ->]. simpl.
  unfold pageResult in Hin.
  destruct (semanticChunk engine (fst page) (Some (snd page)) config) as [l|] eqn:E;
    [|destruct Hin].
  apply semanticChunk_OnPage in E.
  exact (proj1 (Forall_forall _ _) E c' Hin).
Qed.

Lemma semanticChunkMultiPage_chunks_witness :
  exists out,
    semanticChunkMultiPage sampleEngine
      [(shortDocument, 1); (headingThenProse, 2); (headingThenProse, 5)]
      DEFAULT_CONFIG = Ok out
    /\ List.map (fun c => (idx c, pageNumber (metadata c))) out
       = [(0, Some 2); (1, Some 5)]
    /\ forall c, In c out ->
         exists page c',
           In page [(shortDocument, 1); (headingThenProse, 2); (headingThenProse, 5)]
           /\ In c' (pageResult sampleEngine DEFAULT_CONFIG page)
           /\ SameButIndex c c'
           /\ pageNumber (metadata c) = Some (snd page).
Proof.
  eexists. split; [vm_compute; reflexivity|]. split; [reflexivity|].
  apply (semanticChunkMultiPage_chunks sampleEngine _ DEFAULT_CONFIG).
  vm_compute. reflexivity.
Defined.

(** ** Sentence chunks reach the minimum size *)

(** X9. Every chunk [chunkTextBySentences] returns has at least
    [minChunkSize] code units, with one exception: when the whole block
    gives a single fragment shorter than that, the fragment is the only
    chunk and its confidence is "low". *)
Theorem chunkTextBySentences_min_size :
  forall block startIndex config,
    let out := chunkTextBySentences block startIndex config in
    Forall (fun c => minChunkSize config <= length (content c)) out
    \/ exists fragment,
         fragment <> []
         /\ length fragment < minChunkSize config
         /\ out = [newChunk fragment startIndex (ContentBlock.type block) Low].
Proof.
  intros block startIndex config. cbv zeta. unfold chunkTextBySentences.
  pose proof (textLoop_invariant block startIndex config) as (_ & _ & Hmin).
  pose proof (textLoop_indexed block startIndex config) as [_ Hidx].
  set (st := textLoop block startIndex config) in *.
  destruct (truthy (currentChunk st)) eqn:Et; simpl; [|left; exact Hmin].
  destruct (Nat.leb_spec (minChunkSize config) (length (currentChunk st)))
    as [Hle|Hlt].
  { left. apply Forall_snoc; [exact Hmin | exact Hle]. }
  destruct (chunks st) as [|c0 l] eqn:Ec.
  - right. simpl. exists (currentChunk st). split; [|split; [exact Hlt|]].
    + intros E. rewrite E in Et. discriminate.
    + simpl in Hidx. now rewrite Hidx, Nat.add_0_r.
  - left. simpl Nat.ltb. cbv iota.
    apply (updateLast_Forall
             (fun c => minChunkSize config <= length (content c))); [exact Hmin|auto|].
    intros c Hc. simpl. rewrite length_app. lia.
Qed.

(** ** The legacy entry point *)

(** X10. The legacy [semanticChunk] returns exactly when the chunker does
    under the default configuration, and raises the same exception
    otherwise (a [RangeError], never a [TypeError]). It returns one chunk
    for each chunk of the chunker, with the same content and index; every
    chunk carries the caller's page number, has at least 100 code units once
    trimmed, and the indices increase strictly. *)
Theorem legacy_semanticChunk_projects :
  forall engine text page,
    match semanticChunk engine text page DEFAULT_CONFIG with
    | Ok newChunks =>
        Legacy.semanticChunk engine text page
        = Ok (List.map Legacy.project newChunks)
        /\ List.map Legacy.content (List.map Legacy.project newChunks)
           = List.map content newChunks
        /\ Forall (fun c => Legacy.pageNumber (Legacy.metadata c) = page
                            /\ 100 <= length (trim (Legacy.content c)))
                  (List.map Legacy.project newChunks)
        /\ forall i j ci cj,
             i < j ->
             nth_error (List.map Legacy.project newChunks) i = Some ci ->
             nth_error (List.map Legacy.project newChunks) j = Some cj ->
             Legacy.chunkIndex (Legacy.metadata ci)
             < Legacy.chunkIndex (Legacy.metadata cj)
    | Throw e =>
        Legacy.semanticChunk engine text page = Throw e /\ e = RangeError
    end.
Proof.
  intros engine text page.
  destruct (semanticChunk engine text page DEFAULT_CONFIG) as [newChunks|e] eqn:E.
  2:{ split; [unfold Legacy.semanticChunk; now rewrite E|].
      now apply semanticChunk_Throw in E as [-> _]. }
  split; [|split; [|split]].
  - unfold Legacy.semanticChunk. now rewrite E.
  - rewrite map_map. reflexivity.
  - pose proof (semanticChunk_OnPage _ _ _ _ _ E) as Hpage.
    destruct (semanticChunk_stages _ _ _ _ _ E) as (allChunks & _ & ->).
    apply Forall_forall. intros c Hc. apply in_map_iff in Hc as (c0 & <- & Hc0).
    split.
    + exact (proj1 (Forall_forall _ _) Hpage c0 Hc0).
    + apply filter_In in Hc0 as [_ Hbig]. now apply Nat.leb_le in Hbig.
  - destruct (semanticChunk_stages _ _ _ _ _ E) as (allChunks & Hall & ->).
    intros i j ci cj Hij Hi Hj.
    rewrite nth_error_map in Hi, Hj.
    destruct (nth_error _ i) as [ci0|] eqn:Ei; [|discriminate].
    destruct (nth_error _ j) as [cj0|] eqn:Ej; [|discriminate].
    injection Hi as <-. injection Hj as <-. simpl.
    apply chunkBlocks_all in Hall as [Hidx _].
    assert (Hinc : IndexIncreasing
                     (List.filter (bigEnough DEFAULT_CONFIG)
                        (addOverlap allChunks (overlapSize DEFAULT_CONFIG)))).
    { apply (increasingFrom_increasing 0), increasingFrom_filter,
        increasingFrom_contiguous, IndexContiguous_seq.
      now rewrite addOverlap_indices, addOverlap_length. }
    exact (Hinc i j ci0 cj0 Hij Ei Ej).
Qed.

(** ** The detectors' confidences *)

Lemma detectTable_score text :
  UnitInterval (score (detectTable text))
  /\ (detected (detectTable text) = true ->
      (0 <? score (detectTable text))%float = true).
Proof.
  unfold detectTable, UnitInterval. detector_cases;
    vm_compute; repeat split; intros; congruence.
Qed.

Lemma detectList_score text :
  UnitInterval (score (detectList text))
  /\ (detected (detectList text) = true ->
      (0 <? score (detectList text))%float = true).
Proof.
  unfold detectList, UnitInterval. detector_cases;
    vm_compute; repeat split; intros; congruence.
Qed.

Lemma detectHeading_score toUpperCase text :
  UnitInterval (score (detectHeading toUpperCase text))
  /\ (detected (detectHeading toUpperCase text) = true ->
      (0 <? score (detectHeading toUpperCase text))%float = true).
Proof.
  unfold detectHeading, UnitInterval.
  destruct (nonBlankLines (trim text)) as [|line [|]];
    [vm_compute; repeat split; intros; congruence | |
     vm_compute; repeat split; intros; congruence].
  detector_cases; vm_compute; repeat split; intros; congruence.
Qed.

(** X11. The confidence each detector reports is a number between 0 and 1,
    and a detector that accepts its text reports a positive one. *)
Theorem detector_scores_bounded :
  forall toUpperCase text,
    (UnitInterval (score (detectTable text))
     /\ UnitInterval (score (detectList text))
     /\ UnitInterval (score (detectHeading toUpperCase text)))
    /\ (detected (detectTable text) = true ->
        (0 <? score (detectTable text))%float = true)
    /\ (detected (detectList text) = true ->
        (0 <? score (detectList text))%float = true)
    /\ (detected (detectHeading toUpperCase text) = true ->
        (0 <? score (detectHeading toUpperCase text))%float = true).
Proof.
  intros up text.
  destruct (detectTable_score text) as [T1 T2].
  destruct (detectList_score text) as [L1 L2].
  destruct (detectHeading_score up text) as [H1 H2].
  repeat split; solve [apply T1 | apply L1 | apply H1 | assumption].
Qed.

(** ** Blocks *)

#[local] Transparent segmentIntoBlocks preprocessText.

Lemma segmentIntoBlocks_unfold toUpperCase text :
  segmentIntoBlocks toUpperCase text
  = segmentParagraphs toUpperCase (splitRe paragraphBreak text) 0.
Proof. reflexivity. Qed.

Lemma preprocessText_unfold text options :
  preprocessText text options
  = trim (normalizeWhitespace (beforeLastPass text options)).
Proof. reflexivity. Qed.

#[local] Opaque segmentIntoBlocks preprocessText.

Lemma analyzeContentBlock_lines toUpperCase text startLine endLine :
  ContentBlock.startLine (analyzeContentBlock toUpperCase text startLine endLine)
  = startLine
  /\ ContentBlock.endLine (analyzeContentBlock toUpperCase text startLine endLine)
     = endLine.
Proof.
  unfold analyzeContentBlock.
  repeat match goal with
         | |- context [if ?b then _ else _] => destruct b
         end; split; reflexivity.
Qed.

Lemma analyzeContentBlock_positive toUpperCase text startLine endLine :
  (0 <? ContentBlock.confidence
          (analyzeContentBlock toUpperCase text startLine endLine))%float
  = negb (detectHeaderFooter text).
Proof.
  unfold analyzeContentBlock. destruct (detectHeaderFooter text); [reflexivity|].
  destruct (detected (detectHeading toUpperCase text)) eqn:Eh.
  { exact (proj2 (detectHeading_score toUpperCase text) Eh). }
  destruct (detected (detectTable text)) eqn:Et.
  { exact (proj2 (detectTable_score text) Et). }
  destruct (detected (detectList text)) eqn:El.
  { exact (proj2 (detectList_score text) El). }
  reflexivity.
Qed.

(** X12. How [analyzeContentBlock] classifies: a text that
    [detectHeaderFooter] accepts gets confidence 0, and only such a text;
    a heading has exactly one non-blank line, a table or a list at least
    two, and each carries its detector's confidence, which is above the
    detector's threshold; a plain text block has confidence 1. The
    confidence is always between 0 and 1. *)
Theorem analyzeContentBlock_classes :
  forall toUpperCase text startLine endLine,
    let block := analyzeContentBlock toUpperCase text startLine endLine in
    UnitInterval (ContentBlock.confidence block)
    /\ (0 <? ContentBlock.confidence block)%float = negb (detectHeaderFooter text)
    /\ match ContentBlock.type block with
       | HeadingT =>
           length (nonBlankLines (trim text)) = 1
           /\ (0.4 <? ContentBlock.confidence block)%float = true
       | TableT =>
           2 <= length (nonBlankLines text)
           /\ (0.4 <? ContentBlock.confidence block)%float = true
       | ListT =>
           2 <= length (nonBlankLines text)
           /\ (0.35 <? ContentBlock.confidence block)%float = true
       | TextT =>
           ContentBlock.confidence block
           = (if detectHeaderFooter text then 0 else 1)%float
       end.
Proof.
  intros up text startLine endLine. cbv zeta.
  split; [|split; [apply analyzeContentBlock_positive|]].
  - unfold analyzeContentBlock.
    destruct (detectHeaderFooter text); [split; reflexivity|].
    destruct (detected (detectHeading up text));
      [exact (proj1 (detectHeading_score up text))|].
    destruct (detected (detectTable text));
      [exact (proj1 (detectTable_score text))|].
    destruct (detected (detectList text));
      [exact (proj1 (detectList_score text)) | split; reflexivity].
  - unfold analyzeContentBlock.
    destruct (detectHeaderFooter text); [reflexivity|].
    destruct (detected (detectHeading up text)) eqn:Eh.
    { simpl. revert Eh. unfold detectHeading.
      destruct (nonBlankLines (trim text)) as [|line [|]];
        [discriminate | | discriminate].
      simpl. auto. }
    destruct (detected (detectTable text)) eqn:Et.
    { simpl. split; [now apply detectTable_lines|].
      revert Et. unfold detectTable. destruct (_ <? 2)%nat; [discriminate|].
      simpl. auto. }
    destruct (detected (detectList text)) eqn:El; [|reflexivity].
    simpl. revert El. unfold detectList.
    destruct (Nat.ltb_spec (length (nonBlankLines text)) 2); [discriminate|].
    simpl. auto.
Qed.

Lemma segmentParagraphs_texts toUpperCase paragraphs lineNumber :
  List.map ContentBlock.text (segmentParagraphs toUpperCase paragraphs lineNumber)
  = List.filter keptParagraph (List.map trim paragraphs).
Proof.
  revert lineNumber. induction paragraphs as [|p paragraphs IH];
    intros lineNumber; simpl; [reflexivity|].
  unfold keptParagraph at 1. destruct (truthy (trim p)); simpl; [|apply IH].
  rewrite analyzeContentBlock_positive.
  destruct (detectHeaderFooter (trim p)); simpl; [apply IH|].
  now rewrite analyzeContentBlock_text, IH.
Qed.

(** X13. The blocks of [segmentIntoBlocks] are, in order, the paragraphs of
    the text (the pieces between runs of two or more line breaks), trimmed,
    without the empty ones and without those [detectHeaderFooter] takes for
    headers or footers; every block has a positive confidence. *)
Theorem segmentIntoBlocks_paragraphs :
  forall toUpperCase text,
    List.map ContentBlock.text (segmentIntoBlocks toUpperCase text)
    = List.filter keptParagraph (List.map trim (splitRe paragraphBreak text))
    /\ Forall (fun b => (0 <? ContentBlock.confidence b)%float = true
                        /\ keptParagraph (ContentBlock.text b) = true)
              (segmentIntoBlocks toUpperCase text).
Proof.
  intros up text. rewrite segmentIntoBlocks_unfold.
  split; [apply segmentParagraphs_texts|].
  generalize 0 at 1. induction (splitRe paragraphBreak text) as [|p ps IH];
    intros lineNumber; simpl; [constructor|].
  destruct (truthy (trim p)) eqn:Et; [|apply IH].
  destruct (0 <? _)%float eqn:Ec; [|apply IH].
  constructor; [|apply IH]. split; [exact Ec|].
  rewrite analyzeContentBlock_positive in Ec. unfold keptParagraph.
  now rewrite analyzeContentBlock_text, Et, Ec.
Qed.

Lemma split_length sep s : 1 <= length (split sep s).
Proof.
  pose proof (split_nonempty sep s). destruct (split sep s); [congruence|].
  simpl. lia.
Qed.

Lemma segmentParagraphs_lines toUpperCase paragraphs lo lineNumber :
  lo <= lineNumber ->
  LinesFrom lo (segmentParagraphs toUpperCase paragraphs lineNumber).
Proof.
  revert lo lineNumber. induction paragraphs as [|p paragraphs IH];
    intros lo lineNumber Hlo; simpl; [exact I|].
  destruct (truthy (trim p)); [|now apply IH].
  pose proof (split_length LF (trim p)) as Hlen.
  destruct (0 <? _)%float; [|apply IH; lia].
  simpl.
  destruct (analyzeContentBlock_lines toUpperCase (trim p) lineNumber
              (lineNumber + length (split LF (trim p)) - 1)) as [-> ->].
  rewrite analyzeContentBlock_text.
  split; [exact Hlo|]. split; [lia|]. apply IH. lia.
Qed.

(** X14. The line ranges [segmentIntoBlocks] assigns: a block spans exactly as
    many lines as its text has ([endLine - startLine + 1]), so
    [startLine <= endLine]; blocks come in increasing line order, and the
    next block starts at least three lines after the end of the one
    before. *)
Theorem segmentIntoBlocks_line_ranges :
  forall toUpperCase text,
    LinesFrom 0 (segmentIntoBlocks toUpperCase text)
    /\ Forall (fun b => ContentBlock.startLine b <= ContentBlock.endLine b)
              (segmentIntoBlocks toUpperCase text).
Proof.
  intros up text.
  assert (H : LinesFrom 0 (segmentIntoBlocks up text)).
  { rewrite segmentIntoBlocks_unfold. now apply segmentParagraphs_lines. }
  split; [exact H|]. revert H. generalize 0.
  induction (segmentIntoBlocks up text) as [|b blocks IH]; intros lo; simpl;
    [constructor|].
  intros (_ & Hspan & Hrest). constructor; [|exact (IH _ Hrest)].
  pose proof (split_length LF (ContentBlock.text b)). lia.
Qed.

(** ** Replacements take their captures from the input *)

Lemma starLoop_keeps (P : N -> Prop) m fuel : Keeps P m -> Keeps P (starLoop m fuel).
Proof.
  intros Hm. induction fuel as [|c fuel IH]; intros st k res Hst; simpl.
  - intros H. exists st. split; [exact Hst | exact H].
  - destruct (m st _) as [res'|] eqn:E.
    + intros [= ->]. apply Hm in E as (st1 & Hs1 & E); [|exact Hst].
      destruct (pos st <? pos st1)%N; [|discriminate].
      now apply IH in E.
    + intros H. exists st. split; [exact Hst | exact H].
Qed.

Lemma Within_consumed (P : N -> Prop) i st st' :
  Within P st -> Within P st' -> Within P (capture i st st').
Proof.
  intros [Hin _] [Hin' Hcaps']. split; [exact Hin'|]. simpl.
  constructor; [|exact Hcaps']. simpl. unfold consumed.
  rewrite <- (firstn_skipn (N.to_nat (pos st' - pos st)) (input st)) in Hin.
  now apply Forall_app in Hin as [? _].
Qed.

Lemma rmatch_keeps (P : N -> Prop) r : Keeps P (rmatch r).
Proof.
  induction r as [|p|r1 IH1 r2 IH2|r1 IH1 r2 IH2|r1 IH1|i r1 IH1|m|m|];
    intros st k res Hst; simpl.
  - intros H. exists st. auto.
  - destruct (input st) as [|c s'] eqn:E; [discriminate|].
    destruct (p c); [|discriminate]. intros H.
    exists (MState (pos st + 1) (Some c) s' (captures st)).
    split; [|exact H]. destruct Hst as [Hin Hcaps]. rewrite E in Hin.
    inversion Hin; subst. split; assumption.
  - intros H. apply IH1 in H as (st1 & Hs1 & H); [|exact Hst].
    now apply IH2 in H.
  - destruct (rmatch r1 st k) as [res'|] eqn:E.
    + intros [= ->]. now apply IH1 in E.
    + now apply IH2.
  - now apply starLoop_keeps.
  - intros H. apply IH1 in H as (st1 & Hs1 & H); [|exact Hst].
    exists (capture i st st1). split; [now apply Within_consumed | exact H].
  - destruct (atBol m st); [|discriminate]. intros H. exists st. auto.
  - destruct (atEol m st); [|discriminate]. intros H. exists st. auto.
  - destruct (atWordBoundary st); [|discriminate]. intros H. exists st. auto.
Qed.

Lemma exec_within (P : N -> Prop) r prev s st :
  Forall P s -> exec r prev s = Some st -> Within P st.
Proof.
  intros Hs H. unfold exec in H.
  apply (rmatch_keeps P) in H as (st' & Hst' & [= ->]); [exact Hst'|].
  split; [exact Hs | constructor].
Qed.

Lemma expand_within (P : N -> Prop) tpl st :
  literalsIn P tpl -> Within P st -> Forall P (expand tpl (captures st)).
Proof.
  intros Htpl [_ Hcaps]. unfold expand.
  induction Htpl as [|t tpl Ht _ IH]; simpl; [constructor|].
  apply Forall_app. split; [|exact IH].
  destruct t as [lit|i]; [exact Ht|]. clear -Hcaps.
  induction Hcaps as [|[j cap] caps Hcap _ IH]; simpl; [constructor|].
  destruct (i =? j); [exact Hcap | exact IH].
Qed.

Lemma replaceFrom_keeps (P : N -> Prop) r tpl :
  literalsIn P tpl ->
  forall fuel prev s, Forall P s -> Forall P (replaceFrom fuel r tpl prev s).
Proof.
  intros Htpl. induction fuel as [|fuel IH]; intros prev s Hs; [exact Hs|].
  simpl. destruct (exec r prev s) as [st|] eqn:E.
  - pose proof (exec_within P _ _ _ _ Hs E) as Hst.
    pose proof (expand_within P tpl st Htpl Hst) as Hex.
    destruct (0 <? pos st)%N.
    + apply Forall_app. split; [exact Hex | apply IH, Hst].
    + destruct s as [|c s]; [exact Hex|].
      inversion Hs; subst. apply Forall_app. split; [exact Hex|].
      constructor; [assumption | now apply IH].
  - destruct s as [|c s]; [constructor|].
    inversion Hs; subst. constructor; [assumption | now apply IH].
Qed.

Lemma replaceAll_keeps (P : N -> Prop) r tpl s :
  literalsIn P tpl -> Forall P s -> Forall P (replaceAll r tpl s).
Proof. intros Htpl Hs. now apply replaceFrom_keeps. Qed.

(** Replacing every code unit of a class leaves none of them, when the
    replacement holds none. *)
Lemma replaceFrom_Cls_free p tpl :
  literalsIn (fun x => p x = false) tpl ->
  forall fuel prev s,
    length s < fuel ->
    Forall (fun x => p x = false) (replaceFrom fuel (Cls p) tpl prev s).
Proof.
  intros Htpl. induction fuel as [|fuel IH]; intros prev s Hlen; [lia|].
  destruct s as [|x s']; [constructor|].
  cbn [replaceFrom]. unfold exec. cbn [rmatch input].
  destruct (p x) eqn:Ex.
  - cbn [pos before input captures]. change (0 <? 0 + 1)%N with true. cbv iota.
    apply Forall_app. split.
    + apply (expand_within _ tpl (MState 0 None [] [])); [exact Htpl|].
      split; constructor.
    + apply IH. simpl in Hlen. lia.
  - constructor; [exact Ex|]. apply IH. simpl in Hlen. lia.
Qed.

Lemma replaceAll_Cls_free p tpl s :
  literalsIn (fun x => p x = false) tpl ->
  Forall (fun x => p x = false) (replaceAll (Cls p) tpl s).
Proof. intros Htpl. apply replaceFrom_Cls_free; [exact Htpl | lia]. Qed.

Lemma Forall_and3 (P Q R : N -> Prop) s :
  Forall P s -> Forall Q s -> Forall R s -> Forall (fun x => P x /\ Q x /\ R x) s.
Proof.
  intros HP HQ HR. apply Forall_forall. intros x Hx.
  repeat split; eapply Forall_forall; eauto.
Qed.

Lemma isArtifact_false c :
  isArtifact c = false
  <-> zeroWidth c = false /\ (0xAD =? c)%N = false /\ (FF =? c)%N = false.
Proof.
  unfold isArtifact. rewrite (N.eqb_sym c 0xAD), (N.eqb_sym c FF).
  rewrite !orb_false_iff. tauto.
Qed.

Lemma removePDFArtifacts_clean_lines text :
  Forall (fun c => isArtifact c = false) (removePDFArtifacts text).
Proof.
  unfold removePDFArtifacts. cbv zeta.
  set (c1 := replaceAll (Cls zeroWidth) [] text).
  set (c2 := replaceAll (chr 0xAD%N) [] c1).
  set (c3 := replaceAll _ [Ref 1; Ref 2] c2).
  set (c4 := replaceAll _ [Ref 1; Lit [SP]; Ref 2] c3).
  assert (Z1 : Forall (fun x => zeroWidth x = false) c1)
    by (apply replaceAll_Cls_free; constructor).
  assert (Z2 : Forall (fun x => zeroWidth x = false) c2)
    by (apply replaceAll_keeps; [constructor | exact Z1]).
  assert (A2 : Forall (fun x => (0xAD =? x)%N = false) c2)
    by (apply replaceAll_Cls_free; constructor).
  assert (Z3 : Forall (fun x => zeroWidth x = false) c3)
    by (apply replaceAll_keeps; [repeat constructor | exact Z2]).
  assert (A3 : Forall (fun x => (0xAD =? x)%N = false) c3)
    by (apply replaceAll_keeps; [repeat constructor | exact A2]).
  assert (Z4 : Forall (fun x => zeroWidth x = false) c4)
    by (apply replaceAll_keeps; [repeat constructor | exact Z3]).
  assert (A4 : Forall (fun x => (0xAD =? x)%N = false) c4)
    by (apply replaceAll_keeps; [repeat constructor | exact A3]).
  eapply Forall_impl; [intros c; apply (proj2 (isArtifact_false c))|].
  apply Forall_and3.
  - apply replaceAll_keeps; [repeat constructor | exact Z4].
  - apply replaceAll_keeps; [repeat constructor | exact A4].
  - apply replaceAll_Cls_free. repeat constructor.
Qed.

(** X15. What [removePDFArtifacts] returns holds no zero-width character
    (U+200B to U+200D, U+FEFF), no soft hyphen and no form feed; the
    characters it holds besides were in the text, or are the space and line
    breaks it inserts. *)
Theorem removePDFArtifacts_clean :
  forall text,
    Forall (fun c => isArtifact c = false) (removePDFArtifacts text)
    /\ Forall (fun c => In c text \/ c = SP \/ c = LF) (removePDFArtifacts text).
Proof.
  intros text. split; [apply removePDFArtifacts_clean_lines|].
  unfold removePDFArtifacts. cbv zeta.
  repeat (apply replaceAll_keeps;
          [solve [repeat first [apply Forall_nil | apply Forall_cons | exact I
                               | right; left; reflexivity
                               | right; right; reflexivity]]|]).
  apply Forall_forall. auto.
Qed.

(** ** Trimming *)

Lemma dropWhile_suffix p s : exists a, s = a ++ dropWhile p s.
Proof.
  induction s as [|c s [a IH]]; simpl; [now exists []|].
  destruct (p c); [|now exists []]. exists (c :: a). simpl. now f_equal.
Qed.

Lemma dropWhile_headOk p s : headOk p (dropWhile p s).
Proof.
  induction s as [|c s IH]; simpl; [exact I|].
  destruct (p c) eqn:E; [exact IH | exact E].
Qed.

Lemma dropWhile_id p s : headOk p s -> dropWhile p s = s.
Proof. destruct s as [|c s]; simpl; [reflexivity|]. now intros ->. Qed.

Lemma trim_within s : exists a b, s = a ++ trim s ++ b.
Proof.
  unfold trim, trimEnd, trimStart.
  destruct (dropWhile_suffix isWhiteSpace s) as [a Ha].
  destruct (dropWhile_suffix isWhiteSpace (rev (dropWhile isWhiteSpace s)))
    as [b Hb].
  exists a, (rev b). rewrite <- rev_app_distr, <- Hb, rev_involutive. exact Ha.
Qed.

Lemma trim_Trimmed s : Trimmed (trim s).
Proof.
  unfold Trimmed, trim, trimEnd, trimStart.
  set (t := dropWhile isWhiteSpace s).
  pose proof (dropWhile_headOk isWhiteSpace s) as Ht. fold t in Ht.
  pose proof (dropWhile_headOk isWhiteSpace (rev t)) as Hd.
  destruct (dropWhile_suffix isWhiteSpace (rev t)) as [b Hb].
  set (d := dropWhile isWhiteSpace (rev t)) in *.
  split; [|now rewrite rev_involutive].
  apply (f_equal (@rev N)) in Hb. rewrite rev_involutive, rev_app_distr in Hb.
  destruct (rev d) as [|c u]; [exact I|]. rewrite Hb in Ht. exact Ht.
Qed.

Lemma Trimmed_trim s : Trimmed s -> trim s = s.
Proof.
  intros [Hhead Hlast]. unfold trim, trimEnd, trimStart.
  rewrite (dropWhile_id _ s Hhead), (dropWhile_id _ (rev s) Hlast).
  apply rev_involutive.
Qed.

Lemma trim_idempotent s : trim (trim s) = trim s.
Proof. apply Trimmed_trim, trim_Trimmed. Qed.

Lemma trim_Forall (P : N -> Prop) s : Forall P s -> Forall P (trim s).
Proof.
  intros H. destruct (trim_within s) as (a & b & E). rewrite E in H.
  apply Forall_app in H as [_ H]. now apply Forall_app in H as [H _].
Qed.

Lemma runLength_app_le c a b : runLength c a <= runLength c (a ++ b).
Proof.
  induction a as [|x a IH]; simpl; [lia|]. destruct (c =? x)%N; lia.
Qed.

Lemma noRun_app_l c n a b : noRun c n (a ++ b) -> noRun c n a.
Proof.
  induction a as [|x a IH]; simpl; [auto|]. intros [Hrun Hrest].
  split; [|now apply IH].
  pose proof (runLength_app_le c (x :: a) b) as Hle. simpl in Hle. lia.
Qed.

Lemma noRun_app_r c n a b : noRun c n (a ++ b) -> noRun c n b.
Proof. induction a as [|x a IH]; simpl; [auto|]. intros [_ Hrest]. auto. Qed.

Lemma trim_noRun c n s : noRun c n s -> noRun c n (trim s).
Proof.
  intros H. destruct (trim_within s) as (a & b & E). rewrite E in H.
  apply noRun_app_r in H. now apply noRun_app_l in H.
Qed.

(** ** What the preprocessor returns *)

(** X16. One pass of [normalizeWhitespace] leaves no carriage return, no two
    spaces in a row, no two tabs in a row and no four line breaks in a row;
    so does [quickClean], which ends with that pass. *)
Theorem whitespace_normal_form :
  forall text,
    (Forall (fun x => x <> CR) (normalizeWhitespace text)
     /\ noRun SP 2 (normalizeWhitespace text)
     /\ noRun TAB 2 (normalizeWhitespace text)
     /\ noRun LF 4 (normalizeWhitespace text))
    /\ (Forall (fun x => x <> CR) (quickClean text)
        /\ noRun SP 2 (quickClean text)
        /\ noRun TAB 2 (quickClean text)
        /\ noRun LF 4 (quickClean text)).
Proof.
  intros text. split; [apply normalizeWhitespace_normal|].
  unfold quickClean. apply normalizeWhitespace_normal.
Qed.

Lemma filterLines_Forall (P : N -> Prop) keep text :
  P LF -> Forall P text -> Forall P (filterLines keep text).
Proof.
  intros HLF H. unfold filterLines. apply join_Forall; [repeat constructor; exact HLF|].
  apply filter_Forall. now apply split_Forall.
Qed.

Lemma normalizeWhitespace_keeps (P : N -> Prop) text :
  P LF -> P SP -> P TAB -> Forall P text -> Forall P (normalizeWhitespace text).
Proof.
  intros HLF HSP HTAB H. unfold normalizeWhitespace. cbv zeta.
  repeat (apply replaceAll_keeps; [repeat constructor; assumption|]). exact H.
Qed.

Lemma removeRepeatedSections_keeps (P : N -> Prop) text :
  P LF -> Forall P text -> Forall P (removeRepeatedSections text).
Proof.
  intros HLF H. unfold removeRepeatedSections. cbv zeta.
  destruct (_ <? _); [|exact H].
  apply join_Forall; [repeat constructor; exact HLF|].
  apply filter_Forall. now apply split_Forall.
Qed.

Lemma normalizeLists_keeps (P : N -> Prop) text :
  P BULLET -> P SP -> P (code ".") -> Forall P text -> Forall P (normalizeLists text).
Proof.
  intros HB HSP HDOT H. unfold normalizeLists. cbv zeta.
  repeat (apply replaceAll_keeps; [repeat constructor; assumption|]). exact H.
Qed.

Lemma fixOCRErrors_keeps (P : N -> Prop) text :
  P (code "I") -> P (code "O") -> P (code "l") -> P SP ->
  Forall P text -> Forall P (fixOCRErrors text).
Proof.
  intros HI HO Hl HSP H. unfold fixOCRErrors. cbv zeta.
  repeat (apply replaceAll_keeps; [repeat constructor; assumption|]). exact H.
Qed.

Lemma if_Forall (P : N -> Prop) (b : bool) (f : list N -> list N) x :
  (Forall P x -> Forall P (f x)) -> Forall P x ->
  Forall P (if b then f x else x).
Proof. destruct b; auto. Qed.

Lemma removePageNumbers_keeps (P : N -> Prop) text :
  P LF -> Forall P text -> Forall P (removePageNumbers text).
Proof. exact (filterLines_Forall P keepsPageLine text). Qed.

Lemma removeStandaloneLinks_keeps (P : N -> Prop) text :
  P LF -> Forall P text -> Forall P (removeStandaloneLinks text).
Proof. exact (filterLines_Forall P keepsLinkLine text). Qed.

Lemma beforeLastPass_clean text options :
  Forall (fun c => isArtifact c = false) (beforeLastPass text options).
Proof.
  unfold beforeLastPass.
  pose proof (removePDFArtifacts_clean_lines (normalizeWhitespace text)) as H2.
  set (p2 := removePDFArtifacts (normalizeWhitespace text)) in *.
  set (A := fun c : N => isArtifact c = false) in *.
  assert (HLF : A LF) by reflexivity. assert (HSP : A SP) by reflexivity.
  assert (HB : A BULLET) by reflexivity. assert (HD : A (code ".")) by reflexivity.
  assert (HI : A (code "I")) by reflexivity. assert (HO : A (code "O")) by reflexivity.
  assert (Hl : A (code "l")) by reflexivity.
  clearbody A p2.
  destruct (notFalse (Options.removePageNumbers options));
    [apply (removePageNumbers_keeps A _ HLF) in H2|];
    cbv zeta;
    (destruct (notFalse (Options.removeLinks options));
     [apply (removeStandaloneLinks_keeps A _ HLF) in H2|]);
    (destruct (notFalse (Options.removeRepeated options));
     [apply (removeRepeatedSections_keeps A _ HLF) in H2|]);
    apply (normalizeLists_keeps A _ HB HSP HD) in H2;
    (destruct (isTrue (Options.fixOCR options));
     [apply (fixOCRErrors_keeps A _ HI HO Hl HSP) in H2|]);
    exact H2.
Qed.

(** X17. Whatever the options, what [preprocessText] returns neither starts
    nor ends with white space (trimming it again changes nothing), holds no
    carriage return, zero-width character, soft hyphen or form feed, and has
    no two spaces, no two tabs and no four line breaks in a row. *)
Theorem preprocessText_postcondition :
  forall text options,
    let out := preprocessText text options in
    Trimmed out
    /\ trim out = out
    /\ Forall (fun c => c <> CR /\ isArtifact c = false) out
    /\ noRun SP 2 out /\ noRun TAB 2 out /\ noRun LF 4 out.
Proof.
  intros text options. cbv zeta. rewrite preprocessText_unfold.
  generalize (beforeLastPass_clean text options).
  generalize (beforeLastPass text options). intros p7 H7.
  destruct (normalizeWhitespace_normal p7) as (Hcr & Hsp & Htab & Hlf).
  split; [apply trim_Trimmed|]. split; [apply trim_idempotent|].
  split; [|split; [|split]; apply trim_noRun; assumption].
  apply trim_Forall.
  apply (normalizeWhitespace_keeps (fun c => isArtifact c = false) p7
           eq_refl eq_refl eq_refl) in H7.
  apply Forall_forall. intros c Hc. split.
  - exact (proj1 (Forall_forall _ _) Hcr c Hc).
  - exact (proj1 (Forall_forall _ _) H7 c Hc).
Qed.

(** ** The line filters *)

Lemma filter_idempotent {A : Type} (p : A -> bool) l :
  List.filter p (List.filter p l) = List.filter p l.
Proof.
  apply filter_all. intros x Hx. now apply filter_In in Hx as [_ ?].
Qed.

Lemma filterLines_lines keep text :
  keep [] = true ->
  split LF (filterLines keep text)
  = match List.filter keep (split LF text) with
    | [] => [[]]
    | kept => kept
    end.
Proof.
  intros Hk. unfold filterLines.
  destruct (List.filter keep (split LF text)) as [|l kept] eqn:E; [reflexivity|].
  apply split_join; [discriminate|]. rewrite <- E.
  apply filter_Forall, split_free.
Qed.

Lemma filterLines_idempotent keep text :
  keep [] = true ->
  filterLines keep (filterLines keep text) = filterLines keep text.
Proof.
  intros Hk. unfold filterLines at 1. rewrite (filterLines_lines keep text Hk).
  unfold filterLines.
  destruct (List.filter keep (split LF text)) as [|l kept] eqn:E.
  - simpl. now rewrite Hk.
  - now rewrite <- E, filter_idempotent.
Qed.

Lemma filterLines_kept keep text :
  keep [] = true ->
  Forall (fun line => keep line = true) (split LF (filterLines keep text)).
Proof.
  intros Hk. rewrite (filterLines_lines keep text Hk).
  destruct (List.filter keep (split LF text)) as [|l kept] eqn:E.
  - repeat constructor. exact Hk.
  - rewrite <- E. apply Forall_forall. intros x Hx.
    now apply filter_In in Hx as [_ ?].
Qed.

(** X18. [removePageNumbers] is idempotent, and no line of its result is a
    page-number line: trimmed, none matches the "page N", "N/M", "N of M"
    pattern or is a number of one to three digits. When every line is
    removed the result is the empty string. *)
Theorem removePageNumbers_idempotent :
  forall text,
    removePageNumbers (removePageNumbers text) = removePageNumbers text
    /\ Forall (fun line => test pageNumberLine (trim line) = false
                           /\ test shortNumberLine (trim line) = false)
              (split LF (removePageNumbers text))
    /\ (List.filter keepsPageLine (split LF text) = [] ->
        removePageNumbers text = []).
Proof.
  intros text. split; [exact (filterLines_idempotent keepsPageLine text eq_refl)|].
  split.
  - pose proof (filterLines_kept keepsPageLine text eq_refl) as H.
    eapply Forall_impl; [|exact H]. intros line. unfold keepsPageLine. cbv zeta.
    destruct (test pageNumberLine (trim line)); [discriminate|].
    destruct (test shortNumberLine (trim line)); [discriminate|]. auto.
  - intros E. change (removePageNumbers text) with (filterLines keepsPageLine text).
    unfold filterLines. now rewrite E.
Qed.

(** X19. [removeStandaloneLinks] is idempotent, and no line of its result is,
    once trimmed, a bare http(s) URL or a bare e-mail address. *)
Theorem removeStandaloneLinks_idempotent :
  forall text,
    removeStandaloneLinks (removeStandaloneLinks text) = removeStandaloneLinks text
    /\ Forall (fun line => test urlLine (trim line) = false
                           /\ test emailLine (trim line) = false)
              (split LF (removeStandaloneLinks text)).
Proof.
  intros text. split; [exact (filterLines_idempotent keepsLinkLine text eq_refl)|].
  pose proof (filterLines_kept keepsLinkLine text eq_refl) as H.
  eapply Forall_impl; [|exact H]. intros line. unfold keepsLinkLine. cbv zeta.
  destruct (test urlLine (trim line)); [discriminate|].
  destruct (test emailLine (trim line)); [discriminate|]. auto.
Qed.

(** ** Repeated lines *)

Lemma removeRepeatedSections_filter text :
  removeRepeatedSections text
  = filterLines (keepsUnrepeated (split LF text)) text.
Proof.
  unfold removeRepeatedSections, filterLines. cbv zeta.
  set (lines := split LF text).
  assert (Hfilter :
    List.filter (fun line => negb (bool_decide
                    (trim line ∈ repeatedLinesOf (lineFrequencyOf lines)))) lines
    = List.filter (keepsUnrepeated lines) lines).
  { apply filter_ext. intros line. unfold keepsUnrepeated.
    now rewrite repeatedLines_decide. }
  destruct (0 <? base.size (repeatedLinesOf (lineFrequencyOf lines))) eqn:E.
  - now rewrite Hfilter.
  - apply Nat.ltb_ge in E.
    assert (Hempty : repeatedLinesOf (lineFrequencyOf lines) = ∅).
    { apply leibniz_equiv, size_empty_iff. lia. }
    rewrite <- Hfilter, Hempty. rewrite filter_all.
    + subst lines. now rewrite join_split.
    + intros line _. apply negb_true_iff, bool_decide_eq_false.
      apply not_elem_of_empty.
Qed.

Lemma filter_filter_length {A : Type} (f g : A -> bool) l :
  length (List.filter f (List.filter g l)) <= length (List.filter f l).
Proof.
  induction l as [|x l IH]; simpl; [lia|].
  destruct (g x); simpl; destruct (f x); simpl; lia.
Qed.

Lemma isRepeated_filter lo hi g lines t :
  isRepeated lo hi lines t = false ->
  isRepeated lo hi (List.filter g lines) t = false.
Proof.
  unfold isRepeated, occurrences. intros H.
  pose proof (filter_filter_length (fun line => JS.eqb (trim line) t) g lines) as Hle.
  destruct (lo <=? length t); [|reflexivity].
  destruct (length t <=? hi); [|reflexivity]. simpl in *.
  apply Nat.ltb_ge in H. apply Nat.ltb_ge. lia.
Qed.

(** X20. [removeRepeatedSections] is idempotent: in its result no line of 6 to
    99 code units (trimmed) occurs more than twice, so a second pass finds
    nothing to remove. *)
Theorem removeRepeatedSections_idempotent :
  forall text,
    removeRepeatedSections (removeRepeatedSections text)
    = removeRepeatedSections text
    /\ Forall (fun line =>
                 isRepeated 6 99 (split LF (removeRepeatedSections text))
                            (trim line) = false)
              (split LF (removeRepeatedSections text)).
Proof.
  intros text.
  assert (Hkept :
    Forall (fun line =>
              isRepeated 6 99 (split LF (removeRepeatedSections text))
                         (trim line) = false)
           (split LF (removeRepeatedSections text))).
  { rewrite removeRepeatedSections_filter.
    rewrite (filterLines_lines _ text eq_refl).
    set (lines := split LF text).
    destruct (List.filter (keepsUnrepeated lines) lines) as [|l kept] eqn:E.
    - repeat constructor.
    - rewrite <- E. apply Forall_forall. intros line Hline.
      apply filter_In in Hline as [_ Hline]. unfold keepsUnrepeated in Hline.
      apply negb_true_iff in Hline. now apply isRepeated_filter. }
  split; [|exact Hkept].
  rewrite (removeRepeatedSections_filter (removeRepeatedSections text)).
  unfold filterLines. rewrite filter_all; [apply join_split|].
  intros line Hline. unfold keepsUnrepeated. apply negb_true_iff.
  exact (proj1 (Forall_forall _ _) Hkept line Hline).
Qed.

(** ** Texts without markers *)

Lemma Forall_forallb (p : N -> bool) s :
  forallb p s = true -> Forall (fun c => p c = true) s.
Proof. intros H. apply Forall_forall. now apply forallb_forall. Qed.

(** X21. [normalizeLists] changes nothing in a text that holds no bullet
    glyph, no dash and no digit, and [fixOCRErrors] changes nothing in a
    text that holds none of the characters "l", "0" and "1". *)
Theorem markerless_text_unchanged :
  forall text,
    (forallb noMarker text = true -> normalizeLists text = text)
    /\ (forallb noOCRTarget text = true -> fixOCRErrors text = text).
Proof.
  intros text. split; intros H; apply Forall_forallb in H.
  - unfold normalizeLists. cbv zeta.
    rewrite (replaceAll_Needs (fun c => noMarker c = true) _ _ text); [|..|exact H].
    2:{ simpl. right. right. left. left. intros c Hc. unfold noMarker in Hc.
        apply negb_true_iff in Hc. apply orb_false_iff in Hc as [Hc _].
        now apply orb_false_iff in Hc as [Hc _]. }
    rewrite (replaceAll_Needs (fun c => noMarker c = true) _ _ text); [|..|exact H].
    2:{ simpl. right. right. left. left. intros c Hc. unfold noMarker in Hc.
        apply negb_true_iff in Hc. apply orb_false_iff in Hc as [Hc _].
        now apply orb_false_iff in Hc as [_ Hc]. }
    apply (replaceAll_Needs (fun c => noMarker c = true)); [|exact H].
    simpl. right. right. left. left. intros c Hc. unfold noMarker in Hc.
    apply negb_true_iff in Hc. now apply orb_false_iff in Hc as [_ Hc].
  - assert (Hl : forall c, noOCRTarget c = true -> (code "l" =? c)%N = false).
    { intros c Hc. unfold noOCRTarget in Hc. apply negb_true_iff in Hc.
      apply orb_false_iff in Hc as [Hc _]. apply orb_false_iff in Hc as [Hc _].
      now rewrite N.eqb_sym. }
    assert (H0 : forall c, noOCRTarget c = true -> (code "0" =? c)%N = false).
    { intros c Hc. unfold noOCRTarget in Hc. apply negb_true_iff in Hc.
      apply orb_false_iff in Hc as [Hc _]. apply orb_false_iff in Hc as [_ Hc].
      now rewrite N.eqb_sym. }
    assert (H1 : forall c, noOCRTarget c = true -> (code "1" =? c)%N = false).
    { intros c Hc. unfold noOCRTarget in Hc. apply negb_true_iff in Hc.
      apply orb_false_iff in Hc as [_ Hc]. now rewrite N.eqb_sym. }
    unfold fixOCRErrors. cbv zeta.
    rewrite (replaceAll_Needs (fun c => noOCRTarget c = true) _ _ text);
      [|simpl; right; left; exact Hl|exact H].
    rewrite (replaceAll_Needs (fun c => noOCRTarget c = true) _ _ text);
      [|simpl; right; left; exact H0|exact H].
    rewrite (replaceAll_Needs (fun c => noOCRTarget c = true) _ _ text);
      [|simpl; right; left; exact H1|exact H].
    rewrite (replaceAll_Needs (fun c => noOCRTarget c = true) _ _ text);
      [|simpl; right; left; exact H1|exact H].
    apply (replaceAll_Needs (fun c => noOCRTarget c = true)); [|exact H].
    simpl. right. left. exact H1.
Qed.

Lemma markerless_text_unchanged_witness :
  normalizeLists (str "Plain text, no list") = str "Plain text, no list"
  /\ fixOCRErrors (str "Page three") = str "Page three".
Proof.
  split.
  - apply (proj1 (markerless_text_unchanged (str "Plain text, no list"))).
    reflexivity.
  - apply (proj2 (markerless_text_unchanged (str "Page three"))). reflexivity.
Defined.

(** ** The OCR fixes keep the length *)

Lemma replaceFrom_length r tpl :
  (forall prev s st,
     exec r prev s = Some st ->
     length (expand tpl (captures st)) = N.to_nat (pos st)) ->
  forall fuel prev s, length (replaceFrom fuel r tpl prev s) = length s.
Proof.
  intros Hexp. induction fuel as [|fuel IH]; intros prev s; [reflexivity|].
  simpl. destruct (exec r prev s) as [st|] eqn:E.
  - pose proof (Hexp _ _ _ E) as Hlen.
    apply exec_tracks in E as (p & Hs & Hpos).
    destruct (0 <? pos st)%N eqn:E0.
    + rewrite length_app, IH, Hlen, Hs at 1. rewrite length_app. lia.
    + apply N.ltb_ge in E0. destruct s as [|c s'].
      * rewrite Hlen. simpl. lia.
      * rewrite length_app, Hlen. simpl. rewrite IH. lia.
  - destruct s as [|c s']; simpl; [reflexivity|]. now rewrite IH.
Qed.

Lemma fixOCR_exec1 prev s st :
  exec (seqs [WordBoundary; lit "l"; WordBoundary]) prev s = Some st ->
  length (expand [Lit (str "I")] (captures st)) = N.to_nat (pos st).
Proof. revert prev s st. exec_length. Qed.

Lemma fixOCR_exec2 prev s st :
  exec (seqs [WordBoundary; lit "0"; WordBoundary]) prev s = Some st ->
  length (expand [Lit (str "O")] (captures st)) = N.to_nat (pos st).
Proof. revert prev s st. exec_length. Qed.

Lemma fixOCR_exec3 prev s st :
  exec (seqs [Group 1 (Cls isLower); lit "1"; Group 2 (Cls isLower)]) prev s
  = Some st ->
  length (expand [Ref 1; Lit (str "l"); Ref 2] (captures st)) = N.to_nat (pos st).
Proof. revert prev s st. exec_length. Qed.

Lemma fixOCR_exec4 prev s st :
  exec (seqs [Group 1 cls_w; lit "1"; cls_s]) prev s = Some st ->
  length (expand [Ref 1; Lit (str "l ")] (captures st)) = N.to_nat (pos st).
Proof. revert prev s st. exec_length. Qed.

Lemma fixOCR_exec5 prev s st :
  exec (seqs [cls_s; lit "1"; Group 1 cls_w]) prev s = Some st ->
  length (expand [Lit (str " l"); Ref 1] (captures st)) = N.to_nat (pos st).
Proof. revert prev s st. exec_length. Qed.

(** X22. [fixOCRErrors] never changes the length of a text: each of its five
    replacements puts as many code units as it takes (a white-space
    character after a "1" is replaced by a space). *)
Theorem fixOCRErrors_length :
  forall text, length (fixOCRErrors text) = length text.
Proof.
  intros text. unfold fixOCRErrors, replaceAll. cbv zeta.
  rewrite (replaceFrom_length _ _ fixOCR_exec5).
  rewrite (replaceFrom_length _ _ fixOCR_exec4).
  rewrite (replaceFrom_length _ _ fixOCR_exec3).
  rewrite (replaceFrom_length _ _ fixOCR_exec2).
  apply (replaceFrom_length _ _ fixOCR_exec1).
Qed.

(** ** Statistics *)

Lemma bump_fold_lookup {K : Type} `{Countable K} (key : Chunk -> K)
    (chunks : list Chunk) (m : gmap K nat) (k : K) :
  fold_left (fun m c => Stats.bump m (key c)) chunks m !! k
  = if countWhere key k chunks =? 0 then m !! k
    else Some (default 0 (m !! k) + countWhere key k chunks).
Proof.
  revert m. induction chunks as [|c chunks IH]; intros m; [reflexivity|].
  simpl fold_left. rewrite IH. unfold countWhere, Stats.bump. simpl List.filter.
  destruct (decide (key c = k)) as [->|Hne].
  - rewrite bool_decide_eq_true_2 by reflexivity. simpl length.
    rewrite lookup_insert_eq. simpl.
    destruct (length _ =? 0) eqn:E0.
    + apply Nat.eqb_eq in E0. rewrite E0. f_equal.
    + f_equal. lia.
  - rewrite bool_decide_eq_false_2 by exact Hne.
    now rewrite lookup_insert_ne.
Qed.

Lemma countChunk_fold chunks acc :
  fold_left Stats.countChunk chunks acc
  = (fold_left (fun m c => Stats.bump m (typeOf c)) chunks (fst acc),
     fold_left (fun m c => Stats.bump m (levelOf c)) chunks (snd acc)).
Proof.
  revert acc. induction chunks as [|c chunks IH]; intros [m1 m2]; [reflexivity|].
  simpl. now rewrite IH.
Qed.

Lemma countWhere_types chunks :
  countWhere typeOf TextT chunks + countWhere typeOf TableT chunks
  + countWhere typeOf ListT chunks + countWhere typeOf HeadingT chunks
  = length chunks.
Proof.
  unfold countWhere. induction chunks as [|c chunks IH]; [reflexivity|].
  simpl. destruct (typeOf c); simpl; lia.
Qed.

Lemma countWhere_levels chunks :
  countWhere levelOf High chunks + countWhere levelOf Medium chunks
  + countWhere levelOf Low chunks
  = length chunks.
Proof.
  unfold countWhere. induction chunks as [|c chunks IH]; [reflexivity|].
  simpl. destruct (levelOf c); simpl; lia.
Qed.

Lemma applySpread_cases {A B : Type} engine (f : list A -> B) (args : list A) :
  (length args <= Pos.to_nat (maxArguments engine)
   /\ Stats.applySpread engine f args = Ok (f args))
  \/ (Pos.to_nat (maxArguments engine) < length args
      /\ Stats.applySpread engine f args = Throw RangeError).
Proof.
  unfold Stats.applySpread.
  destruct (Nat.leb_spec (length args) (Pos.to_nat (maxArguments engine)));
    [left | right]; split; auto.
Qed.

Lemma getChunkingStats_cases engine chunks :
  (length chunks <= Pos.to_nat (maxArguments engine)
   /\ Stats.getChunkingStats engine chunks
      = Ok (if length chunks =? 0
            then Stats.mk 0 0%float 0 0 ∅ ∅
            else
              let sizes := List.map (fun c => length (content c)) chunks in
              let records := fold_left Stats.countChunk chunks
                               ((∅ : gmap ContentType nat),
                                (∅ : gmap ConfidenceLevel nat)) in
              Stats.mk (length chunks)
                (Stats.round (Stats.sumOf sizes / num (length sizes))%float)
                (Stats.minOf sizes) (Stats.maxOf sizes)
                (fst records) (snd records)))
  \/ (Pos.to_nat (maxArguments engine) < length chunks
      /\ Stats.getChunkingStats engine chunks = Throw RangeError).
Proof.
  unfold Stats.getChunkingStats.
  destruct (length chunks =? 0) eqn:E0.
  { left. apply Nat.eqb_eq in E0. split; [lia | reflexivity]. }
  cbv zeta.
  destruct (applySpread_cases engine Stats.minOf
              (List.map (fun c => length (content c)) chunks)) as [[Hlen ->]|[Hlen ->]];
    rewrite length_map in Hlen; [|right; split; [exact Hlen | reflexivity]].
  destruct (applySpread_cases engine Stats.maxOf
              (List.map (fun c => length (content c)) chunks)) as [[_ ->]|[Hlen' _]];
    rewrite ?length_map in *; [|lia].
  left. split; [exact Hlen | reflexivity].
Qed.

(** X23. [getChunkingStats] returns unless the chunk list is longer than the
    arguments one call takes, in which case [Math.min(...sizes)] raises a
    [RangeError]. The two records of the returned object count the chunks:
    a content type (a confidence level) is a key exactly when some chunk
    has it, its value is the number of chunks that have it, and the values
    of each record add up to [totalChunks], the number of chunks. *)
Theorem getChunkingStats_counts :
  forall engine chunks ty lvl,
    match Stats.getChunkingStats engine chunks with
    | Ok stats =>
        length chunks <= Pos.to_nat (maxArguments engine)
        /\ Stats.totalChunks stats = length chunks
        /\ Stats.contentTypes stats !! ty
           = (if countWhere typeOf ty chunks =? 0 then None
              else Some (countWhere typeOf ty chunks))
        /\ Stats.confidenceLevels stats !! lvl
           = (if countWhere levelOf lvl chunks =? 0 then None
              else Some (countWhere levelOf lvl chunks))
        /\ countWhere typeOf TextT chunks + countWhere typeOf TableT chunks
           + countWhere typeOf ListT chunks + countWhere typeOf HeadingT chunks
           = Stats.totalChunks stats
        /\ countWhere levelOf High chunks + countWhere levelOf Medium chunks
           + countWhere levelOf Low chunks
           = Stats.totalChunks stats
    | Throw e =>
        e = RangeError /\ Pos.to_nat (maxArguments engine) < length chunks
    end.
Proof.
  intros engine chunks ty lvl.
  destruct (getChunkingStats_cases engine chunks) as [[Hlen ->]|[Hlen ->]];
    [|split; [reflexivity | exact Hlen]].
  split; [exact Hlen|].
  destruct chunks as [|c chunks]; [simpl; repeat split; apply lookup_empty|].
  change (length (c :: chunks) =? 0) with false. cbv iota zeta.
  cbn [Stats.totalChunks Stats.contentTypes Stats.confidenceLevels].
  rewrite countChunk_fold. cbn [fst snd].
  rewrite !bump_fold_lookup, !lookup_empty. simpl default.
  split; [reflexivity|]. split; [reflexivity|]. split; [reflexivity|].
  split; [apply countWhere_types | apply countWhere_levels].
Qed.

Lemma getChunkingStats_counts_witness :
  exists stats,
    Stats.getChunkingStats sampleEngine threeChunks = Ok stats
    /\ Stats.totalChunks stats = 3
    /\ Stats.contentTypes stats !! TableT = Some 2
    /\ Stats.contentTypes stats !! ListT = None
    /\ Stats.confidenceLevels stats !! High = Some 2.
Proof.
  pose proof (getChunkingStats_counts sampleEngine threeChunks TableT High) as H1.
  pose proof (getChunkingStats_counts sampleEngine threeChunks ListT High) as H2.
  destruct (Stats.getChunkingStats sampleEngine threeChunks) as [stats|e] eqn:E.
  - exists stats. split; [reflexivity|].
    destruct H1 as (_ & Ht & Hty & Hlvl & _). destruct H2 as (_ & _ & Hty' & _).
    split; [exact Ht|]. split; [exact Hty|]. split; [exact Hty' | exact Hlvl].
  - exfalso. destruct H1 as [_ H1]. apply Nat.ltb_lt in H1.
    vm_compute in H1. discriminate.
Defined.

Lemma fold_min_spec rest s :
  (fold_left Nat.min rest s <= s
   /\ Forall (fun x => fold_left Nat.min rest s <= x) rest)
  /\ In (fold_left Nat.min rest s) (s :: rest).
Proof.
  revert s. induction rest as [|x rest IH]; intros s; simpl.
  - split; [split; [lia | constructor] | now left].
  - destruct (IH (Nat.min s x)) as [[H1 H2] H3]. split; [split|].
    + lia.
    + constructor; [lia | exact H2].
    + destruct H3 as [H3|H3]; [|now right; right].
      destruct (Nat.min_spec s x) as [[_ E]|[_ E]];
        [left | right; left]; congruence.
Qed.

Lemma fold_max_spec rest s :
  (s <= fold_left Nat.max rest s
   /\ Forall (fun x => x <= fold_left Nat.max rest s) rest)
  /\ In (fold_left Nat.max rest s) (s :: rest).
Proof.
  revert s. induction rest as [|x rest IH]; intros s; simpl.
  - split; [split; [lia | constructor] | now left].
  - destruct (IH (Nat.max s x)) as [[H1 H2] H3]. split; [split|].
    + lia.
    + constructor; [lia | exact H2].
    + destruct H3 as [H3|H3]; [|now right; right].
      destruct (Nat.max_spec s x) as [[_ E]|[_ E]];
        [right; left | left]; congruence.
Qed.

(** X24. When [getChunkingStats] returns for a non-empty chunk list,
    [minChunkSize] and [maxChunkSize] are the lengths of a shortest and of
    a longest chunk: each is the length of some chunk, and every chunk's
    length lies between them. For the empty list every number is 0 and both
    records are empty. It returns exactly when the chunk list is no longer
    than the arguments one call takes, and raises a [RangeError] otherwise. *)
Theorem getChunkingStats_sizes :
  forall engine chunks,
    match Stats.getChunkingStats engine chunks with
    | Ok stats =>
        length chunks <= Pos.to_nat (maxArguments engine)
        /\ (chunks = [] -> stats = Stats.mk 0 0%float 0 0 ∅ ∅)
        /\ (forall c, In c chunks ->
              Stats.minChunkSize stats <= length (content c)
              /\ length (content c) <= Stats.maxChunkSize stats)
        /\ (chunks <> [] ->
            (exists c, In c chunks
                       /\ length (content c) = Stats.minChunkSize stats)
            /\ (exists c, In c chunks
                          /\ length (content c) = Stats.maxChunkSize stats))
    | Throw e =>
        e = RangeError /\ Pos.to_nat (maxArguments engine) < length chunks
    end.
Proof.
  intros engine chunks.
  destruct (getChunkingStats_cases engine chunks) as [[Hlen ->]|[Hlen ->]];
    [|split; [reflexivity | exact Hlen]].
  split; [exact Hlen|]. clear Hlen.
  destruct chunks as [|c0 chunks].
  { split; [reflexivity|]. split; [intros c []|congruence]. }
  change (length (c0 :: chunks) =? 0) with false. cbv iota zeta.
  cbn [Stats.minChunkSize Stats.maxChunkSize]. simpl List.map.
  set (size := fun c : Chunk => length (content c)).
  unfold Stats.minOf, Stats.maxOf.
  destruct (fold_min_spec (List.map size chunks) (size c0)) as [[Hm1 Hm2] Hm3].
  destruct (fold_max_spec (List.map size chunks) (size c0)) as [[HM1 HM2] HM3].
  change (size c0 :: List.map size chunks) with (List.map size (c0 :: chunks))
    in Hm3, HM3.
  apply in_map_iff in Hm3 as (cmin & Emin & Hmin).
  apply in_map_iff in HM3 as (cmax & Emax & Hmax).
  split; [discriminate|]. split; [|intros _; split].
  - intros c [<-|Hc]; [split; [exact Hm1 | exact HM1]|].
    assert (Hs : In (size c) (List.map size chunks)) by now apply in_map.
    split.
    + exact (proj1 (Forall_forall _ _) Hm2 _ Hs).
    + exact (proj1 (Forall_forall _ _) HM2 _ Hs).
  - exists cmin. split; [exact Hmin | exact Emin].
  - exists cmax. split; [exact Hmax | exact Emax].
Qed.

Lemma getChunkingStats_sizes_witness :
  exists stats,
    Stats.getChunkingStats sampleEngine threeChunks = Ok stats
    /\ Stats.totalChunks stats = 3
    /\ Stats.avgChunkSize stats = 4%float
    /\ Stats.minChunkSize stats = 3
    /\ Stats.maxChunkSize stats = 4
    /\ (forall c, In c threeChunks ->
          Stats.minChunkSize stats <= length (content c)
          /\ length (content c) <= Stats.maxChunkSize stats).
Proof.
  pose proof (getChunkingStats_sizes sampleEngine threeChunks) as H.
  revert H. unfold Stats.getChunkingStats, Stats.applySpread.
  change (length threeChunks =? 0) with false.
  change (length (List.map (fun c => length (content c)) threeChunks)
          <=? Pos.to_nat (maxArguments sampleEngine)) with true.
  cbv iota zeta. unfold bind. intros H.
  eexists. split; [reflexivity|].
  split; [reflexivity|]. split; [vm_compute; reflexivity|].
  split; [reflexivity|]. split; [reflexivity|].
  exact (proj1 (proj2 (proj2 H))).
Defined.

(** ** Sentences *)

Lemma starLoop_cls_unfold p f fuel st k c s' :
  input st = c :: s' ->
  starLoop (rmatch (Cls p)) (f :: fuel) st k
  = if p c
    then match starLoop (rmatch (Cls p)) fuel
                 (MState (pos st + 1) (Some c) s' (captures st)) k with
         | Some r => Some r
         | None => k st
         end
    else k st.
Proof.
  intros E. cbn [starLoop rmatch]. rewrite E. destruct (p c); [|reflexivity].
  cbn [pos].
  replace (pos st <? pos st + 1)%N with true by (symmetry; apply N.ltb_lt; lia).
  reflexivity.
Qed.

Lemma starLoop_cls_success p fuel st k r :
  length (input st) <= length fuel ->
  k (advanceBy (spanLength p (input st)) st) = Some r ->
  starLoop (rmatch (Cls p)) fuel st k = Some r.
Proof.
  revert st. induction fuel as [|f fuel IH]; intros st Hlen Hk.
  - destruct (input st) eqn:E; simpl in Hlen; [|lia]. exact Hk.
  - destruct (input st) as [|c s'] eqn:E.
    + cbn [starLoop rmatch]. rewrite E. exact Hk.
    + rewrite (starLoop_cls_unfold p f fuel st k c s' E).
      cbn [spanLength] in Hk. destruct (p c); [|exact Hk].
      cbn [advanceBy] in Hk. rewrite E in Hk.
      rewrite (IH (MState (pos st + 1) (Some c) s' (captures st)));
        [reflexivity | simpl in *; lia | exact Hk].
Qed.

Lemma starLoop_cls_fail p fuel st k :
  length (input st) <= length fuel ->
  (forall j, j <= spanLength p (input st) -> k (advanceBy j st) = None) ->
  starLoop (rmatch (Cls p)) fuel st k = None.
Proof.
  revert st. induction fuel as [|f fuel IH]; intros st Hlen Hk.
  - exact (Hk 0 ltac:(lia)).
  - destruct (input st) as [|c s'] eqn:E.
    + cbn [starLoop rmatch]. rewrite E. exact (Hk 0 ltac:(lia)).
    + rewrite (starLoop_cls_unfold p f fuel st k c s' E).
      cbn [spanLength] in Hk. destruct (p c); [|exact (Hk 0 ltac:(lia))].
      rewrite IH; [exact (Hk 0 ltac:(lia)) | simpl in *; lia |].
      intros j Hj. specialize (Hk (S j) ltac:(simpl in *; lia)).
      cbn [advanceBy] in Hk. now rewrite E in Hk.
Qed.

Lemma advanceBy_input n st : input (advanceBy n st) = skipn n (input st).
Proof.
  revert st. induction n as [|n IH]; intros st; [reflexivity|].
  cbn [advanceBy]. destruct (input st) as [|c s'] eqn:E; [now rewrite E|].
  now rewrite IH.
Qed.

Lemma advanceBy_pos n st :
  n <= length (input st) -> pos (advanceBy n st) = (pos st + N.of_nat n)%N.
Proof.
  revert st. induction n as [|n IH]; intros st Hn; [simpl; lia|].
  cbn [advanceBy]. destruct (input st) as [|c s'] eqn:E; [simpl in Hn; lia|].
  rewrite IH by (simpl in *; lia). simpl. lia.
Qed.

Lemma advanceBy_captures n st : captures (advanceBy n st) = captures st.
Proof.
  revert st. induction n as [|n IH]; intros st; [reflexivity|].
  cbn [advanceBy]. destruct (input st); [reflexivity|]. now rewrite IH.
Qed.

Lemma advanceBy_add a b st :
  advanceBy (a + b) st = advanceBy b (advanceBy a st).
Proof.
  revert st. induction a as [|a IH]; intros st; [reflexivity|].
  cbn [Nat.add advanceBy]. destruct (input st) as [|c s'] eqn:E; [|apply IH].
  destruct b; cbn [advanceBy]; now rewrite ?E.
Qed.

Lemma spanLength_le p s : spanLength p s <= length s.
Proof. induction s as [|c s IH]; simpl; [lia|]. destruct (p c); simpl; lia. Qed.

Lemma spanLength_inside p s j :
  j < spanLength p s -> exists c rest, skipn j s = c :: rest /\ p c = true.
Proof.
  revert j. induction s as [|c s IH]; intros j Hj; simpl in Hj; [lia|].
  destruct (p c) eqn:E; [|lia]. destruct j as [|j]; [now exists c, s|].
  simpl. apply IH. lia.
Qed.

Lemma spanLength_stop p s :
  match skipn (spanLength p s) s with
  | [] => True
  | c :: _ => p c = false
  end.
Proof.
  induction s as [|c s IH]; simpl; [exact I|].
  destruct (p c) eqn:E; [exact IH | exact E].
Qed.

Lemma rmatch_plus_cls p st k :
  rmatch (Seq (Cls p) (Star (Cls p))) st k
  = match input st with
    | c :: s' =>
        if p c
        then starLoop (rmatch (Cls p)) s'
                      (MState (pos st + 1) (Some c) s' (captures st)) k
        else None
    | [] => None
    end.
Proof. reflexivity. Qed.

Lemma exec_sentence prev s :
  exec sentencePattern prev s
  = match sentenceLength s with
    | Some k => Some (advanceBy k (MState 0 prev s []))
    | None => None
    end.
Proof.
  change (exec sentencePattern prev s)
    with (rmatch (Seq (Cls notTerminator) (Star (Cls notTerminator)))
                 (MState 0 prev s [])
                 (fun st' => rmatch (Seq (Cls isTerminator) (Star (Cls isTerminator)))
                                    st' Some)).
  rewrite rmatch_plus_cls. unfold sentenceLength.
  destruct s as [|c s']; [reflexivity|].
  cbn [input spanLength].
  destruct (notTerminator c) eqn:Ec; [|reflexivity].
  cbn [pos captures skipn]. change (0 <? S _) with true. cbn [andb].
  set (n := spanLength notTerminator s').
  pose proof (spanLength_stop notTerminator s') as Hstop. fold n in Hstop.
  pose proof (advanceBy_input n (MState (0 + 1) (Some c) s' [])) as Hin.
  cbn [input] in Hin.
  destruct (skipn n s') as [|c2 s2] eqn:Erest.
  - cbn [spanLength]. change (0 <? 0) with false. cbv iota.
    apply starLoop_cls_fail; [simpl; lia|]. cbn [input]. fold n. intros j Hj.
    rewrite rmatch_plus_cls, advanceBy_input. cbn [input].
    destruct (Nat.eq_dec j n) as [->|Hne]; [now rewrite Erest|].
    destruct (spanLength_inside notTerminator s' j ltac:(fold n; lia))
      as (x & rest & -> & Hx).
    unfold notTerminator in Hx. apply negb_true_iff in Hx.
    unfold isTerminator. now rewrite Hx.
  - unfold notTerminator in Hstop. apply negb_false_iff in Hstop.
    change (isTerminator c2 = true) in Hstop.
    change (spanLength isTerminator (c2 :: s2))
      with (if isTerminator c2 then S (spanLength isTerminator s2) else 0).
    rewrite Hstop. change (0 <? S _) with true. cbv iota.
    apply starLoop_cls_success; [simpl; lia|].
    cbn [input]. fold n. rewrite rmatch_plus_cls, Hin, Hstop.
    rewrite (starLoop_cls_success isTerminator s2 _ Some
               (advanceBy (spanLength isTerminator s2)
                  (MState (pos (advanceBy n (MState (0 + 1) (Some c) s' [])) + 1)
                          (Some c2) s2
                          (captures (advanceBy n (MState (0 + 1) (Some c) s' []))))));
      [|simpl; lia|reflexivity].
    f_equal. replace (S n + S (spanLength isTerminator s2))
      with (S n + 1 + spanLength isTerminator s2) by lia.
    rewrite !advanceBy_add.
    change (advanceBy (S n) (MState 0 prev (c :: s') []))
      with (advanceBy n (MState (0 + 1) (Some c) s' [])).
    cbn [advanceBy]. now rewrite Hin.
Qed.

Lemma sentenceLength_bounds s k :
  sentenceLength s = Some k -> 0 < k /\ k <= length s.
Proof.
  unfold sentenceLength.
  set (n := spanLength notTerminator s).
  set (t := spanLength isTerminator (skipn n s)).
  destruct (Nat.ltb_spec 0 n); [|discriminate].
  destruct (Nat.ltb_spec 0 t); [|discriminate]. intros [= <-].
  pose proof (spanLength_le isTerminator (skipn n s)) as Ht. fold t in Ht.
  rewrite length_skipn in Ht. lia.
Qed.

Lemma matchFrom_sentences fuel prev s :
  matchFrom fuel sentencePattern prev s = sentencesFrom fuel s.
Proof.
  revert prev s. induction fuel as [|fuel IH]; intros prev s; [reflexivity|].
  cbn [matchFrom sentencesFrom]. rewrite exec_sentence.
  destruct (sentenceLength s) as [k|] eqn:E.
  - apply sentenceLength_bounds in E as [Hk Hle].
    rewrite advanceBy_pos, advanceBy_input by exact Hle. cbn [pos input].
    replace (0 <? 0 + N.of_nat k)%N with true by (symmetry; apply N.ltb_lt; lia).
    replace (N.to_nat (0 + N.of_nat k)) with k by lia.
    now rewrite IH.
  - destruct s as [|c s']; [reflexivity | apply IH].
Qed.

Lemma sentencesOf_sentencesFrom text :
  sentencesOf text
  = match sentencesFrom (S (length text)) text with
    | [] => [text]
    | sentences => sentences
    end.
Proof. rewrite <- (matchFrom_sentences _ None). reflexivity. Qed.

Lemma sentencesFrom_fuel fuel1 fuel2 s :
  length s < fuel1 -> length s < fuel2 ->
  sentencesFrom fuel1 s = sentencesFrom fuel2 s.
Proof.
  intros H1 H2. rewrite <- !(matchFrom_sentences _ None).
  now apply matchFrom_fuel.
Qed.

Lemma spanLength_app_in p s t :
  spanLength p s < length s -> spanLength p (s ++ t) = spanLength p s.
Proof.
  induction s as [|c s IH]; simpl; [lia|].
  destruct (p c); [|reflexivity]. intros H. f_equal. apply IH. lia.
Qed.

Lemma spanLength_app_all p s t :
  spanLength p s = length s -> spanLength p (s ++ t) = length s + spanLength p t.
Proof.
  induction s as [|c s IH]; simpl; [reflexivity|].
  destruct (p c); [|discriminate]. intros [= H]. f_equal. now apply IH.
Qed.

Lemma spanLength_all p s : forallb p s = true -> spanLength p s = length s.
Proof.
  induction s as [|c s IH]; simpl; [reflexivity|].
  destruct (p c); [|discriminate]. intros H. f_equal. now apply IH.
Qed.

Lemma spanLength_terminator_free tail :
  forallb notTerminator tail = true -> spanLength isTerminator tail = 0.
Proof.
  destruct tail as [|c tail]; [reflexivity|]. simpl. unfold notTerminator, isTerminator.
  destruct (one_of _ c); [discriminate | reflexivity].
Qed.

Lemma endsTerminated_tail c s : endsTerminated (c :: s) = true -> endsTerminated s = true.
Proof. destruct s; [reflexivity | auto]. Qed.

Lemma endsTerminated_skipn k s :
  endsTerminated s = true -> endsTerminated (skipn k s) = true.
Proof.
  revert s. induction k as [|k IH]; intros s H; [exact H|].
  destruct s as [|c s]; [reflexivity|]. simpl skipn.
  apply IH. exact (endsTerminated_tail c s H).
Qed.

Lemma endsTerminated_span s :
  s <> [] -> endsTerminated s = true -> spanLength notTerminator s < length s.
Proof.
  induction s as [|c s IH]; [congruence|]. intros _ H.
  destruct s as [|c' s].
  - simpl in *. unfold notTerminator. unfold isTerminator in H. rewrite H. simpl. lia.
  - specialize (IH ltac:(discriminate) H). cbn [spanLength length] in *.
    destruct (notTerminator c); lia.
Qed.

Lemma sentenceLength_app s tail :
  s <> [] -> endsTerminated s = true -> forallb notTerminator tail = true ->
  sentenceLength (s ++ tail) = sentenceLength s.
Proof.
  intros Hne Hend Htail. unfold sentenceLength.
  pose proof (endsTerminated_span s Hne Hend) as Hn.
  rewrite (spanLength_app_in _ s tail Hn).
  set (n := spanLength notTerminator s) in *.
  rewrite skipn_app. replace (n - length s) with 0 by lia.
  change (skipn 0 tail) with tail.
  pose proof (spanLength_le isTerminator (skipn n s)) as Ht.
  destruct (Nat.eq_dec (spanLength isTerminator (skipn n s)) (length (skipn n s)))
    as [Hall|Hin].
  - rewrite (spanLength_app_all _ _ tail Hall), <- Hall.
    rewrite (spanLength_terminator_free tail Htail). now rewrite Nat.add_0_r.
  - now rewrite spanLength_app_in by lia.
Qed.

Lemma sentencesFrom_terminator_free fuel tail :
  forallb notTerminator tail = true -> sentencesFrom fuel tail = [].
Proof.
  revert tail. induction fuel as [|fuel IH]; intros tail H; [reflexivity|].
  cbn [sentencesFrom].
  assert (E : sentenceLength tail = None).
  { unfold sentenceLength. rewrite (spanLength_all _ _ H), skipn_all.
    simpl. now rewrite andb_false_r. }
  rewrite E. destruct tail as [|c tail]; [reflexivity|].
  apply IH. simpl in H. now apply andb_true_iff in H as [_ ?].
Qed.

Lemma sentencesFrom_app fuel s tail :
  endsTerminated s = true -> forallb notTerminator tail = true ->
  sentencesFrom fuel (s ++ tail) = sentencesFrom fuel s.
Proof.
  intros Hend Htail. revert s Hend.
  induction fuel as [|fuel IH]; intros s Hend; [reflexivity|].
  destruct s as [|c s'].
  - simpl app. rewrite (sentencesFrom_terminator_free _ tail Htail). reflexivity.
  - cbn [sentencesFrom].
    rewrite (sentenceLength_app (c :: s') tail ltac:(discriminate) Hend Htail).
    destruct (sentenceLength (c :: s')) as [k|] eqn:E.
    + apply sentenceLength_bounds in E as [Hk Hle].
      rewrite firstn_app, skipn_app.
      replace (k - length (c :: s')) with 0 by lia.
      change (firstn 0 tail) with (@nil N). change (skipn 0 tail) with tail.
      rewrite app_nil_r. f_equal.
      apply IH. now apply endsTerminated_skipn.
    + simpl app. apply IH. exact (endsTerminated_tail c s' Hend).
Qed.

Lemma sentenceLength_some s :
  startsSentence s = true -> s <> [] -> endsTerminated s = true ->
  exists k, sentenceLength s = Some k
            /\ startsSentence (skipn k s) = true.
Proof.
  intros Hstart Hne Hend. unfold sentenceLength.
  pose proof (endsTerminated_span s Hne Hend) as Hn.
  pose proof (spanLength_stop notTerminator s) as Hstop.
  set (n := spanLength notTerminator s) in *.
  assert (Hn0 : 0 < n).
  { subst n. destruct s as [|c s]; [congruence|]. simpl in *.
    rewrite Hstart. lia. }
  pose proof (spanLength_stop isTerminator (skipn n s)) as Hstop2.
  set (t := spanLength isTerminator (skipn n s)) in *.
  assert (Ht0 : 0 < t).
  { subst t. destruct (skipn n s) as [|c rest] eqn:E.
    - apply (f_equal (@length N)) in E. rewrite length_skipn in E. simpl in E. lia.
    - simpl. unfold notTerminator in Hstop. apply negb_false_iff in Hstop.
      unfold isTerminator. rewrite Hstop. lia. }
  exists (n + t).
  replace (0 <? n) with true by (symmetry; now apply Nat.ltb_lt).
  replace (0 <? t) with true by (symmetry; now apply Nat.ltb_lt).
  split; [reflexivity|].
  rewrite Nat.add_comm, <- skipn_skipn. unfold startsSentence.
  destruct (skipn t (skipn n s)) as [|c rest]; [reflexivity|].
  unfold notTerminator. unfold isTerminator in Hstop2. now rewrite Hstop2.
Qed.

Lemma sentencesFrom_found fuel s :
  length s < fuel -> endsTerminated s = true -> existsb notTerminator s = true ->
  sentencesFrom fuel s <> [].
Proof.
  revert s. induction fuel as [|fuel IH]; intros s Hlen Hend Hex; [lia|].
  destruct s as [|c s']; [discriminate|]. cbn [sentencesFrom].
  destruct (notTerminator c) eqn:Ec.
  - destruct (sentenceLength_some (c :: s')) as (k & -> & _);
      [exact Ec | discriminate | exact Hend | discriminate].
  - assert (E : sentenceLength (c :: s') = None).
    { unfold sentenceLength. simpl. now rewrite Ec. }
    rewrite E. simpl in Hex. rewrite Ec in Hex. simpl in Hex.
    apply IH; [simpl in Hlen; lia | exact (endsTerminated_tail c s' Hend) | exact Hex].
Qed.

Lemma sentencesFrom_cover fuel s :
  length s < fuel -> startsSentence s = true -> endsTerminated s = true ->
  concat (sentencesFrom fuel s) = s.
Proof.
  revert s. induction fuel as [|fuel IH]; intros s Hlen Hstart Hend; [lia|].
  destruct s as [|c s']; [reflexivity|]. cbn [sentencesFrom].
  destruct (sentenceLength_some (c :: s') Hstart ltac:(discriminate) Hend)
    as (k & E & Hnext).
  rewrite E. apply sentenceLength_bounds in E as [Hk Hle]. cbn [concat].
  rewrite IH; [apply firstn_skipn | | exact Hnext | now apply endsTerminated_skipn].
  rewrite length_skipn. simpl in *. lia.
Qed.

(** X25. What the sentence pattern of [chunkTextBySentences] leaves out: when
    the text of a block ends with a terminator (. ! ?) and holds some other
    character, so that a sentence is found, anything appended to it that
    holds no terminator is ignored; the chunks are those of the block
    without the appended words, which are in no chunk. *)
Theorem chunkTextBySentences_drops_tail :
  forall block tail startIndex config,
    endsTerminated (ContentBlock.text block) = true ->
    existsb notTerminator (ContentBlock.text block) = true ->
    forallb notTerminator tail = true ->
    sentencesOf (ContentBlock.text block ++ tail)
    = sentencesOf (ContentBlock.text block)
    /\ chunkTextBySentences (withText block (ContentBlock.text block ++ tail))
                            startIndex config
       = chunkTextBySentences block startIndex config.
Proof.
  intros block tail startIndex config Hend Hex Htail.
  assert (Hs : sentencesOf (ContentBlock.text block ++ tail)
               = sentencesOf (ContentBlock.text block)).
  { rewrite !sentencesOf_sentencesFrom.
    rewrite (sentencesFrom_app _ _ tail Hend Htail).
    rewrite (sentencesFrom_fuel _ (S (length (ContentBlock.text block))));
      [|rewrite length_app; lia|lia].
    pose proof (sentencesFrom_found (S (length (ContentBlock.text block)))
                  (ContentBlock.text block) ltac:(lia) Hend Hex) as Hfound.
    destruct (sentencesFrom _ (ContentBlock.text block)); [congruence | reflexivity]. }
  split; [exact Hs|].
  unfold chunkTextBySentences, textLoop, withText. cbn [ContentBlock.text].
  rewrite Hs. reflexivity.
Qed.

Lemma chunkTextBySentences_drops_tail_witness :
  List.map content (chunkTextBySentences twoSentences 0 tinyConfig)
  = [str "First sentence here."; str "Second sentence here!"]
  /\ chunkTextBySentences
       (withText twoSentences (ContentBlock.text twoSentences ++ trailingWords))
       0 tinyConfig
     = chunkTextBySentences twoSentences 0 tinyConfig.
Proof.
  split; [vm_compute; reflexivity|].
  apply (chunkTextBySentences_drops_tail twoSentences trailingWords 0 tinyConfig);
    reflexivity.
Defined.

(** X26. A text that starts with a character other than a terminator and ends
    with a terminator is cut into sentences without loss: the sentences of
    [chunkTextBySentences], put end to end, are the text. *)
Theorem sentences_cover_text :
  forall text,
    startsSentence text = true -> endsTerminated text = true ->
    concat (sentencesOf text) = text.
Proof.
  intros text Hstart Hend. rewrite sentencesOf_sentencesFrom.
  pose proof (sentencesFrom_cover (S (length text)) text ltac:(lia) Hstart Hend)
    as Hcover.
  destruct (sentencesFrom _ text); [simpl; apply app_nil_r | exact Hcover].
Qed.

Lemma sentences_cover_text_witness :
  concat (sentencesOf (ContentBlock.text twoSentences))
  = ContentBlock.text twoSentences.
Proof.
  apply (sentences_cover_text (ContentBlock.text twoSentences)); reflexivity.
Defined.

(** ** Blocks that fit *)

(** X27. A block that [analyzeContentBlock] keeps (its text is no header or
    footer) and that fits its budget is turned by [chunkBlock] into exactly
    one chunk with the block's text, type and the given index. The chunk's
    confidence is "high" for a plain text block and never "low" for a
    heading or a table: only a list can be labelled "low". *)
Theorem chunkBlock_fitting_block :
  forall toUpperCase text startLine endLine index config,
    let block := analyzeContentBlock toUpperCase text startLine endLine in
    detectHeaderFooter text = false ->
    length text <= (if ContentType_eqb (ContentBlock.type block) TableT
                    then tableMaxSize config else maxChunkSize config) ->
    exists c,
      chunkBlock block index config = Ok [c]
      /\ content c = text
      /\ originalLength (metadata c) = length text
      /\ contentType (metadata c) = ContentBlock.type block
      /\ idx c = index
      /\ match ContentBlock.type block with
         | TextT => confidence (metadata c) = High
         | ListT => True
         | HeadingT | TableT => confidence (metadata c) <> Low
         end.
Proof.
  intros up text startLine endLine index config block Hhf Hfit.
  assert (Htext : ContentBlock.text block = text)
    by apply analyzeContentBlock_text.
  unfold chunkBlock. rewrite Htext.
  replace (length text <=? _) with true by (symmetry; now apply Nat.leb_le).
  eexists. split; [reflexivity|]. cbn [content metadata newChunk originalLength
                                        contentType idx chunkIndex confidence].
  repeat (split; [reflexivity|]).
  assert (Hlabel : forall c, (0.4 <? c)%float = true -> fitConfidence c <> Low).
  { intros c Hc. unfold fitConfidence. destruct (0.7 <? c)%float; [discriminate|].
    rewrite Hc. discriminate. }
  subst block. unfold analyzeContentBlock. rewrite Hhf.
  destruct (detected (detectHeading up text)) eqn:Eh.
  { cbn [ContentBlock.type ContentBlock.confidence]. apply Hlabel.
    revert Eh. unfold detectHeading.
    destruct (nonBlankLines (trim text)) as [|line [|]];
      [discriminate | | discriminate].
    simpl. auto. }
  destruct (detected (detectTable text)) eqn:Et.
  { cbn [ContentBlock.type ContentBlock.confidence]. apply Hlabel.
    revert Et. unfold detectTable. destruct (_ <? 2)%nat; [discriminate|].
    simpl. auto. }
  destruct (detected (detectList text)); [exact I | reflexivity].
Qed.

Lemma chunkBlock_fitting_block_witness :
  exists c,
    chunkBlock (analyzeContentBlock toUpperCaseLatin smallTable 0 4) 0 DEFAULT_CONFIG
    = Ok [c]
    /\ content c = smallTable
    /\ originalLength (metadata c) = length smallTable
    /\ contentType (metadata c) = TableT
    /\ idx c = 0
    /\ confidence (metadata c) <> Low.
Proof.
  exact (chunkBlock_fitting_block toUpperCaseLatin smallTable 0 4 0 DEFAULT_CONFIG
           eq_refl ltac:(vm_compute; lia)).
Defined.

(** ** What the single-line detectors look at *)

Lemma nonBlankLines_blank text : Blank text -> nonBlankLines text = [].
Proof.
  intros H. unfold nonBlankLines.
  pose proof (split_Forall _ LF text H) as Hl.
  induction Hl as [|l ls Hl _ IH]; [reflexivity|]. simpl.
  now rewrite (trim_blank l Hl).
Qed.

(** X28. [detectHeaderFooter] and [detectHeading] look at the trimmed text
    only: white space around the text does not change their answer, and a
    blank text is neither a header or footer nor a heading. *)
Theorem single_line_detectors_trim :
  forall toUpperCase text,
    detectHeaderFooter (trim text) = detectHeaderFooter text
    /\ detectHeading toUpperCase (trim text) = detectHeading toUpperCase text
    /\ (Blank text ->
        detectHeaderFooter text = false
        /\ detected (detectHeading toUpperCase text) = false).
Proof.
  intros up text. split; [|split].
  - unfold detectHeaderFooter. cbv zeta. now rewrite trim_idempotent.
  - unfold detectHeading. cbv zeta. now rewrite trim_idempotent.
  - intros H. split.
    + unfold detectHeaderFooter. cbv zeta. rewrite (trim_blank text H).
      vm_compute. reflexivity.
    + unfold detectHeading. cbv zeta. rewrite (trim_blank text H). reflexivity.
Qed.

(** ** The page number does not influence the chunking *)

Lemma chunkBlocks_stamp engine blocks p config acc index :
  chunkBlocks engine blocks (Some p) config (List.map (setPageNumber p) acc) index
  = match chunkBlocks engine blocks None config acc index with
    | Ok out => Ok (List.map (setPageNumber p) out)
    | Throw e => Throw e
    end.
Proof.
  revert acc index. induction blocks as [|block blocks IH]; intros acc index;
    simpl; [reflexivity|].
  destruct (chunkBlock block index config) as [blockChunks|e]; simpl;
    [|reflexivity].
  unfold pushSpread. rewrite length_map.
  destruct (_ <=? _); simpl; [|reflexivity].
  rewrite <- map_app. apply IH.
Qed.

Lemma overlapFrom_stamp p overlapSize prev l :
  overlapFrom overlapSize (setPageNumber p prev) (List.map (setPageNumber p) l)
  = List.map (setPageNumber p) (overlapFrom overlapSize prev l).
Proof.
  revert prev. induction l as [|c l IH]; intros prev; simpl; [reflexivity|].
  rewrite IH. f_equal. unfold overlapChunk. simpl.
  destruct (negb _); reflexivity.
Qed.

Lemma addOverlap_stamp p l overlapSize :
  addOverlap (List.map (setPageNumber p) l) overlapSize
  = List.map (setPageNumber p) (addOverlap l overlapSize).
Proof.
  unfold addOverlap. rewrite length_map. destruct (_ || _); [reflexivity|].
  destruct l as [|first rest]; [reflexivity|]. simpl.
  now rewrite overlapFrom_stamp.
Qed.

Lemma filter_stamp p config l :
  List.filter (bigEnough config) (List.map (setPageNumber p) l)
  = List.map (setPageNumber p) (List.filter (bigEnough config) l).
Proof.
  induction l as [|c l IH]; simpl; [reflexivity|].
  change (bigEnough config (setPageNumber p c)) with (bigEnough config c).
  destruct (bigEnough config c); simpl; now rewrite IH.
Qed.

(** X29. The page number does not influence the chunking: what
    [semanticChunk] returns for a page number is what it returns without
    one, with that page number written into every chunk, and it throws with
    a page number exactly when it throws without one. *)
Theorem semanticChunk_page_independent :
  forall engine text p config,
    semanticChunk engine text (Some p) config
    = match semanticChunk engine text None config with
      | Ok returned => Ok (List.map (setPageNumber p) returned)
      | Throw e => Throw e
      end.
Proof.
  intros engine text p config. unfold semanticChunk.
  destruct (_ =? _); [reflexivity|].
  pose proof (chunkBlocks_stamp engine (blocksOf engine text) p config [] 0) as Hs.
  simpl List.map in Hs. rewrite Hs.
  destruct (chunkBlocks _ _ None _ _ _) as [allChunks|e]; simpl; [|reflexivity].
  now rewrite addOverlap_stamp, filter_stamp.
Qed.

(** ** White-space normalization never lengthens *)

Lemma replaceFrom_shorter r tpl :
  (forall prev s st,
     exec r prev s = Some st ->
     length (expand tpl (captures st)) <= N.to_nat (pos st)) ->
  forall fuel prev s, length (replaceFrom fuel r tpl prev s) <= length s.
Proof.
  intros Hexp. induction fuel as [|fuel IH]; intros prev s; [reflexivity|].
  simpl. destruct (exec r prev s) as [st|] eqn:E.
  - pose proof (Hexp _ _ _ E) as Hlen.
    apply exec_tracks in E as (p & Hs & Hpos).
    destruct (0 <? pos st)%N eqn:E0.
    + rewrite length_app. specialize (IH (before st) (input st)).
      apply (f_equal (@length N)) in Hs. rewrite length_app in Hs. lia.
    + apply N.ltb_ge in E0. destruct s as [|c s'].
      * simpl. lia.
      * rewrite length_app. simpl. specialize (IH (Some c) s'). lia.
  - destruct s as [|c s']; simpl; [lia|]. specialize (IH (Some c) s'). lia.
Qed.

Lemma exec_atLeast_pos c n prev s st :
  exec (atLeast n (chr c)) prev s = Some st -> n <= N.to_nat (pos st).
Proof.
  unfold exec. rewrite atLeast_run. cbn [input].
  destruct (Nat.leb_spec n (runLength c s)); [|discriminate].
  intros [= <-]. unfold advance. cbn [pos]. lia.
Qed.

(** X30. [normalizeWhitespace] never lengthens a text: each of its five
    replacements puts at most as many code units as it takes. *)
Theorem normalizeWhitespace_shorter :
  forall text, length (normalizeWhitespace text) <= length text.
Proof.
  intros text. unfold normalizeWhitespace, replaceAll. cbv zeta.
  change (plus (chr SP)) with (atLeast 1 (chr SP)).
  change (plus (chr TAB)) with (atLeast 1 (chr TAB)).
  etransitivity.
  { apply replaceFrom_shorter. intros prev s st E.
    apply exec_atLeast_pos in E. simpl. lia. }
  etransitivity.
  { apply replaceFrom_shorter. intros prev s st E.
    apply exec_atLeast_pos in E. simpl. lia. }
  etransitivity.
  { apply replaceFrom_shorter. intros prev s st E.
    apply exec_atLeast_pos in E. simpl. lia. }
  etransitivity.
  { apply replaceFrom_shorter. intros prev s st.
    unfold exec, chr. cbn [rmatch input]. destruct s as [|a s]; [discriminate|].
    destruct (CR =? a)%N; [|discriminate]. intros [= <-]. simpl. lia. }
  apply replaceFrom_shorter. intros prev s st. unfold exec.
  destruct s as [|a [|b s]]; simpl;
    repeat match goal with
           | |- context [if ?x then _ else _] => destruct x
           end;
    try discriminate; intros [= <-]; simpl; lia.
Qed.

(** ** The argument limit of [push] *)




















Lemma chunkBlock_sentences block index config :
  ContentBlock.type block <> TableT -> ContentBlock.type block <> ListT ->
  maxChunkSize config < length (ContentBlock.text block) ->
  chunkBlock block index config = Ok (chunkTextBySentences block index config).
Proof.
  intros H1 H2 Hlen. unfold chunkBlock.
  destruct (ContentBlock.type block); try congruence; cbn [ContentType_eqb];
    cbv zeta;
    (replace (_ <=? _) with false by (symmetry; apply Nat.leb_gt; exact Hlen));
    reflexivity.
Qed.

(** *** Sentences of one letter *)















(** ** C2: the final fragment, through to the result *)

Lemma Trimmed_app a m b :
  Trimmed a -> a <> [] -> Trimmed b -> b <> [] -> Trimmed (a ++ m ++ b).
Proof.
  intros [Ha _] Hane [_ Hb] Hbne. split.
  - destruct a as [|c a]; [congruence | exact Ha].
  - rewrite !rev_app_distr. revert Hb. destruct (rev b) as [|c rb] eqn:E; intros Hb.
    + apply (f_equal (@rev N)) in E. rewrite rev_involutive in E. simpl in E.
      congruence.
    + exact Hb.
Qed.

Lemma textStep_trimmed config block st sentence :
  Forall (fun c => Trimmed (content c)) (chunks st) /\ Trimmed (currentChunk st) ->
  Forall (fun c => Trimmed (content c)) (chunks (textStep config block st sentence))
  /\ Trimmed (currentChunk (textStep config block st sentence)).
Proof.
  intros [Hc Hcur]. unfold textStep. cbv zeta.
  destruct (truthy (trim sentence)) eqn:Ht; simpl; [|split; assumption].
  destruct (_ && _); simpl.
  - split; [apply Forall_snoc; [exact Hc | exact Hcur] | apply trim_Trimmed].
  - split; [exact Hc|]. destruct (currentChunk st) as [|x cur] eqn:E.
    + simpl. apply trim_Trimmed.
    + cbn [truthy]. apply Trimmed_app;
        [exact Hcur | discriminate | apply trim_Trimmed
        | destruct (trim sentence); discriminate].
Qed.

Lemma textLoop_trimmed block startIndex config :
  Forall (fun c => Trimmed (content c)) (chunks (textLoop block startIndex config))
  /\ Trimmed (currentChunk (textLoop block startIndex config)).
Proof.
  apply (fold_left_invariant
           (fun st => Forall (fun c => Trimmed (content c)) (chunks st)
                      /\ Trimmed (currentChunk st))).
  - split; [constructor | split; exact I].
  - intros st sentence H. now apply textStep_trimmed.
Qed.

Lemma textStep_contents config block st st' sentence :
  List.map content (chunks st) = List.map content (chunks st') ->
  currentChunk st = currentChunk st' ->
  List.map content (chunks (textStep config block st sentence))
  = List.map content (chunks (textStep config block st' sentence))
  /\ currentChunk (textStep config block st sentence)
     = currentChunk (textStep config block st' sentence).
Proof.
  intros Hc Hcur. unfold textStep. cbv zeta. rewrite <- Hcur.
  destruct (negb _); [split; assumption|].
  destruct (_ && _); simpl; [|split; [exact Hc | reflexivity]].
  split; [|reflexivity]. now rewrite !map_app, Hc.
Qed.

Lemma textLoop_contents block i j config :
  List.map content (chunks (textLoop block i config))
  = List.map content (chunks (textLoop block j config))
  /\ currentChunk (textLoop block i config)
     = currentChunk (textLoop block j config).
Proof.
  unfold textLoop. cbv zeta.
  assert (H : forall sentences st st',
             List.map content (chunks st) = List.map content (chunks st') ->
             currentChunk st = currentChunk st' ->
             List.map content
               (chunks (fold_left (textStep config block) sentences st))
             = List.map content
                 (chunks (fold_left (textStep config block) sentences st'))
             /\ currentChunk (fold_left (textStep config block) sentences st)
                = currentChunk (fold_left (textStep config block) sentences st')).
  { induction sentences as [|s sentences IH]; intros st st' H1 H2; simpl;
      [split; assumption|].
    destruct (textStep_contents config block st st' s H1 H2) as [H3 H4].
    now apply IH. }
  apply H; reflexivity.
Qed.

Lemma chunkTextBySentences_merge block index config init lastChunk :
  currentChunk (textLoop block index config) <> [] ->
  length (currentChunk (textLoop block index config)) < minChunkSize config ->
  chunks (textLoop block index config) = init ++ [lastChunk] ->
  chunkTextBySentences block index config
  = init ++ [appendFragment (currentChunk (textLoop block index config)) lastChunk].
Proof.
  intros Hne Hshort E. unfold chunkTextBySentences. cbv zeta.
  set (st := textLoop block index config) in *.
  replace (truthy (currentChunk st)) with true
    by (destruct (currentChunk st); [congruence | reflexivity]).
  replace (minChunkSize config <=? length (currentChunk st)) with false
    by (symmetry; apply Nat.leb_gt; exact Hshort).
  rewrite E, length_app, Nat.add_comm. simpl. apply updateLast_snoc.
Qed.

Lemma chunkBlocks_keeps engine blocks page config acc i out c :
  chunkBlocks engine blocks page config acc i = Ok out -> In c acc -> In c out.
Proof.
  revert acc i. induction blocks as [|b blocks IH]; intros acc i; simpl.
  - now intros [= <-].
  - destruct (chunkBlock b i config) as [blockChunks|]; simpl; [|discriminate].
    destruct (pushSpread engine acc _) as [pushed|] eqn:Ep; simpl; [|discriminate].
    apply pushSpread_Ok in Ep as [-> _]. intros H Hc.
    apply (IH _ _ H). apply in_or_app. now left.
Qed.

Lemma chunkBlocks_In engine blocks page config acc i out block :
  chunkBlocks engine blocks page config acc i = Ok out -> In block blocks ->
  exists index blockChunks,
    chunkBlock block index config = Ok blockChunks
    /\ forall c, In c blockChunks ->
         exists c', In c' out /\ content c' = content c
                    /\ originalLength (metadata c') = originalLength (metadata c).
Proof.
  revert acc i. induction blocks as [|b blocks IH]; intros acc i H Hin;
    [destruct Hin|].
  simpl in H.
  destruct (chunkBlock b i config) as [blockChunks|] eqn:E; simpl in H;
    [|discriminate].
  destruct (pushSpread engine acc _) as [pushed|] eqn:Ep; simpl in H;
    [|discriminate].
  apply pushSpread_Ok in Ep as [-> _].
  destruct Hin as [<-|Hin]; [|exact (IH _ _ H Hin)].
  exists i, blockChunks. split; [exact E|]. intros c Hc.
  destruct page as [p|].
  - exists (setPageNumber p c). split; [|split; reflexivity].
    apply (chunkBlocks_keeps _ _ _ _ _ _ _ _ H). apply in_or_app. right.
    now apply in_map.
  - exists c. split; [|split; reflexivity].
    apply (chunkBlocks_keeps _ _ _ _ _ _ _ _ H). apply in_or_app. now right.
Qed.

Lemma overlapFrom_In overlapSize prev rest c :
  In c rest ->
  exists p, In (overlapChunk overlapSize p c) (overlapFrom overlapSize prev rest).
Proof.
  revert prev. induction rest as [|x rest IH]; intros prev Hc; [destruct Hc|].
  simpl. destruct Hc as [<-|Hc].
  - exists prev. now left.
  - destruct (IH x Hc) as [p Hp]. exists p. now right.
Qed.

Lemma addOverlap_In l overlapSize c :
  In c l ->
  exists c', In c' (addOverlap l overlapSize)
             /\ Suffix (content c) (content c')
             /\ originalLength (metadata c') = originalLength (metadata c).
Proof.
  intros Hc. unfold addOverlap. destruct (_ || _) eqn:E.
  { exists c. split; [exact Hc|]. split; [apply Suffix_refl | reflexivity]. }
  apply orb_false_iff in E as [_ E]. apply Nat.eqb_neq in E.
  destruct l as [|first rest]; [destruct Hc|]. destruct Hc as [<-|Hc].
  - eexists. split; [now left|]. split; [apply Suffix_refl | reflexivity].
  - destruct (overlapFrom_In overlapSize first rest c Hc) as [p Hp].
    exists (overlapChunk overlapSize p c). split; [now right|].
    destruct (overlapChunk_keeps overlapSize p c E) as (H1 & _ & H3).
    split; [exact H1|]. unfold SameButOverlap in H3.
    exact (f_equal originalLength H3).
Qed.

Lemma dropWhile_app_keep p a s :
  headOk p s -> s <> [] -> exists a', dropWhile p (a ++ s) = a' ++ s.
Proof.
  intros Hs Hne. induction a as [|c a [a' IH]]; simpl.
  - exists []. simpl. now apply dropWhile_id.
  - destruct (p c); [exists a'; exact IH | exists (c :: a); reflexivity].
Qed.

Lemma trim_keeps_suffix a s :
  Trimmed s -> s <> [] -> exists a', trim (a ++ s) = a' ++ s.
Proof.
  intros [Hhead Hlast] Hne. unfold trim, trimEnd, trimStart.
  destruct (dropWhile_app_keep isWhiteSpace a s Hhead Hne) as [a' ->].
  exists a'. rewrite rev_app_distr.
  rewrite dropWhile_id; [now rewrite <- rev_app_distr, rev_involutive|].
  revert Hlast. destruct (rev s) as [|c rs] eqn:E; intros Hlast; [|exact Hlast].
  apply (f_equal (@rev N)) in E. rewrite rev_involutive in E. simpl in E.
  congruence.
Qed.

Lemma trim_length s : length (trim s) <= length s.
Proof.
  destruct (trim_within s) as (a & b & E).
  apply (f_equal (@length N)) in E. rewrite !length_app in E. lia.
Qed.

Lemma merged_fragment_returned engine text page config returned block index
    init lastChunk :
  semanticChunk engine text page config = Ok returned ->
  In block (blocksOf engine text) ->
  ContentBlock.type block <> TableT -> ContentBlock.type block <> ListT ->
  maxChunkSize config < length (ContentBlock.text block) ->
  currentChunk (textLoop block index config) <> [] ->
  length (currentChunk (textLoop block index config)) < minChunkSize config ->
  chunks (textLoop block index config) = init ++ [lastChunk] ->
  exists c,
    In c returned
    /\ Suffix (content lastChunk ++ [SP]
                 ++ currentChunk (textLoop block index config)) (content c)
    /\ originalLength (metadata c)
       = length (content lastChunk ++ [SP]
                   ++ currentChunk (textLoop block index config)).
Proof.
  intros H Hin Ht1 Ht2 Hbig Hne Hshort Echunks.
  apply semanticChunk_stages in H as (allChunks & Hall & ->).
  destruct (chunkBlocks_In _ _ _ _ _ _ _ _ Hall Hin)
    as (index' & blockChunks & E & Hfwd).
  rewrite (chunkBlock_sentences block index' config Ht1 Ht2 Hbig) in E.
  injection E as <-.
  destruct (textLoop_contents block index index' config) as [Hmap Hcur].
  destruct (textLoop_trimmed block index config) as [Htrim Htrimcur].
  destruct (textLoop_invariant block index config) as (_ & _ & Hmin).
  set (st := textLoop block index config) in *.
  set (st' := textLoop block index' config) in *.
  rewrite Echunks in Hmap, Htrim, Hmin.
  apply Forall_app in Htrim as [_ Htrim]. apply Forall_app in Hmin as [_ Hmin].
  inversion Htrim as [|? ? Htl _]; subst. inversion Hmin as [|? ? Hml _]; subst.
  destruct (snoc_cases (chunks st')) as [E' | (init' & last' & E')];
    rewrite E' in Hmap.
  { rewrite map_app in Hmap. simpl in Hmap.
    destruct (List.map content init); discriminate. }
  rewrite !map_app in Hmap. simpl in Hmap.
  apply app_inj_tail in Hmap as [_ Hlast].
  assert (Hmerge : chunkTextBySentences block index' config
                   = init' ++ [appendFragment (currentChunk st') last']).
  { apply chunkTextBySentences_merge; fold st'; rewrite <- ?Hcur; assumption. }
  destruct (Hfwd (appendFragment (currentChunk st') last')) as (c1 & Hc1 & Ec1 & Eo1).
  { rewrite Hmerge. apply in_or_app. right. now left. }
  destruct (addOverlap_In allChunks (overlapSize config) c1 Hc1)
    as (c2 & Hc2 & [p Hp] & Eo2).
  assert (Econtent : content c1 = content lastChunk ++ [SP] ++ currentChunk st).
  { rewrite Ec1. simpl. now rewrite <- Hlast, Hcur. }
  exists c2. split; [|split].
  - apply filter_In. split; [exact Hc2|]. unfold bigEnough. apply Nat.leb_le.
    rewrite Hp, Econtent.
    destruct (trim_keeps_suffix p (content lastChunk ++ [SP] ++ currentChunk st))
      as [a' ->].
    + apply Trimmed_app; [exact Htl | | exact Htrimcur | exact Hne].
      intros E0. rewrite E0 in Hml. simpl in Hml. lia.
    + intros E0. apply (f_equal (@length N)) in E0.
      rewrite !length_app in E0. simpl in E0. lia.
    + rewrite !length_app. lia.
  - exists p. now rewrite Hp, Econtent.
  - rewrite Eo2, Eo1. simpl. now rewrite <- Hlast, Hcur.
Qed.

Lemma semanticChunk_single_short engine text page config block c :
  blocksOf engine text = [block] ->
  chunkBlock block 0 config = Ok [c] ->
  length (content c) < minChunkSize config ->
  semanticChunk engine text page config = Ok [].
Proof.
  intros Hb E Hshort. unfold semanticChunk. rewrite Hb.
  cbn [length Nat.eqb chunkBlocks]. rewrite E. cbn [bind].
  assert (Hdrop : forall c', content c' = content c ->
                    List.filter (bigEnough config) (addOverlap [c'] (overlapSize config))
                    = []).
  { intros c' Ec. unfold addOverlap. cbn [length Nat.leb orb List.filter].
    unfold bigEnough. rewrite Ec.
    replace (minChunkSize config <=? length (trim (content c))) with false;
      [reflexivity|].
    symmetry. apply Nat.leb_gt. pose proof (trim_length (content c)). lia. }
  destruct page as [p|]; cbn [List.map]; rewrite pushSpread_one; cbn [bind app];
    now rewrite Hdrop.
Qed.

(** C2 (as amended). The sentence splitter never discards the final
    fragment of a text or heading block: the contents of its chunks, joined
    by single spaces, are the block's trimmed sentences joined by single
    spaces, and every chunk's [originalLength] is the length of its content.
    A final fragment shorter than [minChunkSize] is appended, after a space,
    to the last chunk closed before it, whose [originalLength] becomes the
    new length, and [semanticChunk] returns that merged chunk, with overlap
    text possibly put before it. With no chunk closed before it, the
    fragment is emitted as a chunk of its own with confidence "low". The
    final filter of [semanticChunk] keeps only chunks whose trimmed content
    has at least [minChunkSize] code units, so a document that gives a
    single chunk shorter than that, the "low" chunk included, gives the
    empty list. *)
Theorem semanticChunk_final_fragment :
  forall config,
    (forall block startIndex,
       let st := textLoop block startIndex config in
       let fragment := currentChunk st in
       let out := chunkTextBySentences block startIndex config in
       join [SP] (List.filter truthy (List.map content out))
         = join [SP] (fragmentsOf (ContentBlock.text block))
       /\ Forall (fun c => originalLength (metadata c) = length (content c)) out
       /\ (fragment <> [] -> length fragment < minChunkSize config ->
           (forall init lastChunk, chunks st = init ++ [lastChunk] ->
              out = init ++ [appendFragment fragment lastChunk]
              /\ content (appendFragment fragment lastChunk)
                 = content lastChunk ++ [SP] ++ fragment
              /\ originalLength (metadata (appendFragment fragment lastChunk))
                 = length (content lastChunk ++ [SP] ++ fragment))
           /\ (chunks st = [] ->
               out = [newChunk fragment startIndex (ContentBlock.type block) Low])))
    /\ (forall engine text pageNumber returned block index init lastChunk,
          semanticChunk engine text pageNumber config = Ok returned ->
          In block (blocksOf engine text) ->
          ContentBlock.type block <> TableT ->
          ContentBlock.type block <> ListT ->
          maxChunkSize config < length (ContentBlock.text block) ->
          let fragment := currentChunk (textLoop block index config) in
          fragment <> [] -> length fragment < minChunkSize config ->
          chunks (textLoop block index config) = init ++ [lastChunk] ->
          exists c,
            In c returned
            /\ Suffix (content lastChunk ++ [SP] ++ fragment) (content c)
            /\ originalLength (metadata c)
               = length (content lastChunk ++ [SP] ++ fragment))
    /\ (forall engine text pageNumber returned,
          semanticChunk engine text pageNumber config = Ok returned ->
          Forall (fun c => minChunkSize config <= length (trim (content c)))
                 returned)
    /\ (forall engine text pageNumber block c,
          blocksOf engine text = [block] ->
          chunkBlock block 0 config = Ok [c] ->
          length (content c) < minChunkSize config ->
          semanticChunk engine text pageNumber config = Ok []).
Proof.
  intros config. split; [|split; [|split]].
  - intros block startIndex st fragment out.
    split; [apply chunkTextBySentences_content|].
    split.
    { eapply Forall_impl; [|apply chunkTextBySentences_fresh].
      intros c [_ H]. exact H. }
    intros Hne Hshort. split.
    + intros init lastChunk E. subst out fragment st.
      rewrite (chunkTextBySentences_merge block startIndex config init lastChunk
                 Hne Hshort E).
      auto.
    + intros E. subst out. unfold chunkTextBySentences. fold st. cbv zeta.
      fold fragment.
      replace (truthy fragment) with true
        by (destruct fragment; [congruence | reflexivity]).
      replace (minChunkSize config <=? length fragment) with false
        by (symmetry; apply Nat.leb_gt; exact Hshort).
      rewrite E. simpl.
      destruct (textLoop_indexed block startIndex config) as [_ Hi].
      fold st in Hi. rewrite E in Hi. simpl in Hi. rewrite Hi, Nat.add_0_r.
      reflexivity.
  - intros engine text pageNumber returned block index init lastChunk
      H Hin Ht1 Ht2 Hbig fragment Hne Hshort E.
    exact (merged_fragment_returned engine text pageNumber config returned block
             index init lastChunk H Hin Ht1 Ht2 Hbig Hne Hshort E).
  - intros engine text pageNumber returned H.
    apply semanticChunk_stages in H as (allChunks & _ & ->).
    apply Forall_forall. intros c Hc. apply filter_In in Hc as [_ Hc].
    unfold bigEnough in Hc. now apply Nat.leb_le in Hc.
  - intros engine text pageNumber block c Hb E Hshort.
    exact (semanticChunk_single_short engine text pageNumber config block c
             Hb E Hshort).
Qed.

Lemma semanticChunk_final_fragment_witness :
  (exists returned c,
     semanticChunk sampleEngine threeSentences None tinyConfig = Ok returned
     /\ In c returned
     /\ Suffix (str "Second one is also long enough." ++ [SP] ++ str "Finally end.")
               (content c)
     /\ originalLength (metadata c) = 44)
  /\ semanticChunk sampleEngine shortSentence None tinyConfig = Ok [].
Proof.
  split.
  - destruct (semanticChunk sampleEngine threeSentences None tinyConfig)
      as [returned|e] eqn:E; [|vm_compute in E; discriminate].
    destruct (proj1 (proj2 (semanticChunk_final_fragment tinyConfig))
                sampleEngine threeSentences None returned
                (ContentBlock.mk threeSentences TextT 1 0 0) 0
                [newChunk (str "First sentence is long enough here.") 0 TextT High]
                (newChunk (str "Second one is also long enough.") 1 TextT High))
      as (c & Hc & Hsuffix & Hlength).
    + exact E.
    + vm_compute. left. reflexivity.
    + discriminate.
    + discriminate.
    + apply Nat.ltb_lt. vm_compute. reflexivity.
    + vm_compute. discriminate.
    + apply Nat.ltb_lt. vm_compute. reflexivity.
    + vm_compute. reflexivity.
    + exists returned, c. split; [reflexivity|]. split; [exact Hc|].
      split; [exact Hsuffix | exact Hlength].
  - apply (proj2 (proj2 (proj2 (semanticChunk_final_fragment tinyConfig)))
             sampleEngine shortSentence None
             (hd (ContentBlock.mk [] TextT 0 0 0)
                 (blocksOf sampleEngine shortSentence))
             (newChunk shortSentence 0 HeadingT Low)).
    + vm_compute. reflexivity.
    + vm_compute. reflexivity.
    + apply Nat.ltb_lt. vm_compute. reflexivity.
Defined.
